(** * soa: HTTP response parser, pooled HTTP client, TCP client socket and
      REST request router.

    A shallow embedding of the C++ sources (http_client.cc,
    rest_request_router.{h,cc}, tcp_socket.cc) together with the properties
    that the specification states about them. *)

From Stdlib Require Import ZArith Lia Bool Ascii String.
From stdpp Require Import base list strings gmap.

Local Open Scope Z_scope.
Local Open Scope nat_scope.

(** ** Byte strings *)

Abbreviation bytes := (list ascii).

(** A C string literal as a byte sequence (without its terminating NUL). *)
Abbreviation str := list_ascii_of_string.

Definition CR : ascii := "013"%char.
Definition LF : ascii := "010"%char.
Definition SP : ascii := " "%char.
Definition CRLF : bytes := [CR; LF].

Definition bytes_eqb (a b : bytes) : bool := bool_decide (a = b).

(** [data[i]]; every read the parser performs is in range, the default is
    the NUL that terminates a [std::string] buffer. *)
Definition at_ (data : bytes) (i : nat) : ascii := nth i data "000"%char.

(** The half-open range [data + first .. data + last). *)
Definition range (data : bytes) (first last : nat) : bytes :=
  take (last - first) (drop first data).

(** C [tolower] in the "C" locale. *)
Definition tolower (c : ascii) : ascii :=
  let n := nat_of_ascii c in
  if (65 <=? n) && (n <=? 90) then ascii_of_nat (n + 32) else c.

(** [strncasecmp(a, b, n) == 0] for a test string [b] of length [n] without NUL. *)
Definition strncasecmp_eq0 (a b : bytes) : bool :=
  bytes_eqb (map tolower a) (map tolower b).

(** ** HTTP response parser (http_client.cc) *)

Module Parser.

(** What [throw] carries out of [feed]. *)
Inductive Exception :=
| MLException (what : string)
| AntoiFailure.

#[global] Instance Exception_eq_dec : EqDecision Exception.
Proof. solve_decision. Defined.

Inductive callback :=
| OnResponseStart (httpVersion : bytes) (code : Z)
| OnHeader (data : bytes)
| OnData (data : bytes)
| OnDone.

#[global] Instance callback_eq_dec : EqDecision callback.
Proof. solve_decision. Defined.

(** [state_] only ever holds 0, 1 or 2. *)
Inductive State :=
| STATUS_LINE  (* state_ == 0 *)
| HEADERS      (* state_ == 1 *)
| BODY.        (* state_ == 2 *)

#[global] Instance State_eq_dec : EqDecision State.
Proof. solve_decision. Defined.

Record HttpResponseParser := mkParser {
  state_ : State;
  buffer_ : bytes;
  remainingBody_ : N  (* uint64_t *)
}.

#[global] Instance HttpResponseParser_eq_dec : EqDecision HttpResponseParser.
Proof. solve_decision. Defined.

Definition set_state (p : HttpResponseParser) (s : State) :=
  mkParser s (buffer_ p) (remainingBody_ p).
Definition set_buffer (p : HttpResponseParser) (b : bytes) :=
  mkParser (state_ p) b (remainingBody_ p).
Definition set_remainingBody (p : HttpResponseParser) (n : N) :=
  mkParser (state_ p) (buffer_ p) n.

(** [clear()] *)
Definition clear : HttpResponseParser := mkParser STATUS_LINE [] 0.

(** The conversion of an [int] to [uint64_t]. *)
Definition uint64 (z : Z) : N := Z.to_N (z mod 2 ^ 64).

Inductive outcome :=
| Returned
| Threw (e : Exception)
| Diverged.  (* the fuel of the loop ran out; see [feed_returns] *)

#[global] Instance outcome_eq_dec : EqDecision outcome.
Proof. solve_decision. Defined.

Record result := mkResult {
  parser : HttpResponseParser;
  callbacks : list callback;
  exit : outcome
}.

#[global] Instance result_eq_dec : EqDecision result.
Proof. solve_decision. Defined.

(** Callbacks [cbs] were invoked before the rest of the run [r]. *)
Definition emit (cbs : list callback) (r : result) : result :=
  mkResult (parser r) (cbs ++ callbacks r) (exit r).

Definition throw (what : string) (p : HttpResponseParser) : result :=
  mkResult p [] (Threw (MLException what)).

Definition ret (p : HttpResponseParser) : result := mkResult p [] Returned.

(** The lambda [skipToChar] of [feed], started at [ptr] with [rest] the
    bytes from [ptr] on: [inr (found, ptr')] or the exception. *)
Fixpoint skipToChar_from (c : ascii) (throwOnEol : bool) (rest : bytes) (ptr : nat)
  : Exception + (bool * nat) :=
  match rest with
  | [] => inr (false, ptr)
  | x :: rest' =>
      if Ascii.eqb x c then inr (true, ptr)
      else if throwOnEol && (Ascii.eqb x CR || Ascii.eqb x LF)
      then inl (MLException "unexpected end of line")
      else skipToChar_from c throwOnEol rest' (S ptr)
  end.

Definition skipToChar (c : ascii) (throwOnEol : bool) (data : bytes) (ptr : nat) :=
  skipToChar_from c throwOnEol (drop ptr data) ptr.

Section WithAntoi.

(** [ML::antoi(start, end)] of jml/utils/string_functions.h, which is not part
    of this repository: the integer read from the bytes of the range, [None]
    when it throws. *)
Variable antoi : bytes -> option Z.

(** *** handleHeader *)

(** The lambda [skipChar]: skip every leading [c]. *)
Fixpoint skipChar_from (c : ascii) (rest : bytes) (ptr : nat) : nat :=
  match rest with
  | x :: rest' => if Ascii.eqb x c then skipChar_from c rest' (S ptr) else ptr
  | [] => ptr
  end.

Definition skipChar (c : ascii) (data : bytes) (ptr : nat) : nat :=
  skipChar_from c (drop ptr data) ptr.

(** The lambda [skipToChar] of [handleHeader] (it never throws). *)
Definition hSkipToChar (c : ascii) (data : bytes) (ptr : nat) : nat :=
  match skipToChar c false data ptr with
  | inr (_, ptr') => ptr'
  | inl _ => ptr
  end.

(** The lambda [matchString] at [ptr]. *)
Definition matchString (data : bytes) (ptr : nat) (testString : bytes) : bool :=
  (ptr + length testString <=? length data)
  && strncasecmp_eq0 (range data ptr (ptr + length testString)) testString.

Definition handleHeader (p : HttpResponseParser) (data : bytes) : result :=
  if matchString data 0 (str "Content-Length") then
    let ptr := 14 in
    let ptr := skipChar SP data ptr in
    let ptr := hSkipToChar ":" data ptr in
    let ptr := S ptr in
    let ptr := skipChar SP data ptr in
    match antoi (drop ptr data) with
    | None => mkResult p [] (Threw AntoiFailure)
    | Some n => mkResult (set_remainingBody p (uint64 n)) [OnHeader data] Returned
    end
  else mkResult p [OnHeader data] Returned.

(** *** feed *)

(** One turn of the [while (true)] loop either goes round again or leaves
    [feed]. *)
Inductive turn :=
| Again (p : HttpResponseParser) (ptr : nat) (cbs : list callback)
| Leave (r : result).

(** [if (!fromBuffer) buffer_.assign(data + ptr, dataSize - ptr); return;] *)
Definition stashUnlessFromBuffer (fromBuffer : bool) (data : bytes)
    (p : HttpResponseParser) (ptr : nat) : result :=
  ret (if fromBuffer then p else set_buffer p (drop ptr data)).

(** [if (headerPtr > 0 || !fromBuffer) buffer_.assign(data + headerPtr, ...); return;] *)
Definition stashHeader (fromBuffer : bool) (data : bytes)
    (p : HttpResponseParser) (headerPtr : nat) : result :=
  ret (if (0 <? headerPtr) || negb fromBuffer
       then set_buffer p (drop headerPtr data) else p).

(** [if (fromBuffer) buffer_.clear(); return;] *)
Definition clearIfFromBuffer (fromBuffer : bool) (p : HttpResponseParser) : result :=
  ret (if fromBuffer then set_buffer p [] else p).

(** The branch [state_ == 0]: the status line. *)
Definition statusLine (fromBuffer : bool) (data : bytes)
    (p : HttpResponseParser) (ptr : nat) : turn :=
  let dataSize := length data in
  if dataSize - ptr <? 16 then Leave (stashUnlessFromBuffer fromBuffer data p ptr)
  else if negb (bytes_eqb (range data ptr (ptr + 5)) (str "HTTP/"))
  then Leave (throw "version must start with 'HTTP/'" p)
  else
    let ptr := ptr + 5 in
    match skipToChar SP true data ptr with
    | inl e => Leave (mkResult p [] (Threw e))
    | inr (false, _) => Leave (throw "version too long" p)
    | inr (true, ptr) =>
        let versionEnd := ptr in
        let ptr := S ptr in
        let codeStart := ptr in
        match skipToChar SP true data ptr with
        | inl e => Leave (mkResult p [] (Threw e))
        | inr (false, _) => Leave (throw "code too long" p)
        | inr (true, ptr) =>
            let codeEnd := ptr in
            match antoi (range data codeStart codeEnd) with
            | None => Leave (mkResult p [] (Threw AntoiFailure))
            | Some code =>
                match skipToChar CR false data ptr with
                | inl e => Leave (mkResult p [] (Threw e))
                | inr (false, ptr) =>
                    Leave (stashUnlessFromBuffer fromBuffer data p ptr)
                | inr (true, ptr) =>
                    let ptr := S ptr in
                    if ptr =? dataSize then Leave (ret p)
                    else if negb (Ascii.eqb (at_ data ptr) LF)
                    then Leave (throw "expected \n" p)
                    else
                      let ptr := S ptr in
                      let cb := OnResponseStart (take versionEnd data) code in
                      let p := set_state p HEADERS in
                      if ptr =? dataSize
                      then Leave (emit [cb] (ret (set_buffer p [])))
                      else Again p ptr [cb]
                end
            end
        end
    end.

(** The inner loop [while (data[ptr] != '\r')] of the branch [state_ == 1]:
    [Again] when the loop condition fails (the blank line is reached). *)
Fixpoint headerLines (fuel : nat) (fromBuffer : bool) (data : bytes)
    (p : HttpResponseParser) (ptr : nat) : turn :=
  if Ascii.eqb (at_ data ptr) CR then Again p ptr []
  else
    match fuel with
    | O => Leave (mkResult p [] Diverged)
    | S fuel =>
        let dataSize := length data in
        let headerPtr := ptr in
        match skipToChar ":" true data ptr with
        | inl e => Leave (mkResult p [] (Threw e))
        | inr (false, _) => Leave (stashHeader fromBuffer data p headerPtr)
        | inr (true, ptr) =>
            match skipToChar CR false data ptr with
            | inl e => Leave (mkResult p [] (Threw e))
            | inr (false, _) => Leave (stashHeader fromBuffer data p headerPtr)
            | inr (true, ptr) =>
                let ptr := S ptr in
                if ptr =? dataSize
                then Leave (stashHeader fromBuffer data p headerPtr)
                else if negb (Ascii.eqb (at_ data ptr) LF)
                then Leave (throw "expected \n" p)
                else
                  let ptr := S ptr in
                  let h := handleHeader p (range data headerPtr (ptr - 2)) in
                  match exit h with
                  | Returned =>
                      if ptr =? dataSize
                      then Leave (emit (callbacks h)
                                    (clearIfFromBuffer fromBuffer (parser h)))
                      else
                        match headerLines fuel fromBuffer data (parser h) ptr with
                        | Again p' ptr' cbs => Again p' ptr' (callbacks h ++ cbs)
                        | Leave r => Leave (emit (callbacks h) r)
                        end
                  | _ => Leave h
                  end
            end
        end
    end.

(** The branch [state_ == 1]: header lines, then the blank line. *)
Definition headers (fromBuffer : bool) (data : bytes)
    (p : HttpResponseParser) (ptr : nat) : turn :=
  let dataSize := length data in
  match headerLines dataSize fromBuffer data p ptr with
  | Leave r => Leave r
  | Again p ptr cbs =>
      if ptr + 1 =? dataSize
      then Leave (emit cbs (ret (set_buffer p (drop ptr data))))
      else
        let ptr := S ptr in
        if negb (Ascii.eqb (at_ data ptr) LF)
        then Leave (emit cbs (throw "expected \n" p))
        else
          let ptr := S ptr in
          let '(p, done) :=
            if (remainingBody_ p =? 0)%N
            then (set_state p STATUS_LINE, [OnDone])
            else (set_state p BODY, []) in
          if dataSize =? 0
          then Leave (emit (cbs ++ done) (clearIfFromBuffer fromBuffer p))
          else Again p ptr (cbs ++ done)
  end.

(** The branch [state_ == 2]: the body. *)
Definition body (data : bytes) (p : HttpResponseParser) (ptr : nat) : turn :=
  let dataSize := length data in
  let chunkSize := N.to_nat (N.min (N.of_nat (dataSize - ptr)) (remainingBody_ p)) in
  let cb := OnData (range data ptr (ptr + chunkSize)) in
  let ptr := ptr + chunkSize in
  let p := set_remainingBody p (remainingBody_ p - N.of_nat chunkSize) in
  if (remainingBody_ p =? 0)%N
  then Again (set_state p STATUS_LINE) ptr [cb; OnDone]
  else Again p ptr [cb].

(** The loop [while (true)] of [feed]. *)
Fixpoint feedLoop (fuel : nat) (fromBuffer : bool) (data : bytes)
    (p : HttpResponseParser) (ptr : nat) : result :=
  match fuel with
  | O => mkResult p [] Diverged
  | S fuel =>
      if ptr =? length data then clearIfFromBuffer fromBuffer p
      else
        let t :=
          match state_ p with
          | STATUS_LINE => statusLine fromBuffer data p ptr
          | HEADERS => headers fromBuffer data p ptr
          | BODY => body data p ptr
          end in
        match t with
        | Leave r => r
        | Again p' ptr' cbs => emit cbs (feedLoop fuel fromBuffer data p' ptr')
        end
  end.

(** Turns of the loop that [feed] can need on [data]. *)
Definition feedFuel (data : bytes) : nat := 2 * length data + 2.

(** [feed(bufferData, bufferSize)] *)
Definition feed (p : HttpResponseParser) (bufferData : bytes) : result :=
  if 0 <? length (buffer_ p) then
    let p := set_buffer p (buffer_ p ++ bufferData) in
    feedLoop (feedFuel (buffer_ p)) true (buffer_ p) p 0
  else feedLoop (feedFuel bufferData) false bufferData p 0.

(** [feed] once per chunk, in order; a call that throws ends the run. *)
Fixpoint feedAll (p : HttpResponseParser) (chunks : list bytes) : result :=
  match chunks with
  | [] => ret p
  | c :: chunks' =>
      let r := feed p c in
      match exit r with
      | Returned => emit (callbacks r) (feedAll (parser r) chunks')
      | _ => r
      end
  end.

End WithAntoi.

(** Modelled from the spec: [ML::antoi] lives in jml, outside this
    repository; the spec says the status code is "parsed as ASCII decimal".
    Anything but a decimal digit makes it throw. *)
Fixpoint antoi_acc (acc : Z) (s : bytes) : option Z :=
  match s with
  | [] => Some acc
  | c :: s' =>
      let n := nat_of_ascii c in
      if (48 <=? n) && (n <=? 57)
      then antoi_acc (acc * 10 + Z.of_nat (n - 48))%Z s'
      else None
  end.

Definition antoi_decimal (s : bytes) : option Z := antoi_acc 0%Z s.

End Parser.

(** ** TCP client socket (tcp_socket.cc) *)

Module TcpSocket.

Inductive ClientTcpSocketState :=
| DISCONNECTED
| CONNECTING
| CONNECTED
| DISCONNECTING.

#[global] Instance ClientTcpSocketState_eq_dec : EqDecision ClientTcpSocketState.
Proof. solve_decision. Defined.

(** Modelled from the spec: the type of [threadBuffer_], a ring buffer of
    jml, is declared in tcp_socket.h; neither is among the sources. The spec
    calls it the outbound bounded queue, of "a fixed capacity configured at
    construction". [tryPush] fails exactly when the queue is full. *)
Record RingBuffer := mkRing {
  capacity : nat;
  items : list string
}.

Definition full (b : RingBuffer) : bool := capacity b <=? length (items b).

Definition tryPush (b : RingBuffer) (msg : string) : RingBuffer * bool :=
  if full b then (b, false) else (mkRing (capacity b) (items b ++ [msg]), true).

Record ClientTcpSocket := mkSocket {
  state_ : ClientTcpSocketState;
  threadBuffer_ : RingBuffer;
  remainingMsgs_ : nat;
  wakeupSignals : nat  (* number of [wakeup_.signal()] performed so far *)
}.

(** [canSendMessages()] *)
Definition canSendMessages (s : ClientTcpSocket) : bool :=
  bool_decide (state_ s = CONNECTED) || bool_decide (state_ s = CONNECTING).

Inductive writeResult :=
| WriteReturns (result : bool)
| WriteThrows (what : string).

(** [write(string && data)] *)
Definition write (s : ClientTcpSocket) (data : string) : ClientTcpSocket * writeResult :=
  if canSendMessages s then
    let '(buf, pushed) := tryPush (threadBuffer_ s) data in
    if pushed
    then (mkSocket (state_ s) buf (S (remainingMsgs_ s)) (S (wakeupSignals s)),
          WriteReturns true)
    else (s, WriteReturns false)
  else (s, WriteThrows "cannot write while not connected").

End TcpSocket.

(** ** Closing and failed connections of the TCP client socket
       (tcp_socket.cc) *)

Module TcpSocketClose.
Import TcpSocket.

(** [requestClose()] *)
Definition requestClose (s : ClientTcpSocket) : ClientTcpSocket :=
  if canSendMessages s
  then mkSocket DISCONNECTING (threadBuffer_ s) (remainingMsgs_ s) (S (wakeupSignals s))
  else s.

(** Modelled from the spec: [tryPop] of the ring buffer of jml, which is not
    among the sources; the spec's "outbound bounded queue of messages" gives
    back the oldest message first, and fails when there is none. *)
Definition tryPop (b : RingBuffer) : RingBuffer * option string :=
  match items b with
  | [] => (b, None)
  | msg :: rest => (mkRing (capacity b) rest, Some msg)
  end.

(** The loop [while (threadBuffer_.tryPop(lostMessage))] of
    [handleConnectionResult]; the queue holds [fuel] messages at most. *)
Fixpoint popAll (fuel : nat) (b : RingBuffer) (lostMessages : list string)
  : RingBuffer * list string :=
  match fuel with
  | 0 => (b, lostMessages)
  | S fuel =>
      match tryPop b with
      | (b, Some lostMessage) => popAll fuel b (lostMessages ++ [lostMessage])
      | (b, None) => (b, lostMessages)
      end
  end.

Inductive ConnectionResult := SUCCESS | HOST_UNKNOWN.

Inductive connectionOutcome :=
| Reports (result : ConnectionResult) (lostMessages : list string) (s : ClientTcpSocket)
| ConnThrows (what : string) (s : ClientTcpSocket).

Section WithErrno.

(** The number of the error [ENETUNREACH] and [to_string] on [int32_t]. *)
Variable ENETUNREACH : Z.
Variable to_string : Z → string.

(** [handleConnectionResult()]: [res] and [result] are what [getsockopt]
    returns and stores, [errnoText] is the text of
    [ML::Exception(errno, "getsockopt")], and [removeFd] is [Some what] when
    [removeFd(socket_)] throws. [onConnectionResult(connResult,
    lostMessages)] is the report. *)
Definition handleConnectionResult (s : ClientTcpSocket) (res result : Z)
    (errnoText : string) (removeFd : option string) : connectionOutcome :=
  if (res =? -1)%Z then ConnThrows errnoText s
  else if (result =? 0)%Z then
    Reports SUCCESS []
      (mkSocket CONNECTED (threadBuffer_ s) (remainingMsgs_ s) (wakeupSignals s))
  else if (result =? ENETUNREACH)%Z then
    match removeFd with
    | Some what => ConnThrows what s
    | None =>
        let '(b, lostMessages) :=
          popAll (S (length (items (threadBuffer_ s)))) (threadBuffer_ s) [] in
        Reports HOST_UNKNOWN lostMessages
          (mkSocket DISCONNECTED b 0 (wakeupSignals s))
    end
  else ConnThrows ("unhandled error:" +:+ to_string result) s.

End WithErrno.

(** [write] for each message in turn, with the messages for which it
    returned [true]; a [write] that throws ends the writing. *)
Fixpoint writeAll (s : ClientTcpSocket) (msgs : list string)
  : ClientTcpSocket * list string * option string :=
  match msgs with
  | [] => (s, [], None)
  | msg :: msgs =>
      match write s msg with
      | (s, WriteReturns result) =>
          let '(s, accepted, thrown) := writeAll s msgs in
          (s, (if result then [msg] else []) ++ accepted, thrown)
      | (s, WriteThrows what) => (s, [], Some what)
      end
  end.

End TcpSocketClose.

(** ** Pooled HTTP client (http_client.cc) *)

Module HttpClient.
Import TcpSocket TcpSocketClose.

(** An outbound request: the verb, the URL, and the text that
    [makeRequestStr] leaves in [requestStr_]. The pool never looks inside. *)
Record HttpRequest := mkRequest {
  verb_ : string;
  url_ : string;
  requestStr_ : string
}.

#[global] Instance HttpRequest_eq_dec : EqDecision HttpRequest.
Proof. solve_decision. Defined.

Inductive HttpResponseState := IDLE | HEADERS | BODY.

#[global] Instance HttpResponseState_eq_dec : EqDecision HttpResponseState.
Proof. solve_decision. Defined.

(** An [HttpConnection] is a [ClientTcpSocket]: the socket, the address
    that [init] has set, and the fields of the connection that the pool
    depends on. *)
Record HttpConnection := mkConn {
  socket : ClientTcpSocket;
  address_ : string;
  responseState_ : HttpResponseState;
  request_ : option HttpRequest  (* [None] after [request_.clear()] *)
}.

Definition set_socket (conn : HttpConnection) (s : ClientTcpSocket) : HttpConnection :=
  mkConn s (address_ conn) (responseState_ conn) (request_ conn).

Definition set_socket_state (conn : HttpConnection) (st : ClientTcpSocketState)
  : HttpConnection :=
  set_socket conn
    (mkSocket st (threadBuffer_ (socket conn)) (remainingMsgs_ (socket conn))
       (wakeupSignals (socket conn))).

(** [HttpConnection::clear()] *)
Definition clear (conn : HttpConnection) : HttpConnection :=
  mkConn (socket conn) (address_ conn) IDLE None.

(** A pointer [&connectionStash_[i]] is the index [i]. *)
Record HttpClient := mkClient {
  connectionStash_ : list HttpConnection;
  avlConnections_ : list nat;
  nextAvail_ : nat;
  inThreadQueue_ : list HttpRequest
}.

Definition set_connection (c : HttpClient) (i : nat) (conn : HttpConnection)
  : HttpClient :=
  mkClient (<[i := conn]> (connectionStash_ c)) (avlConnections_ c) (nextAvail_ c)
    (inThreadQueue_ c).

Definition set_queue (c : HttpClient) (queue : list HttpRequest) : HttpClient :=
  mkClient (connectionStash_ c) (avlConnections_ c) (nextAvail_ c) queue.

(** A connection as its constructor and [init(baseUrl)] leave it; [address]
    is the host of the URL and [bufferSize] the capacity of the socket's
    queue. *)
Definition newConnection (address : string) (bufferSize : nat) : HttpConnection :=
  mkConn (mkSocket DISCONNECTED (mkRing bufferSize []) 0 0) address IDLE None.

(** The constructor, for [numParallel] connections. *)
Definition newClient (numParallel : nat) (address : string) (bufferSize : nat)
  : HttpClient :=
  mkClient (replicate numParallel (newConnection address bufferSize))
    (seq 0 numParallel) 0 [].

(** [getConnection()]: the connection handed out, if any. *)
Definition getConnection (c : HttpClient) : HttpClient * option nat :=
  if nextAvail_ c <? length (avlConnections_ c) then
    (mkClient (connectionStash_ c) (avlConnections_ c) (S (nextAvail_ c))
       (inThreadQueue_ c),
     avlConnections_ c !! nextAvail_ c)
  else (c, None).

(** [releaseConnection(oldConnection)] *)
Definition releaseConnection (c : HttpClient) (oldConnection : nat) : HttpClient :=
  if 0 <? nextAvail_ c then
    let nextAvail := nextAvail_ c - 1 in
    mkClient (connectionStash_ c) (<[nextAvail := oldConnection]> (avlConnections_ c))
      nextAvail (inThreadQueue_ c)
  else c.

(** What the system answers to one call of [connect()]. *)
Inductive connectAnswer :=
| SocketFails (what : string)
    (* [::socket] returns -1: [ML::Exception(errno, "socket")] *)
| FailsAtOnce (code : Z)
    (* the host is not found, or [::connect] fails with an error other than
       [EINPROGRESS]: [onConnectionResult(result, {})] is called before
       [connect()] returns; [code] is [result] as an [int] *)
| InProgress (addFd : option string)
    (* [EINPROGRESS]; [addFd] is what [addFdOneShot] throws, if it does *)
| Established (addFd : option string).
    (* [::connect] returns 0 *)

(** How a call ends. *)
Inductive ending :=
| Returns
| Throws (what : string)
| Aborts       (* [abort()] *)
| Undefined    (* [pop_front()] on an empty list, or a null connection *)
| Unanswered.  (* [connect()] is called and no answer is left *)

(** The pool after a call, the calls of [request_.callbacks().onDone(request_,
    code)] made so far, and how the call ended. *)
Record run := mkRun {
  pool : HttpClient;
  notified : list (option HttpRequest * Z);
  end_ : ending
}.

(** [write(request_.requestStr())]; the result of [write] is dropped. *)
Definition writeRequest (conn : HttpConnection) (rq : HttpRequest)
  : HttpConnection * ending :=
  match write (socket conn) (requestStr_ rq) with
  | (s, WriteReturns _) => (set_socket conn s, Returns)
  | (_, WriteThrows what) => (conn, Throws what)
  end.

Definition addFdOneShot (addFd : option string) : ending :=
  match addFd with
  | None => Returns
  | Some what => Throws what
  end.

Section WithMove.

(** [std::move] leaves the request it takes from in a state that
    http_client.h, which is not among the sources, decides. *)
Variable movedFrom : HttpRequest → HttpRequest.

Section Nested.

(** The calls of [perform] made while a call of [connect()] is running are
    answered from the answers that are left. *)
Variable performNested :
  HttpClient → nat → HttpRequest → list (option HttpRequest * Z) → run.

(** [handleHttpConnectionDone(connection, result)]: [perform] takes the
    front request by [move], and the front is popped when [perform] has
    returned. *)
Definition handleHttpConnectionDone_in (c : HttpClient) (i : nat)
    (log : list (option HttpRequest * Z)) : run :=
  match inThreadQueue_ c with
  | front :: queue =>
      let r := performNested (set_queue c (movedFrom front :: queue)) i front log in
      match end_ r with
      | Returns =>
          match inThreadQueue_ (pool r) with
          | _ :: queue' => mkRun (set_queue (pool r) queue') (notified r) Returns
          | [] => mkRun (pool r) (notified r) Undefined
          end
      | _ => r
      end
  | [] => mkRun (releaseConnection c i) log Returns
  end.

(** [HttpConnection::handleEndOfRq(code)] of the stash entry [i], whose
    [onDone] is [handleHttpConnectionDone]. *)
Definition handleEndOfRq_in (c : HttpClient) (i : nat) (code : Z)
    (log : list (option HttpRequest * Z)) : run :=
  match connectionStash_ c !! i with
  | None => mkRun c log Undefined
  | Some conn =>
      let conn :=
        if (code =? 0)%Z then conn else set_socket conn (requestClose (socket conn)) in
      let log := log ++ [(request_ conn, code)] in
      let conn := clear conn in
      handleHttpConnectionDone_in (set_connection c i conn) i log
  end.

(** The guard of [connect()], with [success] false: the socket is closed
    and [state_] becomes [DISCONNECTED]. [abort()] does not unwind. *)
Definition cleanup (i : nat) (r : run) : run :=
  match end_ r with
  | Returns | Throws _ =>
      match connectionStash_ (pool r) !! i with
      | Some conn =>
          mkRun (set_connection (pool r) i (set_socket_state conn DISCONNECTED))
            (notified r) (end_ r)
      | None => r
      end
  | _ => r
  end.

(** [connect()] of the stash entry [i], which holds [rq]; [answer] is the
    system's. [HttpConnection::onConnectionResult] writes the request when
    the result is [SUCCESS] and ends it otherwise. *)
Definition connect (answer : option connectAnswer) (c : HttpClient) (i : nat)
    (rq : HttpRequest) (log : list (option HttpRequest * Z)) : run :=
  match connectionStash_ c !! i with
  | None => mkRun c log Undefined
  | Some conn =>
      if bool_decide (address_ conn = ""%string)
      then mkRun c log (Throws "no address set")
      else if canSendMessages (socket conn)
      then mkRun c log (Throws "connection already pending or established")
      else
        let conn := set_socket_state conn CONNECTING in
        let c := set_connection c i conn in
        match answer with
        | None => mkRun c log Unanswered
        | Some (SocketFails what) => mkRun c log (Throws what)
        | Some (FailsAtOnce code) => cleanup i (handleEndOfRq_in c i code log)
        | Some (InProgress addFd) => mkRun c log (addFdOneShot addFd)
        | Some (Established addFd) =>
            match writeRequest conn rq with
            | (conn, Returns) =>
                mkRun (set_connection c i (set_socket_state conn CONNECTED)) log
                  (addFdOneShot addFd)
            | (_, e) => cleanup i (mkRun c log e)
            end
        end
  end.

(** [conn->perform(move(request))] on the stash entry [i]. *)
Definition perform (answer : option connectAnswer) (c : HttpClient) (i : nat)
    (rq : HttpRequest) (log : list (option HttpRequest * Z)) : run :=
  match connectionStash_ c !! i with
  | None => mkRun c log Undefined
  | Some conn =>
      if bool_decide (responseState_ conn = IDLE) then
        let conn := mkConn (socket conn) (address_ conn) HEADERS (Some rq) in
        if canSendMessages (socket conn) then
          let '(conn, e) := writeRequest conn rq in
          mkRun (set_connection c i conn) log e
        else connect answer (set_connection c i conn) i rq log
      else mkRun c log Aborts
  end.

End Nested.

(** [perform] with the answers of the system to the calls of [connect()]
    that it leads to, in order. *)
Fixpoint performOn (answers : list connectAnswer) (c : HttpClient) (i : nat)
    (rq : HttpRequest) (log : list (option HttpRequest * Z)) : run :=
  match answers with
  | [] => perform (λ c _ _ log, mkRun c log Unanswered) None c i rq log
  | answer :: answers => perform (performOn answers) (Some answer) c i rq log
  end.

(** [handleQueueEvent(request)] *)
Definition handleQueueEvent (answers : list connectAnswer) (c : HttpClient)
    (rq : HttpRequest) : run :=
  if nextAvail_ c <? length (avlConnections_ c) then
    let '(c', conn) := getConnection c in
    match conn with
    | Some i => performOn answers c' i rq []
    | None => mkRun c' [] Undefined
    end
  else mkRun (set_queue c (inThreadQueue_ c ++ [rq])) [] Returns.

(** [handleHttpConnectionDone(connection, result)] *)
Definition handleHttpConnectionDone (answers : list connectAnswer) (c : HttpClient)
    (i : nat) : run :=
  handleHttpConnectionDone_in (performOn answers) c i [].

(** [HttpConnection::handleEndOfRq(code)] of the stash entry [i]: from
    [onParserDone] with [code] 0, from [onConnectionResult] with the result
    of a connection that failed. *)
Definition handleEndOfRq (answers : list connectAnswer) (c : HttpClient) (i : nat)
    (code : Z) : run :=
  handleEndOfRq_in (performOn answers) c i code [].

End WithMove.

(** [HttpConnection::onWriteResult] of the stash entry [i] moves its upload
    state; which state it reaches depends on the request's content. *)
Definition uploadProgress (c : HttpClient) (i : nat) (s : HttpResponseState) : HttpClient :=
  match connectionStash_ c !! i with
  | Some conn =>
      set_connection c i (mkConn (socket conn) (address_ conn) s (request_ conn))
  | None => c
  end.

(** The socket of the stash entry [i] moves on: a connection is
    established or lost, messages are sent. *)
Definition socketProgress (c : HttpClient) (i : nat) (s : ClientTcpSocket) : HttpClient :=
  match connectionStash_ c !! i with
  | Some conn => set_connection c i (set_socket conn s)
  | None => c
  end.

(** A connection is busy while it holds a request. *)
Definition busy (conn : HttpConnection) : bool := bool_decide (request_ conn ≠ None).

Definition busyConnections (c : HttpClient) : list HttpConnection :=
  filter (λ conn, busy conn = true) (connectionStash_ c).

(** The idle stack: the entries of [avlConnections_] from [nextAvail_] on. *)
Definition idleStack (c : HttpClient) : list nat := drop (nextAvail_ c) (avlConnections_ c).

(** An answer of the system after which [connect()] returns with the
    connection under way. *)
Definition underWay (answer : connectAnswer) : Prop :=
  answer = InProgress None ∨ answer = Established None.

Section Reachable.
Variable movedFrom : HttpRequest → HttpRequest.

(** The operations of the pool, as the message loop delivers them, while
    every call of [connect()] gets under way. A connection reports the end
    of a request, or upload progress, only while it holds one. *)
Inductive step : HttpClient → HttpClient → Prop :=
| step_queue c rq answers c' log :
    Forall underWay answers →
    handleQueueEvent movedFrom answers c rq = mkRun c' log Returns → step c c'
| step_done c i conn code answers c' log :
    connectionStash_ c !! i = Some conn → busy conn = true →
    Forall underWay answers →
    handleEndOfRq movedFrom answers c i code = mkRun c' log Returns → step c c'
| step_upload c i conn s :
    connectionStash_ c !! i = Some conn → busy conn = true →
    step c (uploadProgress c i s)
| step_socket c i s :
    step c (socketProgress c i s).

Inductive reachable (numParallel : nat) : HttpClient → Prop :=
| reachable_new address bufferSize :
    address ≠ ""%string →
    reachable numParallel (newClient numParallel address bufferSize)
| reachable_step c c' : reachable numParallel c → step c c' → reachable numParallel c'.

End Reachable.

End HttpClient.

(** ** REST request router (rest_request_router.h, rest_request_router.cc) *)

Module Router.

(** [std::string(s, pos)]: the suffix of [s] from [pos] on. *)
Definition string_from (s : string) (pos : nat) : string :=
  substring pos (String.length s - pos) s.

(** *** std::set<std::string>

    The order in which a [std::set] is walked is observable ([getVerbsStr],
    the order of the parameter filters), so a set is its sorted list of
    distinct elements. *)
Abbreviation StringSet := (list string).

Fixpoint set_insert (v : string) (s : StringSet) : StringSet :=
  match s with
  | [] => [v]
  | x :: s' =>
      match String.compare v x with
      | Lt => v :: s
      | Eq => s
      | Gt => x :: set_insert v s'
      end
  end.

(** [s.insert(first, last)], also the construction from a list. *)
Definition set_insert_all (vs : list string) (s : StringSet) : StringSet :=
  fold_left (λ acc v, set_insert v acc) vs s.

Definition set_of (vs : list string) : StringSet := set_insert_all vs [].

(** [s.count(v)] as a truth value. *)
Definition set_count (v : string) (s : StringSet) : bool := existsb (String.eqb v) s.

Definition set_empty (s : StringSet) : bool :=
  match s with [] => true | _ => false end.

(** *** PathSpec *)

Inductive PathSpecType := NONE | STRING | REGEX.

(** A [boost::smatch] filled by a successful [regex_search]:
    [results.prefix()] and the sub-matches [results[i]] as strings (an
    unmatched group converts to the empty string). *)
Record smatch := mkSmatch {
  m_prefix : string;
  m_subs : list string
}.

(** [boost::regex] is an external library. A compiled expression is what
    the router uses of it, [mark_count()] and [regex_search], with the
    contract Boost documents for [match_results]: [size()] is
    [1 + mark_count()] and the whole match [results[0]] follows the prefix in
    the subject. *)
Record regex := mkRegex {
  mark_count : nat;
  regex_search : string → option smatch;
  regex_search_size : ∀ s m,
    regex_search s = Some m → length (m_subs m) = S mark_count;
  regex_search_position : ∀ s m,
    regex_search s = Some m →
    ∃ suffix, s = m_prefix m +:+ hd ""%string (m_subs m) +:+ suffix
}.

(** A default-constructed [boost::regex]. *)
Program Definition no_regex : regex := mkRegex 0 (λ _, None) _ _.
Solve All Obligations with discriminate.

Record PathSpec := mkPathSpec {
  type : PathSpecType;
  path : string;
  rex : regex;
  desc : string
}.

(** [PathSpec()] *)
Definition PathSpec_none : PathSpec := mkPathSpec NONE ""%string no_regex ""%string.

(** [PathSpec(fullPath)] *)
Definition PathSpec_string (fullPath : string) : PathSpec :=
  mkPathSpec STRING fullPath no_regex ""%string.

(** [Rx(regexString, desc)], given [boost::regex(regexString)]. *)
Definition Rx (regexString : string) (compiled : regex) (desc : string) : PathSpec :=
  mkPathSpec REGEX regexString compiled desc.

Definition numCapturedElements (p : PathSpec) : nat :=
  match type p with
  | NONE => 0
  | STRING => 1
  | REGEX => mark_count (rex p) + 1
  end.

(** *** RequestFilter *)

Inductive Location := QUERY | HEADER.

#[global] Instance Location_eq_dec : EqDecision Location.
Proof. solve_decision. Defined.

Record RequestParamFilter := mkParamFilter {
  location : Location;
  param : string;
  value : string
}.

#[global] Instance RequestParamFilter_eq_dec : EqDecision RequestParamFilter.
Proof. solve_decision. Defined.

Record RequestFilter := mkFilter {
  verbs : StringSet;
  filters : list RequestParamFilter
}.

(** The body of the loop of [parseVerbs] for the entry [v]. *)
Definition parseVerb (acc : StringSet * list RequestParamFilter) (v : string)
  : StringSet * list RequestParamFilter :=
  let '(newVerbs, filters) := acc in
  match index 0 "=" v with
  | None => (set_insert v newVerbs, filters)
  | Some i =>
      let key := substring 0 i v in
      let value := string_from v (i + 1) in
      let '(location, key) :=
        match index 0 "header:" key with
        | Some 0 => (HEADER, string_from key 7)
        | _ => (QUERY, key)
        end in
      (newVerbs, filters ++ [mkParamFilter location key value])
  end.

(** [parseVerbs()]: its last statement is [newVerbs = verbs;], an assignment
    to the local set, so [verbs] keeps every entry. *)
Definition parseVerbs (f : RequestFilter) : RequestFilter :=
  let '(newVerbs, filters) := fold_left parseVerb (verbs f) ([], filters f) in
  let newVerbs := verbs f in
  mkFilter (verbs f) filters.

(** [RequestFilter()] *)
Definition RequestFilter_none : RequestFilter := mkFilter [] [].

(** [RequestFilter(verb)] *)
Definition RequestFilter_verb (verb : string) : RequestFilter :=
  parseVerbs (mkFilter (set_insert verb []) []).

(** [RequestFilter(verbs)], from a set or an initializer list. *)
Definition RequestFilter_verbs (verbs : list string) : RequestFilter :=
  parseVerbs (mkFilter (set_of verbs) []).

(** *** RestRequest, RestConnection *)

(** What the router reads of a request; [tryGetHeader] is the lookup of
    [request.header] (http_header.h is not part of this repository). *)
Record RestRequest := mkRequest {
  verb : string;
  resource : string;
  params : list (string * string);
  tryGetHeader : string → string
}.

Inductive Body :=
| BodyText (text : string)
| BodyHelp.  (* [help.toStyledString()]; the JSON help is not modelled *)

Inductive Response :=
| HttpResponse (responseCode : Z) (response : Body) (contentType : string)
    (headers : list (string * string))
| ErrorResponse (responseCode : Z) (error : string)
| OtherResponse (responseCode : Z) (response : string).

(** Modelled from the spec: [RestConnection] (rest_connection.h) is not
    among the sources. A connection is the responses emitted on it so far,
    and [responseSent()] "is the authoritative check" that one was. *)
Abbreviation RestConnection := (list Response).

Definition sendHttpResponse (c : RestConnection) (code : Z) (response : Body)
    (contentType : string) (headers : list (string * string)) : RestConnection :=
  c ++ [HttpResponse code response contentType headers].

Definition sendErrorResponse (c : RestConnection) (code : Z) (error : string)
  : RestConnection :=
  c ++ [ErrorResponse code error].

Definition responseSent (c : RestConnection) : bool :=
  match c with [] => false | _ => true end.

(** *** RestRequestParsingContext *)

Record ObjectEntry := mkObject {
  obj : N;      (* [void *] *)
  type_ : string  (* [std::type_info] *)
}.

Record RestRequestParsingContext := mkContext {
  resources : list string;
  objects : list ObjectEntry;
  remaining : string
}.

(** [RestRequestParsingContext(request)] *)
Definition newContext (request : RestRequest) : RestRequestParsingContext :=
  mkContext [] [] (resource request).

Record State := mkState {
  s_remaining : string;
  resourcesLength : nat;
  objectsLength : nat
}.

Definition saveState (c : RestRequestParsingContext) : State :=
  mkState (remaining c) (length (resources c)) (length (objects c)).

(** [restoreState(state)]: [inl c] when one of its [ExcAssertGreaterEqual]
    fails, with [c] the context at that point. *)
Definition restoreState (c : RestRequestParsingContext) (state : State)
  : RestRequestParsingContext + RestRequestParsingContext :=
  let c := mkContext (resources c) (objects c) (s_remaining state) in
  if length (resources c) <? resourcesLength state then inl c
  else
    let c := mkContext (take (resourcesLength state) (resources c)) (objects c)
               (remaining c) in
    if length (objects c) <? objectsLength state then inl c
    else inr (mkContext (resources c) (take (objectsLength state) (objects c))
                (remaining c)).

(** *** Results of the router's functions *)

Inductive exn :=
| StdException (what : string)  (* a [std::exception], [ML::Exception] included *)
| UnknownException.

(** How a call ends: it returns, it throws, or an assertion fails in the
    destructor of a [StateGuard]. *)
Inductive outcome (A : Type) :=
| Ok (a : A)
| Throws (e : exn)
| AssertFailed.
Arguments Ok {A} a.
Arguments Throws {A} e.
Arguments AssertFailed {A}.

(** The connection and the context as a call leaves them, and how it ended. *)
Record run (A : Type) := mkRun {
  r_conn : RestConnection;
  r_ctx : RestRequestParsingContext;
  r_out : outcome A
}.
Arguments mkRun {A} r_conn r_ctx r_out.
Arguments r_conn {A} r.
Arguments r_ctx {A} r.
Arguments r_out {A} r.

Inductive MatchResult := MR_NO | MR_YES | MR_ERROR | MR_ASYNC.

#[global] Instance MatchResult_eq_dec : EqDecision MatchResult.
Proof. solve_decision. Defined.

(** User code: both take the context by reference and may throw. *)
Definition OnProcessRequest : Type :=
  RestConnection → RestRequest → RestRequestParsingContext → run MatchResult.
Definition ExtractObject : Type :=
  RestConnection → RestRequest → RestRequestParsingContext → run unit.

(** [StateGuard guard(&context); body]: the destructor restores the context
    however [body] ends. *)
Definition withStateGuard {A} (conn : RestConnection)
    (context : RestRequestParsingContext)
    (body : RestConnection → RestRequestParsingContext → run A) : run A :=
  let state := saveState context in
  let r := body conn context in
  match r_out r with
  | AssertFailed => r
  | _ =>
      match restoreState (r_ctx r) state with
      | inr c => mkRun (r_conn r) c (r_out r)
      | inl c => mkRun (r_conn r) c AssertFailed
      end
  end.

(** *** Route::matchPath *)

Definition matchPath (p : PathSpec) (context : RestRequestParsingContext)
  : exn + (bool * RestRequestParsingContext) :=
  match type p with
  | STRING =>
      match index 0 (path p) (remaining context) with
      | Some 0 =>
          inr (true,
               mkContext (resources context ++ [path p]) (objects context)
                 (string_from (remaining context) (String.length (path p))))
      | _ => inr (false, context)
      end
  | REGEX =>
      match regex_search (rex p) (remaining context) with
      | Some results =>
          if String.eqb (m_prefix results) ""  (* !results.prefix().matched *)
          then
            inr (true,
                 mkContext (resources context ++ m_subs results) (objects context)
                   (string_from (remaining context)
                      (String.length (hd ""%string (m_subs results)))))
          else inr (false, context)
      | None => inr (false, context)
      end
  | NONE => inl (StdException "unknown rest request type")
  end.

(** *** The route tree *)

Inductive RestRequestRouter :=
| mkRouter (rootHandler : option OnProcessRequest) (subRoutes : list Route)
    (description : string) (terminal : bool)
with Route :=
| mkRoute (path : PathSpec) (filter : RequestFilter) (router : RestRequestRouter)
    (extractObject : option ExtractObject).

Definition subRoutes (r : RestRequestRouter) : list Route :=
  match r with mkRouter _ srs _ _ => srs end.
Definition rootHandler (r : RestRequestRouter) : option OnProcessRequest :=
  match r with mkRouter h _ _ _ => h end.
Definition terminal (r : RestRequestRouter) : bool :=
  match r with mkRouter _ _ _ t => t end.
Definition route_path (sr : Route) : PathSpec :=
  match sr with mkRoute p _ _ _ => p end.
Definition route_filter (sr : Route) : RequestFilter :=
  match sr with mkRoute _ f _ _ => f end.
Definition route_router (sr : Route) : RestRequestRouter :=
  match sr with mkRoute _ _ r _ => r end.
Definition route_extractObject (sr : Route) : option ExtractObject :=
  match sr with mkRoute _ _ _ e => e end.

(** [getVerbsStr(verbs)] *)
Definition getVerbsStr (verbs : StringSet) : string :=
  fold_left (λ verbsStr v,
               (if String.eqb verbsStr "" then verbsStr else verbsStr +:+ ",") +:+ v)
    verbs "".

(** Whether the parameter filter [f] matches the request. *)
Definition paramFilterMatches (request : RestRequest) (f : RequestParamFilter) : bool :=
  match location f with
  | QUERY =>
      existsb (λ p, String.eqb (fst p) (param f) && String.eqb (snd p) (value f))
        (params request)
  | HEADER => String.eqb (tryGetHeader request (param f)) (value f)
  end.

(** [PathSpec::getHelp]: the JSON value that it fills is not modelled
    (jsoncpp is an external library); what is left of it is the exception
    that it throws on a path spec of type [NONE]. *)
Definition PathSpec_getHelp (p : PathSpec) : option exn :=
  match type p with
  | NONE => Some (StdException "unknown path parameter")
  | _ => None
  end.

(** [RestRequestRouter::getHelp], which walks every sub-route below the
    router, and the body of its loop for one sub-route: the exception that
    leaves it, if one does. [RequestFilter::getHelp] throws nothing. *)
Fixpoint getHelp (r : RestRequestRouter) {struct r} : option exn :=
  match r with
  | mkRouter _ subRoutes _ _ =>
      (fix each (srs : list Route) {struct srs} : option exn :=
         match srs with
         | [] => None
         | sr :: srs' =>
             match route_getHelp sr with
             | Some e => Some e
             | None => each srs'
             end
         end) subRoutes
  end
with route_getHelp (sr : Route) {struct sr} : option exn :=
  match sr with
  | mkRoute path _ router _ =>
      match PathSpec_getHelp path with
      | Some e => Some e
      | None => getHelp router
      end
  end.

(** [RestRequestRouter::options] and [Route::options]: the verbs accepted.
    Of the JSON help that they build, the exceptions are kept: an exception
    of the help of a route that matches the path to its end leaves
    [options], through the state guard. *)
Fixpoint options (r : RestRequestRouter) (verbsAccepted : StringSet)
    (conn : RestConnection) (context : RestRequestParsingContext) {struct r}
  : run StringSet :=
  match r with
  | mkRouter _ subRoutes _ _ =>
      (fix each (srs : list Route) (verbsAccepted : StringSet)
           (context : RestRequestParsingContext) {struct srs} : run StringSet :=
         match srs with
         | [] => mkRun conn context (Ok verbsAccepted)
         | sr :: srs' =>
             let r := route_options sr verbsAccepted conn context in
             match r_out r with
             | Ok verbsAccepted => each srs' verbsAccepted (r_ctx r)
             | _ => r
             end
         end) subRoutes verbsAccepted context
  end
with route_options (sr : Route) (verbsAccepted : StringSet)
    (conn : RestConnection) (context : RestRequestParsingContext) {struct sr}
  : run StringSet :=
  match sr with
  | mkRoute path filter router _ =>
      withStateGuard conn context (λ conn context,
        match matchPath path context with
        | inl e => mkRun conn context (Throws e)
        | inr (false, context) => mkRun conn context (Ok verbsAccepted)
        | inr (true, context) =>
            if String.eqb (remaining context) "" then
              let verbsAccepted := set_insert_all (verbs filter) verbsAccepted in
              match PathSpec_getHelp path with
              | Some e => mkRun conn context (Throws e)
              | None =>
                  match getHelp router with
                  | Some e => mkRun conn context (Throws e)
                  | None => options router verbsAccepted conn context
                  end
              end
            else options router verbsAccepted conn context
        end)
  end.

(** [RestRequestRouter::processRequest] and [Route::process]. *)
Fixpoint processRequest (r : RestRequestRouter) (connection : RestConnection)
    (request : RestRequest) (context : RestRequestParsingContext) {struct r}
  : run MatchResult :=
  match r with
  | mkRouter rootHandler subRoutes _ terminal =>
      if String.eqb (verb request) "OPTIONS" then
        let o := options r [] connection context in
        match r_out o with
        | Ok verbs =>
            let headers := [("Allow", getVerbsStr verbs)] in
            mkRun
              (if set_empty verbs
               then sendHttpResponse connection 400 (BodyText "") "" headers
               else sendHttpResponse connection 200 BodyHelp "application/json" headers)
              (r_ctx o) (Ok MR_YES)
        | Throws e => mkRun (r_conn o) (r_ctx o) (Throws e)
        | AssertFailed => mkRun (r_conn o) (r_ctx o) AssertFailed
        end
      else
        let handler :=
          if negb terminal || String.eqb (remaining context) ""
          then rootHandler else None in
        match handler with
        | Some handler => handler connection request context
        | None =>
            (fix each (srs : list Route) (connection : RestConnection)
                 (context : RestRequestParsingContext) {struct srs}
               : run MatchResult :=
               match srs with
               | [] => mkRun connection context (Ok MR_NO)
               | sr :: srs' =>
                   let r := process sr request context connection in
                   match r_out r with
                   | Ok MR_NO => each srs' (r_conn r) (r_ctx r)
                   | Ok _ => r
                   | Throws (StdException what) =>
                       mkRun (sendErrorResponse (r_conn r) 500
                                ("threw exception: " +:+ what))
                         (r_ctx r) (Ok MR_YES)
                   | Throws UnknownException =>
                       mkRun (sendErrorResponse (r_conn r) 500 "unknown exception")
                         (r_ctx r) (Ok MR_YES)
                   | AssertFailed => r
                   end
               end) subRoutes connection context
        end
  end
with process (sr : Route) (request : RestRequest)
    (context : RestRequestParsingContext) (connection : RestConnection) {struct sr}
  : run MatchResult :=
  match sr with
  | mkRoute path filter router extractObject =>
      if negb (set_empty (verbs filter)) && negb (set_count (verb request) (verbs filter))
      then mkRun connection context (Ok MR_NO)
      else if negb (forallb (paramFilterMatches request) (filters filter))
      then mkRun connection context (Ok MR_NO)
      else
        withStateGuard connection context (λ connection context,
          match matchPath path context with
          | inl e => mkRun connection context (Throws e)
          | inr (false, context) => mkRun connection context (Ok MR_NO)
          | inr (true, context) =>
              let e :=
                match extractObject with
                | Some extract => extract connection request context
                | None => mkRun connection context (Ok tt)
                end in
              match r_out e with
              | Ok _ =>
                  if responseSent (r_conn e)
                  then mkRun (r_conn e) (r_ctx e) (Ok MR_YES)
                  else processRequest router (r_conn e) request (r_ctx e)
              | Throws x => mkRun (r_conn e) (r_ctx e) (Throws x)
              | AssertFailed => mkRun (r_conn e) (r_ctx e) AssertFailed
              end
          end)
  end.

(** [RestRequestRouter::handleRequest] *)
Definition handleRequest (r : RestRequestRouter) (connection : RestConnection)
    (request : RestRequest) : run MatchResult :=
  let context := newContext request in
  let res := processRequest r connection request context in
  match r_out res with
  | Ok MR_NO =>
      mkRun (sendErrorResponse (r_conn res) 404
               ("unknown resource " +:+ verb request +:+ " " +:+ resource request))
        (r_ctx res) (Ok MR_NO)
  | _ => res
  end.

End Router.

(** ** The upload of a request's content (http_client.cc) *)

Module HttpUpload.
Import TcpSocket.
Import HttpClient(HttpResponseState, IDLE, HEADERS, BODY).

(** An [HttpConnection] is a [ClientTcpSocket]; beside the socket, the
    fields that [onWriteResult] works on, and [request_.content()] as its
    bytes. *)
Record HttpConnection := mkUpload {
  socket : ClientTcpSocket;
  responseState_ : HttpResponseState;
  uploadOffset_ : Z;
  content : string
}.

Inductive outcome :=
| Returns (c : HttpConnection)
| Throws (what : string) (c : HttpConnection)
| OutOfRange.  (* a read past [content.data() + content.size()] *)

Section WithSendSize.

(** [HttpConnection::sendSize], a [uint64_t] constant, and the conversion to
    the integer type of [uploadOffset_]; http_client.h declares both. *)
Variable sendSize : Z.
Variable offset_t : Z → Z.

(** [onWriteResult(error, written, writtenSize)]. The result of [write] is
    dropped; an exception of [write] leaves through [onWriteResult]. *)
Definition onWriteResult (c : HttpConnection) (error : Z) (written : string)
    (writtenSize : Z) : outcome :=
  if (error =? 0)%Z then
    let size := Z.of_nat (String.length (content c)) in
    let next :=
      match responseState_ c with
      | HEADERS =>
          if (0 <? size)%Z
          then Some (mkUpload (socket c) BODY 0 (content c))
          else Some (mkUpload (socket c) IDLE (uploadOffset_ c) (content c))
      | BODY =>
          Some (mkUpload (socket c) BODY (offset_t (uploadOffset_ c + writtenSize))
                  (content c))
      | IDLE => None
      end in
    match next with
    | None => Throws "invalid state" c
    | Some c =>
        match responseState_ c with
        | BODY =>
            let remaining := ((size - uploadOffset_ c) mod 2 ^ 64)%Z in
            let chunkSize := Z.min remaining sendSize in
            if (chunkSize =? 0)%Z
            then Returns (mkUpload (socket c) IDLE (uploadOffset_ c) (content c))
            else if (0 <=? uploadOffset_ c)%Z && (uploadOffset_ c + chunkSize <=? size)%Z
            then
              let data := substring (Z.to_nat (uploadOffset_ c)) (Z.to_nat chunkSize)
                            (content c) in
              match write (socket c) data with
              | (s, WriteReturns _) =>
                  Returns (mkUpload s BODY (uploadOffset_ c) (content c))
              | (_, WriteThrows what) => Throws what c
              end
            else OutOfRange
        | _ => Returns c
        end
    end
  else Throws "unhandled error" c.

(** What [flush] does with the message at the front of the queue when the
    system takes it whole (a message of no byte is never taken so): the
    message leaves the queue and
    [handleWriteResult(0, message, message.size())] reports it. *)
Definition flushed (c : HttpConnection) : option (string * HttpConnection) :=
  match items (threadBuffer_ (socket c)) with
  | [] => None
  | msg :: rest =>
      let s := socket c in
      Some (msg,
            mkUpload
              (mkSocket (state_ s) (mkRing (capacity (threadBuffer_ s)) rest)
                 (remainingMsgs_ s - 1) (wakeupSignals s))
              (responseState_ c) (uploadOffset_ c) (content c))
  end.

(** The messages sent one after the other, each reported before the next
    one is taken, until the queue is empty or [onWriteResult] does not
    return. *)
Fixpoint sendAll (fuel : nat) (c : HttpConnection)
  : list string * option HttpConnection :=
  match fuel with
  | 0 => ([], None)
  | S fuel =>
      match flushed c with
      | None => ([], Some c)
      | Some (msg, c) =>
          match onWriteResult c 0 msg (Z.of_nat (String.length msg)) with
          | Returns c => let '(sent, c) := sendAll fuel c in (msg :: sent, c)
          | _ => ([msg], None)
          end
      end
  end.

End WithSendSize.

End HttpUpload.

(** ** HttpClientSimpleCallbacks and the parser callbacks of HttpConnection
       (http_client.cc) *)

Module SimpleCallbacks.
Import Parser.

(** The part of the object that the callbacks work on. *)
Record HttpClientSimpleCallbacks := mkSimple {
  statusCode_ : Z;
  headers_ : bytes;
  body_ : bytes
}.

(** [HttpClientSimpleCallbacks(onResponse)] *)
Definition newSimple : HttpClientSimpleCallbacks := mkSimple 0 [] [].

(** A call of [onResponse_], without the request. *)
Record Response := mkResponse {
  error : Z;
  status : Z;
  headers : bytes;
  body : bytes
}.

Definition onResponseStart (s : HttpClientSimpleCallbacks) (httpVersion : bytes)
    (code : Z) : HttpClientSimpleCallbacks :=
  mkSimple code (headers_ s) (body_ s).

Definition onHeader (s : HttpClientSimpleCallbacks) (data : bytes)
  : HttpClientSimpleCallbacks :=
  mkSimple (statusCode_ s) (headers_ s ++ data) (body_ s).

Definition onData (s : HttpClientSimpleCallbacks) (data : bytes)
  : HttpClientSimpleCallbacks :=
  mkSimple (statusCode_ s) (headers_ s) (body_ s ++ data).

(** [onResponse(rq, error, status, headers, body)], with [onResponse_] set. *)
Definition onResponse (s : HttpClientSimpleCallbacks) (error status : Z)
    (headers body : bytes) : HttpClientSimpleCallbacks * list Response :=
  (mkSimple 0 [] [], [mkResponse error status headers body]).

Definition onDone (s : HttpClientSimpleCallbacks) (error : Z)
  : HttpClientSimpleCallbacks * list Response :=
  onResponse s error (statusCode_ s) (headers_ s) (body_ s).

(** [HttpConnection::onParserResponseStart], [onParserHeader],
    [onParserData] and [onParserDone] with these callbacks on the request:
    [onParserDone] is [handleEndOfRq(0)], which calls [onDone(request_, 0)]. *)
Definition onParser (s : HttpClientSimpleCallbacks) (cb : callback)
  : HttpClientSimpleCallbacks * list Response :=
  match cb with
  | OnResponseStart httpVersion code => (onResponseStart s httpVersion code, [])
  | OnHeader data => (onHeader s data, [])
  | OnData data => (onData s data, [])
  | OnDone => onDone s 0
  end.

(** The callbacks of the parser, one after the other: the object at the end
    and the responses handed to [onResponse_]. *)
Fixpoint deliver (s : HttpClientSimpleCallbacks) (cbs : list callback)
  : HttpClientSimpleCallbacks * list Response :=
  match cbs with
  | [] => (s, [])
  | cb :: cbs' =>
      let '(s, out) := onParser s cb in
      let '(s, out') := deliver s cbs' in
      (s, out ++ out')
  end.

End SimpleCallbacks.

(** ** Building the route tree, objects of the context
       (rest_request_router.h, rest_request_router.cc) *)

Module RouterBuild.
Import Router.

Definition description (r : RestRequestRouter) : string :=
  match r with mkRouter _ _ d _ => d end.

(** [addRoute(path, filter, handler, extractObject)], with the sub-router
    [handler]: the router with the route added, or the exception. *)
Definition addRoute (r : RestRequestRouter) (path : PathSpec) (filter : RequestFilter)
    (handler : RestRequestRouter) (extractObject : option ExtractObject)
  : exn + RestRequestRouter :=
  match rootHandler r with
  | Some _ => inl (StdException "can't add a sub-route to a terminal route")
  | None =>
      inr (mkRouter (rootHandler r)
             (subRoutes r ++ [mkRoute path filter handler extractObject])
             (description r) (terminal r))
  end.

(** [addRoute(path, filter, description, cb, argHelp, extractObject)]: the
    route leads to a terminal router made of the callback. *)
Definition addRoute_cb (r : RestRequestRouter) (path : PathSpec) (filter : RequestFilter)
    (description : string) (cb : OnProcessRequest)
    (extractObject : option ExtractObject) : exn + RestRequestRouter :=
  addRoute r path filter (mkRouter (Some cb) [] description true) extractObject.

(** [addSubRouter(path, description, extractObject, subRouter)]: the router
    with the route added, and the sub-router the route leads to. The route
    has the filter of [RequestFilter()]; nothing is checked. *)
Definition addSubRouter (r : RestRequestRouter) (path : PathSpec)
    (description : string) (extractObject : option ExtractObject)
    (subRouter : option RestRequestRouter)
  : RestRequestRouter * RestRequestRouter :=
  let router :=
    match subRouter with
    | Some s => mkRouter (rootHandler s) (subRoutes s) description (terminal s)
    | None => mkRouter None [] description false
    end in
  (mkRouter (rootHandler r)
     (subRoutes r ++ [mkRoute path RequestFilter_none router extractObject])
     (RouterBuild.description r) (terminal r),
   router).

(** *** Objects of the context *)

(** A value of type [int] from the low 32 bits of [z]. *)
Definition int32 (z : Z) : Z := ((z + 2 ^ 31) mod 2 ^ 32 - 2 ^ 31)%Z.

(** [addObject(obj, deleter)] for [obj] of type [T *]: [type] is the
    [typeid] of [T]. *)
Definition addObject (c : RestRequestParsingContext) (obj : N) (type : string)
  : RestRequestParsingContext :=
  mkContext (resources c) (objects c ++ [mkObject obj type]) (remaining c).

(** [getObject(index)]. [objects.size() + index] is computed in [size_t] and
    stored in the [int]; [index >= objects.size()] compares in [size_t]. The
    [type] of an entry is null only together with its [obj]. *)
Definition getObject (c : RestRequestParsingContext) (index : Z)
  : exn + (N * string) :=
  let size := Z.of_nat (length (objects c)) in
  let index :=
    if (index =? -1)%Z then int32 ((size + index) mod 2 ^ 64) else index in
  if (index <? 0)%Z || (size <=? index mod 2 ^ 64)%Z
  then inl (StdException "Attempt to extract invalid object number")
  else
    let res := nth (Z.to_nat index) (objects c) (mkObject 0 "") in
    if (obj res =? 0)%N then inl (StdException "invalid object")
    else inr (obj res, type_ res).

(** [addSharedPtr(ptr)] for a [std::shared_ptr<T>]: the entry is a new copy
    of the pointer, at address [cell], of the type of the pointer. The
    [typeid] of the pointer type is found in the section below. *)
Definition addSharedPtr (shared_ptr : string → string)
    (c : RestRequestParsingContext) (cell : N) (T : string)
  : RestRequestParsingContext :=
  addObject c cell (shared_ptr T).

Section GetObjectAs.
(** The type names that the run-time type information gives:
    [typeid(std::shared_ptr<As>)] from [typeid(As)], and the two names that
    go into the message of the exception. *)
Variable shared_ptr : string → string.
Variable type_name : string → string.
Variable demangle : string → string.

(** How [getObjectAs] gets at the object: it is the entry itself, or the
    entry is a shared pointer to it. *)
Inductive access := Direct | ThroughSharedPtr.

(** [getObjectAs<As>(index)] *)
Definition getObjectAs (c : RestRequestParsingContext) (As : string) (index : Z)
  : exn + (N * access) :=
  match getObject c index with
  | inl e => inl e
  | inr (o, type) =>
      if String.eqb As type then inr (o, Direct)
      else if String.eqb (shared_ptr As) type then inr (o, ThroughSharedPtr)
      else
        inl (StdException ("wanted to get object of type " +:+ type_name As
                           +:+ " from incompatible object of type "
                           +:+ demangle type))
  end.

End GetObjectAs.

End RouterBuild.


(** * Properties *)

(** ** ClientTcpSocket::write *)

Module TcpSocketSpec.
Import TcpSocket.

Lemma canSendMessages_spec (s : ClientTcpSocket) :
  canSendMessages s = true ↔ state_ s = CONNECTING ∨ state_ s = CONNECTED.
Proof.
  unfold canSendMessages. rewrite orb_true_iff, !bool_decide_eq_true. tauto.
Qed.

(** C9. [write] on a socket that is connecting or connected puts the message
    at the end of the outbound queue, counts it, signals the wake-up and
    returns [true]; when the queue is full it returns [false] and leaves the
    socket as it was, and that is the only way it returns [false]. In any
    other state it throws and leaves the socket as it was. *)
Theorem write_enqueues_or_refuses (s : ClientTcpSocket) (data : string) :
  (state_ s = CONNECTING ∨ state_ s = CONNECTED →
     (full (threadBuffer_ s) = false →
        write s data
        = (mkSocket (state_ s)
             (mkRing (capacity (threadBuffer_ s)) (items (threadBuffer_ s) ++ [data]))
             (S (remainingMsgs_ s)) (S (wakeupSignals s)),
           WriteReturns true))
     ∧ (full (threadBuffer_ s) = true → write s data = (s, WriteReturns false))
     ∧ (snd (write s data) = WriteReturns false ↔ full (threadBuffer_ s) = true))
  ∧ (¬ (state_ s = CONNECTING ∨ state_ s = CONNECTED) →
     write s data = (s, WriteThrows "cannot write while not connected")).
Proof.
  split.
  - intros Hs. apply canSendMessages_spec in Hs.
    unfold write, tryPush. rewrite Hs.
    destruct (full (threadBuffer_ s)) eqn:Hf; simpl.
    + repeat split; auto; discriminate.
    + repeat split; auto; try discriminate.
  - intros Hs. unfold write.
    destruct (canSendMessages s) eqn:Hc; [|reflexivity].
    apply canSendMessages_spec in Hc. contradiction.
Qed.

(** A connected socket with room for one more message. *)
Lemma write_on_connected_socket :
  write (mkSocket CONNECTED (mkRing 2 ["a"]) 1 1) "b"
  = (mkSocket CONNECTED (mkRing 2 ["a"; "b"]) 2 2, WriteReturns true)
  ∧ write (mkSocket CONNECTING (mkRing 1 ["a"]) 1 1) "b"
    = (mkSocket CONNECTING (mkRing 1 ["a"]) 1 1, WriteReturns false)
  ∧ write (mkSocket DISCONNECTED (mkRing 1 []) 0 0) "b"
    = (mkSocket DISCONNECTED (mkRing 1 []) 0 0,
       WriteThrows "cannot write while not connected").
Proof.
  split; [|split].
  - apply (write_enqueues_or_refuses (mkSocket CONNECTED (mkRing 2 ["a"]) 1 1) "b");
      [by right|reflexivity].
  - apply (write_enqueues_or_refuses (mkSocket CONNECTING (mkRing 1 ["a"]) 1 1) "b");
      [by left|reflexivity].
  - apply (write_enqueues_or_refuses (mkSocket DISCONNECTED (mkRing 1 []) 0 0) "b").
    by intros [|].
Defined.

End TcpSocketSpec.


(** ** The connection pool of HttpClient *)

Module HttpClientSpec.
Import TcpSocket TcpSocketClose HttpClient.

(** The pool's invariant for [N] connections. *)
Record pool_inv (N : nat) (c : HttpClient) : Prop := mkInv {
  inv_stash : length (connectionStash_ c) = N;
  inv_avl : length (avlConnections_ c) = N;
  inv_next : nextAvail_ c ≤ N;
  inv_count : length (busyConnections c) = nextAvail_ c;
  inv_nodup : NoDup (idleStack c);
  inv_idle : ∀ i, i ∈ idleStack c →
    ∃ conn, connectionStash_ c !! i = Some conn ∧ busy conn = false;
  inv_state : ∀ i conn, connectionStash_ c !! i = Some conn →
    busy conn = false → responseState_ conn = IDLE;
  inv_address : ∀ i conn, connectionStash_ c !! i = Some conn →
    address_ conn ≠ ""%string;
  inv_queue : inThreadQueue_ c ≠ [] → nextAvail_ c = N
}.

Lemma busy_count_insert (l : list HttpConnection) (i : nat) (x y : HttpConnection) :
  l !! i = Some x →
  length (filter (λ conn, busy conn = true) (<[i := y]> l)) + (if busy x then 1 else 0)
  = length (filter (λ conn, busy conn = true) l) + (if busy y then 1 else 0).
Proof.
  revert i. induction l as [|a l IH]; intros [|i] H; simplify_eq/=.
  - rewrite !filter_cons.
    destruct (decide (busy y = true)) as [->| Hy%not_true_is_false];
      destruct (decide (busy x = true)) as [->| Hx%not_true_is_false];
      rewrite ?Hy, ?Hx; simpl; lia.
  - rewrite !filter_cons. specialize (IH i H).
    destruct (decide (busy a = true)); simpl; lia.
Qed.

Lemma idleStack_cons (c : HttpClient) :
  nextAvail_ c < length (avlConnections_ c) →
  ∃ i, avlConnections_ c !! nextAvail_ c = Some i
       ∧ idleStack c = i :: drop (S (nextAvail_ c)) (avlConnections_ c).
Proof.
  intros H. destruct (lookup_lt_is_Some_2 _ _ H) as [i Hi].
  exists i. split; [done|]. unfold idleStack. by apply drop_S.
Qed.

Lemma newClient_inv (N : nat) (address : string) (bufferSize : nat) :
  address ≠ ""%string → pool_inv N (newClient N address bufferSize).
Proof.
  intros Haddr. unfold newClient. split; simpl.
  - by rewrite length_replicate.
  - by rewrite length_seq.
  - lia.
  - unfold busyConnections; simpl. induction N as [|N IH]; simpl; [done|].
    rewrite filter_cons_False by done. done.
  - unfold idleStack; simpl. rewrite drop_0. apply NoDup_seq.
  - unfold idleStack; simpl. rewrite drop_0. intros i Hi.
    apply elem_of_seq in Hi. exists (newConnection address bufferSize). split; [|done].
    apply lookup_replicate_2. lia.
  - intros i conn H _. apply lookup_replicate in H as [-> _]. done.
  - intros i conn H. apply lookup_replicate in H as [-> _]. done.
  - done.
Qed.

(** A connection that holds a request is not on the idle stack. *)
Lemma busy_not_idle (N : nat) (c : HttpClient) (i : nat) (conn : HttpConnection) :
  pool_inv N c → connectionStash_ c !! i = Some conn → busy conn = true →
  i ∉ idleStack c.
Proof.
  intros Hinv Hconn Hb Hin.
  destruct (inv_idle _ _ Hinv i Hin) as (conn' & Hconn' & Hb'). congruence.
Qed.

(** A busy connection changes and stays busy. *)
Lemma inv_replace_busy (N : nat) (c : HttpClient) (i : nat) (conn conn' : HttpConnection) :
  pool_inv N c → connectionStash_ c !! i = Some conn →
  busy conn = true → busy conn' = true → address_ conn' ≠ ""%string →
  pool_inv N (set_connection c i conn').
Proof.
  intros Hinv Hconn Hb Hb' Haddr.
  pose proof (busy_not_idle N c i conn Hinv Hconn Hb) as Hnotin.
  destruct Hinv as [Hs Ha Hn Hc Hd Hi Hst Had Hq].
  pose proof (lookup_lt_Some _ _ _ Hconn) as Hlt.
  split; simpl; try done.
  - by rewrite length_insert.
  - unfold busyConnections; simpl.
    pose proof (busy_count_insert (connectionStash_ c) i conn conn' Hconn) as E'.
    rewrite Hb, Hb' in E'. unfold busyConnections in Hc. lia.
  - unfold idleStack; simpl. intros j Hj.
    destruct (Hi j Hj) as (cj & Hcj & Hbj). exists cj. split; [|done].
    rewrite list_lookup_insert_ne; [done|]. intros ->. contradiction.
  - intros j cj Hj Hbj. destruct (decide (i = j)) as [->|Hne].
    + rewrite list_lookup_insert_eq in Hj by done. simplify_eq. congruence.
    + rewrite list_lookup_insert_ne in Hj by done. eauto.
  - intros j cj Hj. destruct (decide (i = j)) as [->|Hne].
    + rewrite list_lookup_insert_eq in Hj by done. by simplify_eq.
    + rewrite list_lookup_insert_ne in Hj by done. eauto.
Qed.

(** An idle connection changes and stays idle. *)
Lemma inv_replace_idle (N : nat) (c : HttpClient) (i : nat) (conn conn' : HttpConnection) :
  pool_inv N c → connectionStash_ c !! i = Some conn →
  busy conn = false → busy conn' = false → responseState_ conn' = IDLE →
  address_ conn' ≠ ""%string →
  pool_inv N (set_connection c i conn').
Proof.
  intros Hinv Hconn Hb Hb' Hidle Haddr.
  destruct Hinv as [Hs Ha Hn Hc Hd Hi Hst Had Hq].
  pose proof (lookup_lt_Some _ _ _ Hconn) as Hlt.
  split; simpl; try done.
  - by rewrite length_insert.
  - unfold busyConnections; simpl.
    pose proof (busy_count_insert (connectionStash_ c) i conn conn' Hconn) as E'.
    rewrite Hb, Hb' in E'. unfold busyConnections in Hc. lia.
  - unfold idleStack; simpl. intros j Hj.
    destruct (Hi j Hj) as (cj & Hcj & Hbj).
    destruct (decide (i = j)) as [->|Hne].
    + exists conn'. split; [|done]. by apply list_lookup_insert_eq.
    + exists cj. split; [|done]. by rewrite list_lookup_insert_ne.
  - intros j cj Hj Hbj. destruct (decide (i = j)) as [->|Hne].
    + rewrite list_lookup_insert_eq in Hj by done. by simplify_eq.
    + rewrite list_lookup_insert_ne in Hj by done. eauto.
  - intros j cj Hj. destruct (decide (i = j)) as [->|Hne].
    + rewrite list_lookup_insert_eq in Hj by done. by simplify_eq.
    + rewrite list_lookup_insert_ne in Hj by done. eauto.
Qed.

(** The top of the idle stack is handed out and takes a request. *)
Lemma inv_take (N : nat) (c : HttpClient) (i : nat) (conn' : HttpConnection) :
  pool_inv N c → avlConnections_ c !! nextAvail_ c = Some i →
  busy conn' = true → address_ conn' ≠ ""%string →
  pool_inv N (mkClient (<[i := conn']> (connectionStash_ c)) (avlConnections_ c)
                (S (nextAvail_ c)) (inThreadQueue_ c)).
Proof.
  intros [Hs Ha Hn Hc Hd Hi Hst Had Hq] Hav Hb' Haddr.
  pose proof (lookup_lt_Some _ _ _ Hav) as Hlt.
  destruct (idleStack_cons c Hlt) as (i' & Hav' & Hidle).
  rewrite Hav in Hav'. injection Hav' as <-.
  destruct (Hi i) as (conn & Hconn & Hb); [rewrite Hidle; left|].
  rewrite Hidle in Hd. apply NoDup_cons in Hd as [Hni Hd].
  split; simpl.
  - by rewrite length_insert.
  - done.
  - lia.
  - unfold busyConnections; simpl.
    pose proof (busy_count_insert (connectionStash_ c) i conn conn' Hconn) as E.
    rewrite Hb, Hb' in E. simpl in E. unfold busyConnections in Hc. lia.
  - done.
  - unfold idleStack; simpl. intros j Hj.
    destruct (Hi j) as (cj & Hcj & Hbj); [rewrite Hidle; by right|].
    exists cj. split; [|done].
    rewrite list_lookup_insert_ne; [done|]. intros ->. contradiction.
  - intros j cj Hj Hbj.
    destruct (decide (i = j)) as [->|Hne].
    + rewrite list_lookup_insert_eq in Hj by (by eapply lookup_lt_Some).
      simplify_eq. congruence.
    + rewrite list_lookup_insert_ne in Hj by done. eauto.
  - intros j cj Hj. destruct (decide (i = j)) as [->|Hne].
    + rewrite list_lookup_insert_eq in Hj by (by eapply lookup_lt_Some).
      by simplify_eq.
    + rewrite list_lookup_insert_ne in Hj by done. eauto.
  - intros Hne. specialize (Hq Hne). lia.
Qed.

(** A busy connection is cleared and goes back onto the idle stack. *)
Lemma inv_release (N : nat) (c : HttpClient) (i : nat) (conn conn' : HttpConnection) :
  pool_inv N c → connectionStash_ c !! i = Some conn → busy conn = true →
  inThreadQueue_ c = [] →
  busy conn' = false → responseState_ conn' = IDLE → address_ conn' ≠ ""%string →
  pool_inv N (releaseConnection (set_connection c i conn') i)
  ∧ idleStack (releaseConnection (set_connection c i conn') i) = i :: idleStack c
  ∧ connectionStash_ (releaseConnection (set_connection c i conn') i)
    = <[i := conn']> (connectionStash_ c)
  ∧ inThreadQueue_ (releaseConnection (set_connection c i conn') i) = [].
Proof.
  intros Hinv Hconn Hb Hqueue Hb' Hidle' Haddr.
  pose proof (busy_not_idle N c i conn Hinv Hconn Hb) as Hnotin.
  destruct Hinv as [Hs Ha Hn Hc Hd Hi Hst Had Hq].
  pose proof (lookup_lt_Some _ _ _ Hconn) as Hlt.
  assert (Hpos : 0 < nextAvail_ c).
  { unfold busyConnections in Hc. rewrite <- Hc.
    apply list_elem_of_lookup_2 in Hconn.
    assert (conn ∈ filter (λ conn, busy conn = true) (connectionStash_ c))
      by (by apply list_elem_of_filter).
    destruct (filter _ _); [by apply not_elem_of_nil in H|simpl; lia]. }
  unfold releaseConnection, set_connection; simpl.
  destruct (0 <? nextAvail_ c) eqn:E; [|apply Nat.ltb_ge in E; lia].
  assert (Hstack : idleStack
            (mkClient (<[i:=conn']> (connectionStash_ c))
               (<[nextAvail_ c - 1:=i]> (avlConnections_ c))
               (nextAvail_ c - 1) (inThreadQueue_ c)) = i :: idleStack c).
  { unfold idleStack; simpl.
    rewrite (drop_S _ i (nextAvail_ c - 1)).
    - f_equal. replace (S (nextAvail_ c - 1)) with (nextAvail_ c) by lia.
      rewrite drop_insert_lt by lia. done.
    - apply list_lookup_insert_eq. lia. }
  split; [|by rewrite Hstack].
  split; simpl.
  - by rewrite length_insert.
  - by rewrite length_insert.
  - lia.
  - unfold busyConnections; simpl.
    pose proof (busy_count_insert (connectionStash_ c) i conn conn' Hconn) as E'.
    rewrite Hb, Hb' in E'. simpl in E'. unfold busyConnections in Hc. lia.
  - rewrite Hstack. apply NoDup_cons. done.
  - rewrite Hstack. intros j Hj. apply elem_of_cons in Hj as [->|Hj].
    + exists conn'. split; [|done]. by apply list_lookup_insert_eq.
    + destruct (Hi j Hj) as (cj & Hcj & Hbj). exists cj. split; [|done].
      rewrite list_lookup_insert_ne; [done|]. intros ->. contradiction.
  - intros j cj Hj Hbj. destruct (decide (i = j)) as [->|Hne].
    + rewrite list_lookup_insert_eq in Hj by done. by simplify_eq.
    + rewrite list_lookup_insert_ne in Hj by done. eauto.
  - intros j cj Hj. destruct (decide (i = j)) as [->|Hne].
    + rewrite list_lookup_insert_eq in Hj by done. by simplify_eq.
    + rewrite list_lookup_insert_ne in Hj by done. eauto.
  - by rewrite Hqueue.
Qed.

(** The overflow list changes while no connection is idle. *)
Lemma inv_set_queue (N : nat) (c : HttpClient) (queue : list HttpRequest) :
  pool_inv N c → nextAvail_ c = N → pool_inv N (set_queue c queue).
Proof. intros [Hs Ha Hn Hc Hd Hi Hst Had Hq] Hfull. by split. Qed.


Lemma write_can_send (s : ClientTcpSocket) (data : string) :
  canSendMessages s = true →
  ∃ s' result, write s data = (s', WriteReturns result).
Proof.
  intros H. unfold write. rewrite H.
  destruct (tryPush (threadBuffer_ s) data) as [buf []]; by eexists _, _.
Qed.

Lemma writeRequest_can_send (conn : HttpConnection) (rq : HttpRequest) :
  canSendMessages (socket conn) = true →
  ∃ s', writeRequest conn rq = (set_socket conn s', Returns).
Proof.
  intros H. unfold writeRequest.
  destruct (write_can_send (socket conn) (requestStr_ rq) H) as (s' & b & ->).
  by exists s'.
Qed.

Lemma set_connection_twice (c : HttpClient) (i : nat) (x y : HttpConnection) :
  set_connection (set_connection c i x) i y = set_connection c i y.
Proof. unfold set_connection. simpl. by rewrite list_insert_insert_eq. Qed.

Section WithMove.
Variable movedFrom : HttpRequest → HttpRequest.

(** [perform] on an idle connection, when [connect()], if it is called,
    gets under way: the connection holds the request, and nothing else in
    the pool changes. Without an answer, the run stops at [connect()]. *)
Lemma perform_idle
    (nested : HttpClient → nat → HttpRequest → list (option HttpRequest * Z) → run)
    (answer : option connectAnswer) (c : HttpClient) (i : nat)
    (conn : HttpConnection) (rq : HttpRequest) (log : list (option HttpRequest * Z)) :
  connectionStash_ c !! i = Some conn → responseState_ conn = IDLE →
  address_ conn ≠ ""%string →
  (∀ a, answer = Some a → underWay a) →
  (∃ s, perform movedFrom nested answer c i rq log
        = mkRun (set_connection c i (mkConn s (address_ conn) HEADERS (Some rq)))
            log Returns)
  ∨ (answer = None ∧ canSendMessages (socket conn) = false
     ∧ end_ (perform movedFrom nested answer c i rq log) = Unanswered).
Proof.
  intros Hconn Hidle Haddr Hanswer.
  pose proof (lookup_lt_Some _ _ _ Hconn) as Hlt.
  unfold perform. rewrite Hconn, Hidle, bool_decide_eq_true_2 by done.
  cbv zeta. cbn [socket].
  set (conn1 := mkConn (socket conn) (address_ conn) HEADERS (Some rq)).
  destruct (canSendMessages (socket conn)) eqn:Hsend.
  - left. destruct (writeRequest_can_send conn1 rq Hsend) as (s' & ->).
    exists s'. reflexivity.
  - unfold connect. simpl connectionStash_.
    rewrite list_lookup_insert_eq by done.
    rewrite bool_decide_eq_false_2 by done. simpl socket. rewrite Hsend.
    rewrite set_connection_twice.
    destruct answer as [a|]; [|by right].
    left. destruct (Hanswer a eq_refl) as [-> | ->].
    + simpl. by eexists.
    + assert (Hsend' : canSendMessages (socket (set_socket_state conn1 CONNECTING))
                       = true) by done.
      destruct (writeRequest_can_send _ rq Hsend') as (s' & ->).
      rewrite set_connection_twice. simpl. by eexists.
Qed.

Lemma performOn_idle (answers : list connectAnswer) (c : HttpClient) (i : nat)
    (conn : HttpConnection) (rq : HttpRequest) (log : list (option HttpRequest * Z)) :
  connectionStash_ c !! i = Some conn → responseState_ conn = IDLE →
  address_ conn ≠ ""%string →
  Forall underWay answers →
  (∃ s, performOn movedFrom answers c i rq log
        = mkRun (set_connection c i (mkConn s (address_ conn) HEADERS (Some rq)))
            log Returns)
  ∨ (answers = [] ∧ canSendMessages (socket conn) = false
     ∧ end_ (performOn movedFrom answers c i rq log) = Unanswered).
Proof.
  intros Hconn Hidle Haddr Hanswers.
  destruct answers as [|a answers]; simpl.
  - destruct (perform_idle (λ c _ _ log, mkRun c log Unanswered) None c i conn rq log
                Hconn Hidle Haddr) as [H|(_ & H1 & H2)]; [done|by left|by right].
  - apply Forall_cons in Hanswers as [Ha _].
    destruct (perform_idle (performOn movedFrom answers) (Some a) c i conn rq log
                Hconn Hidle Haddr) as [H|(H & _)]; [|by left|done].
    intros a' [= <-]. done.
Qed.

(** [handleQueueEvent] keeps the invariant. *)
Lemma handleQueueEvent_inv (N : nat) (c : HttpClient) (rq : HttpRequest)
    (answers : list connectAnswer) :
  pool_inv N c → Forall underWay answers →
  (∃ c', handleQueueEvent movedFrom answers c rq = mkRun c' [] Returns
         ∧ pool_inv N c')
  ∨ (answers = []
     ∧ end_ (handleQueueEvent movedFrom answers c rq) = Unanswered).
Proof.
  intros Hinv Hanswers. pose proof Hinv as [Hs Ha Hn Hc Hd Hi Hst Had Hq].
  unfold handleQueueEvent, getConnection.
  destruct (nextAvail_ c <? length (avlConnections_ c)) eqn:Hlt.
  - apply Nat.ltb_lt in Hlt.
    destruct (idleStack_cons c Hlt) as (i & Hav & Hidle).
    rewrite Hav.
    destruct (Hi i) as (conn & Hconn & Hb); [rewrite Hidle; left|].
    set (c1 := mkClient (connectionStash_ c) (avlConnections_ c) (S (nextAvail_ c))
                 (inThreadQueue_ c)).
    destruct (performOn_idle answers c1 i conn rq [] Hconn (Hst i conn Hconn Hb)
                (Had i conn Hconn) Hanswers) as [(s & ->)|(H1 & _ & H2)];
      [left|by right].
    eexists. split; [done|].
    apply (inv_take N c i); [done|done|done|simpl; by apply (Had i conn)].
  - apply Nat.ltb_ge in Hlt. left. eexists. split; [done|].
    apply inv_set_queue; [done|lia].
Qed.

(** What [handleEndOfRq] of a busy connection does with the overflow list,
    and that it keeps the invariant. *)
Lemma handleEndOfRq_inv (N : nat) (c : HttpClient) (i : nat) (conn : HttpConnection)
    (code : Z) (answers : list connectAnswer) :
  pool_inv N c → connectionStash_ c !! i = Some conn → busy conn = true →
  Forall underWay answers →
  match inThreadQueue_ c with
  | rq :: queue =>
      (∃ s, handleEndOfRq movedFrom answers c i code
            = mkRun (mkClient (<[i := mkConn s (address_ conn) HEADERS (Some rq)]>
                                 (connectionStash_ c))
                       (avlConnections_ c) (nextAvail_ c) queue)
                [(request_ conn, code)] Returns)
      ∨ (answers = []
         ∧ end_ (handleEndOfRq movedFrom answers c i code) = Unanswered)
  | [] =>
      ∃ c', handleEndOfRq movedFrom answers c i code
            = mkRun c' [(request_ conn, code)] Returns
          ∧ idleStack c' = i :: idleStack c
          ∧ (∃ s, connectionStash_ c'
                  = <[i := mkConn s (address_ conn) IDLE None]> (connectionStash_ c))
          ∧ inThreadQueue_ c' = []
  end
  ∧ ∀ c' log, handleEndOfRq movedFrom answers c i code = mkRun c' log Returns →
      pool_inv N c'.
Proof.
  intros Hinv Hconn Hb Hanswers.
  pose proof Hinv as [Hs Ha Hn Hc Hd Hi Hst Had Hq].
  pose proof (lookup_lt_Some _ _ _ Hconn) as Hlt.
  unfold handleEndOfRq, handleEndOfRq_in. rewrite Hconn. cbv zeta.
  set (conn0 := if (code =? 0)%Z then conn
                else set_socket conn (requestClose (socket conn))).
  assert (Hrq0 : request_ conn0 = request_ conn) by (unfold conn0; by destruct (_ =? _)%Z).
  assert (Haddr0 : address_ conn0 = address_ conn)
    by (unfold conn0; by destruct (_ =? _)%Z).
  rewrite Hrq0. simpl app.
  set (c1 := set_connection c i (clear conn0)).
  assert (Hconn1 : connectionStash_ c1 !! i = Some (clear conn0)).
  { unfold c1. simpl. by apply list_lookup_insert_eq. }
  unfold handleHttpConnectionDone_in. simpl inThreadQueue_.
  destruct (inThreadQueue_ c) as [|rq queue] eqn:Hqueue.
  - destruct (inv_release N c i conn (clear conn0) Hinv Hconn Hb Hqueue)
      as (Hinv' & Hstack & Hstash & Hq'); [done|done|simpl; rewrite Haddr0; by apply (Had i conn)|].
    fold c1 in Hinv', Hstack, Hstash, Hq'.
    split.
    + eexists. split; [done|]. split; [done|]. split; [|done].
      exists (socket conn0). rewrite Hstash. unfold clear. by rewrite Haddr0.
    + intros c' log [= <- _]. done.
  - set (c2 := set_queue c1 (movedFrom rq :: queue)).
    assert (Hconn2 : connectionStash_ c2 !! i = Some (clear conn0)) by done.
    assert (Haddr : address_ (clear conn0) ≠ ""%string).
    { simpl. rewrite Haddr0. by apply (Had i conn). }
    destruct (performOn_idle answers c2 i (clear conn0) rq [(request_ conn, code)]
                Hconn2 eq_refl Haddr Hanswers) as [(s & Hperf)|(H1 & _ & H2)].
    + rewrite Hperf. simpl.
      assert (Hres : set_queue
                       (set_connection c2 i
                          (mkConn s (address_ conn0) HEADERS (Some rq))) queue
                     = mkClient (<[i := mkConn s (address_ conn) HEADERS (Some rq)]>
                                   (connectionStash_ c))
                         (avlConnections_ c) (nextAvail_ c) queue).
      { unfold set_queue, set_connection, c2, c1. simpl.
        by rewrite list_insert_insert_eq, Haddr0. }
      rewrite Hres. split; [left; by exists s|].
      intros c' log [= <- _].
      assert (Hfull : nextAvail_ c = N) by (apply (inv_queue N c Hinv); by rewrite Hqueue).
      apply (inv_set_queue N (set_connection c i
                                (mkConn s (address_ conn) HEADERS (Some rq))));
        [|done].
      apply (inv_replace_busy N c i conn); try done. simpl. by apply (Had i conn).
    + rewrite H2. split; [right; by split|].
      intros c' log Heq.
      destruct (performOn movedFrom answers c2 i rq [(request_ conn, code)])
        as [p l e]. simpl in *. subst e. done.
Qed.

Lemma uploadProgress_inv (N : nat) (c : HttpClient) (i : nat) (conn : HttpConnection)
    (s : HttpResponseState) :
  pool_inv N c → connectionStash_ c !! i = Some conn → busy conn = true →
  pool_inv N (uploadProgress c i s).
Proof.
  intros Hinv Hconn Hb. unfold uploadProgress. rewrite Hconn.
  apply (inv_replace_busy N c i conn); try done.
  simpl. by apply (inv_address N c Hinv i conn).
Qed.

Lemma socketProgress_inv (N : nat) (c : HttpClient) (i : nat) (s : ClientTcpSocket) :
  pool_inv N c → pool_inv N (socketProgress c i s).
Proof.
  intros Hinv. unfold socketProgress.
  destruct (connectionStash_ c !! i) as [conn|] eqn:Hconn; [|done].
  pose proof (inv_address N c Hinv i conn Hconn) as Haddr.
  destruct (busy conn) eqn:Hb.
  - by apply (inv_replace_busy N c i conn).
  - apply (inv_replace_idle N c i conn); try done.
    simpl. by apply (inv_state N c Hinv i conn).
Qed.

Lemma step_inv (N : nat) (c c' : HttpClient) :
  pool_inv N c → step movedFrom c c' → pool_inv N c'.
Proof.
  intros Hinv Hstep.
  destruct Hstep as [c rq answers c' log Ha H|c i conn code answers c' log Hconn Hb Ha H
                    |c i conn s Hconn Hb|c i s].
  - destruct (handleQueueEvent_inv N c rq answers Hinv Ha)
      as [(c'' & E & Hinv')|(_ & E)].
    + rewrite E in H. by injection H as <- _.
    + by rewrite H in E.
  - destruct (handleEndOfRq_inv N c i conn code answers Hinv Hconn Hb Ha) as (_ & H').
    by apply (H' c' log).
  - by eapply uploadProgress_inv.
  - by apply socketProgress_inv.
Qed.

Lemma reachable_inv (N : nat) (c : HttpClient) :
  reachable movedFrom N c → pool_inv N c.
Proof.
  induction 1 as [address bufferSize Haddr|c c' _ IH Hstep];
    [by apply newClient_inv|by eapply step_inv].
Qed.

(** What [handleQueueEvent] does, by the idle stack. *)
Lemma handleQueueEvent_result (N : nat) (c : HttpClient) (rq : HttpRequest)
    (a : connectAnswer) :
  pool_inv N c → underWay a →
  match idleStack c with
  | i :: rest =>
      ∃ conn s,
        connectionStash_ c !! i = Some conn ∧ busy conn = false
        ∧ handleQueueEvent movedFrom [a] c rq
          = mkRun (mkClient (<[i := mkConn s (address_ conn) HEADERS (Some rq)]>
                               (connectionStash_ c))
                     (avlConnections_ c) (S (nextAvail_ c)) (inThreadQueue_ c))
              [] Returns
        ∧ idleStack (mkClient (<[i := mkConn s (address_ conn) HEADERS (Some rq)]>
                                 (connectionStash_ c))
                       (avlConnections_ c) (S (nextAvail_ c)) (inThreadQueue_ c))
          = rest
  | [] =>
      handleQueueEvent movedFrom [a] c rq
      = mkRun (set_queue c (inThreadQueue_ c ++ [rq])) [] Returns
  end.
Proof.
  intros [Hs Ha Hn Hc Hd Hi Hst Had Hq] Hanswer.
  unfold handleQueueEvent, getConnection.
  destruct (nextAvail_ c <? length (avlConnections_ c)) eqn:Hlt.
  - apply Nat.ltb_lt in Hlt.
    destruct (idleStack_cons c Hlt) as (i & Hav & Hidle).
    rewrite Hav, Hidle.
    destruct (Hi i) as (conn & Hconn & Hb); [rewrite Hidle; left|].
    set (c1 := mkClient (connectionStash_ c) (avlConnections_ c) (S (nextAvail_ c))
                 (inThreadQueue_ c)).
    destruct (performOn_idle [a] c1 i conn rq [] Hconn (Hst i conn Hconn Hb)
                (Had i conn Hconn) ltac:(by constructor)) as [(s & ->)|(H1 & _)];
      [|done].
    by exists conn, s.
  - apply Nat.ltb_ge in Hlt. unfold idleStack. by rewrite drop_ge.
Qed.

(** C5. The pool of one connection, with the message loop's events in this
    order: a request, whose connection gets under way; one or two more
    requests, which go to the overflow list; the connection fails
    ([ENETUNREACH]), and when the pool reuses it for the front request of
    the overflow list, [connect()] fails at once, then gets under way.
    [handleHttpConnectionDone] pops the front only when [perform] has
    returned, and [connect()] reports its failure from inside [perform]:
    the end of the front request is handled with that request still at the
    front. It is performed again as [std::move] has left it, and the front
    is popped twice. With one request waiting, the second [pop_front()] is
    on an empty list. With two, the second request leaves the overflow list
    without being performed and without a call of its [onDone]; the
    connection ends up holding the moved-from request on a closed socket. *)
Theorem pool_pops_twice_when_connect_fails :
  let a := mkRequest "GET" "http://h/a" "GET /a HTTP/1.1" in
  let b := mkRequest "GET" "http://h/b" "GET /b HTTP/1.1" in
  let w := mkRequest "PUT" "http://h/c" "PUT /c HTTP/1.1" in
  let c1 := pool (handleQueueEvent movedFrom [InProgress None] (newClient 1 "h" 8) a) in
  let c2 := pool (handleQueueEvent movedFrom [] c1 b) in
  let c3 := pool (handleQueueEvent movedFrom [] c2 w) in
  let lost := mkSocket DISCONNECTED (mkRing 8 []) 0 0 in
  let answers := [FailsAtOnce 2; InProgress None] in
  c2 = mkClient [mkConn (mkSocket CONNECTING (mkRing 8 []) 0 0) "h" HEADERS (Some a)]
         [0] 1 [b]
  ∧ c3 = mkClient [mkConn (mkSocket CONNECTING (mkRing 8 []) 0 0) "h" HEADERS (Some a)]
           [0] 1 [b; w]
  ∧ end_ (handleEndOfRq movedFrom answers (socketProgress c2 0 lost) 0 1) = Undefined
  ∧ handleEndOfRq movedFrom answers (socketProgress c3 0 lost) 0 1
    = mkRun
        (mkClient
           [mkConn (mkSocket DISCONNECTED (mkRing 8 []) 0 1) "h" HEADERS
              (Some (movedFrom b))]
           [0] 1 [])
        [(Some a, 1%Z); (Some b, 2%Z)] Returns.
Proof. repeat split. Qed.

(** X20. The invariant and the reuse of connections, while every call of
    [connect()] gets under way. In every state that the pool reaches from
    its construction with [N] connections, through queue events, ends of
    requests, upload progress and changes of the sockets, the busy
    connections and the idle stack add up to [N], and [nextAvail_] counts
    the busy connections of the [N]-element stash. A queue event returns.
    When a busy connection reports the end of its request, it takes the
    front request of a non-empty overflow list at once, the idle stack
    untouched; with an empty overflow list it is cleared and pushed onto the
    idle stack. *)
Theorem pool_counts_busy_connections (N : nat) (c : HttpClient) :
  reachable movedFrom N c →
  length (busyConnections c) + length (idleStack c) = N
  ∧ nextAvail_ c = length (busyConnections c)
  ∧ length (connectionStash_ c) = N
  ∧ (∀ rq a, underWay a →
       ∃ c', handleQueueEvent movedFrom [a] c rq = mkRun c' [] Returns
             ∧ reachable movedFrom N c')
  ∧ ∀ i conn code a,
      connectionStash_ c !! i = Some conn → busy conn = true → underWay a →
      match inThreadQueue_ c with
      | rq :: queue =>
          ∃ s, handleEndOfRq movedFrom [a] c i code
               = mkRun (mkClient (<[i := mkConn s (address_ conn) HEADERS (Some rq)]>
                                    (connectionStash_ c))
                          (avlConnections_ c) (nextAvail_ c) queue)
                   [(request_ conn, code)] Returns
      | [] =>
          ∃ c', handleEndOfRq movedFrom [a] c i code
                = mkRun c' [(request_ conn, code)] Returns
              ∧ idleStack c' = i :: idleStack c
              ∧ (∃ s, connectionStash_ c'
                      = <[i := mkConn s (address_ conn) IDLE None]> (connectionStash_ c))
              ∧ inThreadQueue_ c' = []
      end.
Proof.
  intros Hreach. pose proof (reachable_inv N c Hreach) as Hinv.
  pose proof Hinv as [Hs Ha Hn Hc Hd Hi Hst Had Hq].
  split; [|split; [|split; [|split]]].
  - unfold idleStack. rewrite length_drop, Hc, Ha. lia.
  - done.
  - done.
  - intros rq a Hanswer.
    destruct (handleQueueEvent_inv N c rq [a] Hinv ltac:(by constructor))
      as [(c' & Hc' & _)|(H & _)]; [|done].
    exists c'. split; [done|]. eapply reachable_step; [done|].
    apply (step_queue movedFrom c rq [a] c' []); [by constructor|done].
  - intros i conn code a Hconn Hb Hanswer.
    destruct (handleEndOfRq_inv N c i conn code [a] Hinv Hconn Hb ltac:(by constructor))
      as (H & _).
    destruct (inThreadQueue_ c); [done|]. by destruct H as [H|(H & _)].
Qed.

End WithMove.

(** A pool of two connections after one request. *)
Lemma pool_after_one_request :
  let a := mkRequest "GET" "http://h/a" "GET /a HTTP/1.1" in
  let c := pool (handleQueueEvent id [InProgress None] (newClient 2 "h" 8) a) in
  c = mkClient [mkConn (mkSocket CONNECTING (mkRing 8 []) 0 0) "h" HEADERS (Some a);
                newConnection "h" 8] [0; 1] 1 []
  ∧ length (busyConnections c) + length (idleStack c) = 2
  ∧ nextAvail_ c = length (busyConnections c).
Proof.
  intros a c.
  assert (H : reachable id 2 c).
  { eapply reachable_step; [by apply (reachable_new id 2 "h" 8)|].
    apply (step_queue id _ a [InProgress None] c []); [|done].
    constructor; [by left|constructor]. }
  destruct (pool_counts_busy_connections id 2 c H) as (H1 & H2 & _).
  split; [reflexivity|]. split; [exact H1|exact H2].
Defined.

End HttpClientSpec.


(** ** The REST request router *)

Module RouterSpec.
Import Router.

(** *** Strings *)

Lemma app_String (a : ascii) (p r : string) : String a p +:+ r = String a (p +:+ r).
Proof. reflexivity. Qed.

Lemma prefix_app (p s : string) : String.prefix p s = true ↔ ∃ r, s = p +:+ r.
Proof.
  revert s. induction p as [|a p IH]; intros [|b s]; simpl.
  - split; [intros _; by exists ""%string|done].
  - split; [intros _; by exists (String b s)|done].
  - split; [done|by intros [r Hr]].
  - setoid_rewrite app_String.
    destruct (Ascii.ascii_dec a b) as [->|Hne].
    + rewrite IH. split; intros [r Hr]; exists r; congruence.
    + split; [done|]. intros [r Hr]. congruence.
Qed.

Lemma index_0_prefix (p s : string) :
  String.index 0 p s = Some 0 ↔ String.prefix p s = true.
Proof.
  destruct s as [|b s]; simpl.
  - destruct p; simpl; split; congruence.
  - destruct (String.prefix p (String b s)) eqn:E.
    + destruct p; simpl in *; rewrite ?E; by split.
    + destruct p as [|a p]; [done|]. simpl in *. rewrite E.
      split; [|done]. destruct (String.index 0 (String a p) s); discriminate.
Qed.

Lemma substring_all (s : string) : substring 0 (String.length s) s = s.
Proof. induction s; simpl; congruence. Qed.

Lemma string_from_app (p r : string) : string_from (p +:+ r) (String.length p) = r.
Proof.
  unfold string_from. induction p as [|a p IH].
  - change ("" +:+ r) with r. simpl. rewrite Nat.sub_0_r. apply substring_all.
  - rewrite app_String. simpl. exact IH.
Qed.

(** *** matchPath *)

(** The path specs of the routes walked from a context, each matched on
    what the previous one left. *)
Fixpoint walk (specs : list PathSpec) (context : RestRequestParsingContext)
  : exn + (bool * RestRequestParsingContext) :=
  match specs with
  | [] => inr (true, context)
  | p :: specs' =>
      match matchPath p context with
      | inr (true, context') => walk specs' context'
      | r => r
      end
  end.

Lemma matchPath_string (p : PathSpec) (c : RestRequestParsingContext) :
  type p = STRING →
  (∀ rest, remaining c = path p +:+ rest →
     matchPath p c = inr (true, mkContext (resources c ++ [path p]) (objects c) rest))
  ∧ ((¬ ∃ rest, remaining c = path p +:+ rest) → matchPath p c = inr (false, c)).
Proof.
  intros Ht. unfold matchPath. rewrite Ht. split.
  - intros rest Hr.
    assert (H : index 0 (path p) (remaining c) = Some 0).
    { apply index_0_prefix, prefix_app. eauto. }
    rewrite H, Hr, string_from_app. done.
  - intros Hn. destruct (index 0 (path p) (remaining c)) as [[|n]|] eqn:E; try done.
    apply index_0_prefix, prefix_app in E. contradiction.
Qed.

Lemma matchPath_regex (p : PathSpec) (c c' : RestRequestParsingContext) :
  type p = REGEX → matchPath p c = inr (true, c') →
  ∃ whole groups rest,
    regex_search (rex p) (remaining c) = Some (mkSmatch "" (whole :: groups))
    ∧ length groups = mark_count (rex p)
    ∧ remaining c = whole +:+ rest
    ∧ c' = mkContext (resources c ++ whole :: groups) (objects c) rest.
Proof.
  intros Ht. unfold matchPath. rewrite Ht.
  destruct (regex_search (rex p) (remaining c)) as [[pre subs]|] eqn:E; [|done].
  simpl. destruct (String.eqb pre "") eqn:Hpre; [|done].
  apply String.eqb_eq in Hpre. subst pre.
  pose proof (regex_search_size _ _ _ E) as Hsize.
  destruct (regex_search_position _ _ _ E) as [suffix Hpos]. simpl in *.
  destruct subs as [|whole groups]; [done|]. simpl in *.
  assert (Hrem : remaining c = whole +:+ suffix) by exact Hpos.
  intros [= <-]. exists whole, groups, suffix.
  rewrite Hrem, string_from_app. repeat split; try done. lia.
Qed.

Lemma matchPath_pushes (p : PathSpec) (c c' : RestRequestParsingContext) :
  matchPath p c = inr (true, c') →
  length (resources c') = length (resources c) + numCapturedElements p
  ∧ objects c' = objects c
  ∧ ∃ consumed, remaining c = consumed +:+ remaining c'.
Proof.
  intros H. unfold numCapturedElements. destruct (type p) eqn:Ht.
  - unfold matchPath in H. rewrite Ht in H. done.
  - destruct (matchPath_string p c Ht) as [Hyes Hno].
    destruct (String.prefix (path p) (remaining c)) eqn:E.
    + apply prefix_app in E as [rest Hr].
      rewrite (Hyes rest Hr) in H. injection H as <-. simpl.
      rewrite length_app. simpl. eauto.
    + rewrite Hno in H; [done|]. intros Hex. apply prefix_app in Hex. congruence.
  - destruct (matchPath_regex p c c' Ht H) as (whole & groups & rest & _ & Hlen & Hrem & ->).
    simpl. rewrite length_app. simpl. split; [lia|]. eauto.
Qed.

Lemma walk_pushes (specs : list PathSpec) (c c' : RestRequestParsingContext) :
  walk specs c = inr (true, c') →
  length (resources c')
  = length (resources c) + sum_list (map numCapturedElements specs).
Proof.
  revert c. induction specs as [|p specs IH]; intros c H; simpl in *.
  - injection H as <-. lia.
  - destruct (matchPath p c) as [e|[[] c1]] eqn:E; try done.
    apply matchPath_pushes in E as (E & _). rewrite (IH _ H). lia.
Qed.

(** C2. A literal path spec matches exactly when [remaining] begins with the
    literal, pushes the literal and strips it; a regex path spec matches only
    at the start of [remaining], pushes the whole match followed by one entry
    per capture group ([1 + mark_count] entries) and strips the whole match;
    so after a walk of path specs from the context of a request,
    [resources] holds as many entries as the sum of their
    [numCapturedElements]. *)
Theorem matchPath_captures (p : PathSpec) (c : RestRequestParsingContext) :
  (type p = STRING →
     (∀ rest, remaining c = path p +:+ rest →
        matchPath p c
        = inr (true, mkContext (resources c ++ [path p]) (objects c) rest))
     ∧ ((¬ ∃ rest, remaining c = path p +:+ rest) → matchPath p c = inr (false, c))
     ∧ numCapturedElements p = 1)
  ∧ (type p = REGEX →
     ∀ c', matchPath p c = inr (true, c') →
       ∃ whole groups rest,
         regex_search (rex p) (remaining c) = Some (mkSmatch "" (whole :: groups))
         ∧ remaining c = whole +:+ rest
         ∧ c' = mkContext (resources c ++ whole :: groups) (objects c) rest
         ∧ length (whole :: groups) = 1 + mark_count (rex p)
         ∧ numCapturedElements p = 1 + mark_count (rex p))
  ∧ (∀ request specs c',
       walk specs (newContext request) = inr (true, c') →
       length (resources c') = sum_list (map numCapturedElements specs)).
Proof.
  split; [|split].
  - intros Ht. destruct (matchPath_string p c Ht) as [Hyes Hno].
    repeat split; try done. unfold numCapturedElements. by rewrite Ht.
  - intros Ht c' H.
    destruct (matchPath_regex p c c' Ht H) as (whole & groups & rest & Hs & Hlen & Hrem & ->).
    exists whole, groups, rest. rewrite <- Hrem.
    repeat split; try done; [simpl; lia|].
    unfold numCapturedElements. rewrite Ht. lia.
  - intros request specs c' H. by rewrite (walk_pushes _ _ _ H).
Qed.

(** The literal [/foo] on the path [/foo/bar]. *)
Lemma matchPath_literal_foo :
  matchPath (PathSpec_string "/foo") (mkContext [] [] "/foo/bar")
  = inr (true, mkContext ["/foo"] [] "/bar").
Proof.
  by apply (matchPath_captures (PathSpec_string "/foo") (mkContext [] [] "/foo/bar")).
Defined.

(** *** The state guard *)

Definition restored (before after : RestRequestParsingContext) : Prop :=
  remaining after = remaining before
  ∧ length (resources after) = length (resources before)
  ∧ length (objects after) = length (objects before).

Lemma restoreState_restores (c c' : RestRequestParsingContext) (state : State) :
  restoreState c state = inr c' →
  remaining c' = s_remaining state
  ∧ resources c' = take (resourcesLength state) (resources c)
  ∧ length (resources c') = resourcesLength state
  ∧ objects c' = take (objectsLength state) (objects c)
  ∧ length (objects c') = objectsLength state.
Proof.
  unfold restoreState. simpl.
  destruct (length (resources c) <? resourcesLength state) eqn:E1; [done|].
  destruct (length (objects c) <? objectsLength state) eqn:E2; [done|].
  apply Nat.ltb_ge in E1, E2. intros [= <-]. simpl.
  rewrite !length_take. repeat split; try done; lia.
Qed.

Lemma withStateGuard_restores {A} (conn : RestConnection)
    (c : RestRequestParsingContext)
    (body : RestConnection → RestRequestParsingContext → run A) :
  r_out (withStateGuard conn c body) ≠ AssertFailed →
  restored c (r_ctx (withStateGuard conn c body))
  ∧ r_out (withStateGuard conn c body) = r_out (body conn c)
  ∧ r_conn (withStateGuard conn c body) = r_conn (body conn c).
Proof.
  unfold withStateGuard, restored.
  destruct (r_out (body conn c)) eqn:Eo; try done;
    destruct (restoreState (r_ctx (body conn c)) (saveState c)) as [c'|c'] eqn:Er;
    simpl; try done; intros _;
    apply restoreState_restores in Er as (? & ? & ? & ? & ?); simpl in *; done.
Qed.

Lemma process_eq (path : PathSpec) (filter : RequestFilter)
    (router : RestRequestRouter) (extractObject : option ExtractObject)
    (request : RestRequest) (context : RestRequestParsingContext)
    (connection : RestConnection) :
  process (mkRoute path filter router extractObject) request context connection
  = if negb (set_empty (verbs filter)) && negb (set_count (verb request) (verbs filter))
    then mkRun connection context (Ok MR_NO)
    else if negb (forallb (paramFilterMatches request) (filters filter))
    then mkRun connection context (Ok MR_NO)
    else
      withStateGuard connection context (λ connection context,
        match matchPath path context with
        | inl e => mkRun connection context (Throws e)
        | inr (false, context) => mkRun connection context (Ok MR_NO)
        | inr (true, context) =>
            let e :=
              match extractObject with
              | Some extract => extract connection request context
              | None => mkRun connection context (Ok tt)
              end in
            match r_out e with
            | Ok _ =>
                if responseSent (r_conn e)
                then mkRun (r_conn e) (r_ctx e) (Ok MR_YES)
                else processRequest router (r_conn e) request (r_ctx e)
            | Throws x => mkRun (r_conn e) (r_ctx e) (Throws x)
            | AssertFailed => mkRun (r_conn e) (r_ctx e) AssertFailed
            end
        end).
Proof. reflexivity. Qed.

(** Whether the request gets past the verb and parameter filters of a route. *)
Definition passesFilter (f : RequestFilter) (request : RestRequest) : bool :=
  (set_empty (verbs f) || set_count (verb request) (verbs f))
  && forallb (paramFilterMatches request) (filters f).

(** C10. However [Route::process] ends, once it returns (or throws) the
    context is back to where it was before the call: same [remaining], same
    number of resources and of objects, [MR_YES] included. A handler of the
    child router runs on the context that [matchPath] extended, inside the
    guard. *)
Theorem process_restores_context (sr : Route) (request : RestRequest)
    (context : RestRequestParsingContext) (connection : RestConnection) :
  (∀ result,
     r_out (process sr request context connection) = Ok result →
     restored context (r_ctx (process sr request context connection)))
  ∧ (∀ e,
     r_out (process sr request context connection) = Throws e →
     restored context (r_ctx (process sr request context connection)))
  ∧ (∀ matched handler,
     passesFilter (route_filter sr) request = true →
     matchPath (route_path sr) context = inr (true, matched) →
     route_extractObject sr = None →
     responseSent connection = false →
     verb request ≠ "OPTIONS" →
     rootHandler (route_router sr) = Some handler →
     terminal (route_router sr) = false ∨ remaining matched = "" →
     process sr request context connection
     = withStateGuard connection context
         (λ connection _, handler connection request matched)).
Proof.
  destruct sr as [path filter router extract]. rewrite process_eq.
  assert (Hunch : restored context context) by done.
  split; [|split].
  - intros result.
    destruct (negb (set_empty (verbs filter)) && _); [done|].
    destruct (negb (forallb _ _)); [done|].
    intros H. apply withStateGuard_restores. congruence.
  - intros e.
    destruct (negb (set_empty (verbs filter)) && _); [done|].
    destruct (negb (forallb _ _)); [done|].
    intros H. apply withStateGuard_restores. congruence.
  - simpl. intros matched handler Hpass Hmatch -> Hsent Hverb Hroot Hterm.
    unfold passesFilter in Hpass. apply andb_true_iff in Hpass as [Hv Hp].
    rewrite <- negb_orb, Hv, Hp. simpl.
    unfold withStateGuard. rewrite Hmatch. simpl. rewrite Hsent.
    destruct router as [rh srs d t]. simpl in *. subst rh.
    apply String.eqb_neq in Hverb. rewrite Hverb.
    assert (Hc : negb t || String.eqb (remaining matched) "" = true).
    { destruct Hterm as [->| ->]; [done|]. apply orb_true_r. }
    rewrite Hc. done.
Qed.

(** *** processRequest *)

(** The loop of [processRequest] over the sub-routes. *)
(** A route [/x] to a leaf that answers [MR_YES]: the context is restored. *)
Lemma process_leaf_restores :
  let request := mkRequest "GET" "/x" [] (λ _, ""%string) in
  let leaf :=
    mkRouter (Some (λ connection _ context, mkRun connection context (Ok MR_YES)))
      [] "leaf" true in
  let sr := mkRoute (PathSpec_string "/x") RequestFilter_none leaf None in
  r_out (process sr request (newContext request) []) = Ok MR_YES
  ∧ restored (newContext request) (r_ctx (process sr request (newContext request) [])).
Proof.
  intros request leaf sr. split; [reflexivity|].
  by apply (process_restores_context sr request (newContext request) [] ) with MR_YES.
Defined.

Fixpoint trySubRoutes (srs : list Route) (request : RestRequest)
    (connection : RestConnection) (context : RestRequestParsingContext)
  : run MatchResult :=
  match srs with
  | [] => mkRun connection context (Ok MR_NO)
  | sr :: srs' =>
      let r := process sr request context connection in
      match r_out r with
      | Ok MR_NO => trySubRoutes srs' request (r_conn r) (r_ctx r)
      | Ok _ => r
      | Throws (StdException what) =>
          mkRun (sendErrorResponse (r_conn r) 500 ("threw exception: " +:+ what))
            (r_ctx r) (Ok MR_YES)
      | Throws UnknownException =>
          mkRun (sendErrorResponse (r_conn r) 500 "unknown exception")
            (r_ctx r) (Ok MR_YES)
      | AssertFailed => r
      end
  end.

Lemma processRequest_eq (r : RestRequestRouter) (connection : RestConnection)
    (request : RestRequest) (context : RestRequestParsingContext) :
  processRequest r connection request context
  = if String.eqb (verb request) "OPTIONS" then
      let o := options r [] connection context in
      match r_out o with
      | Ok verbs =>
          let headers := [("Allow", getVerbsStr verbs)] in
          mkRun
            (if set_empty verbs
             then sendHttpResponse connection 400 (BodyText "") "" headers
             else sendHttpResponse connection 200 BodyHelp "application/json" headers)
            (r_ctx o) (Ok MR_YES)
      | Throws e => mkRun (r_conn o) (r_ctx o) (Throws e)
      | AssertFailed => mkRun (r_conn o) (r_ctx o) AssertFailed
      end
    else
      match (if negb (terminal r) || String.eqb (remaining context) ""
             then rootHandler r else None) with
      | Some handler => handler connection request context
      | None => trySubRoutes (subRoutes r) request connection context
      end.
Proof.
  destruct r as [h srs d t]. simpl.
  destruct (String.eqb (verb request) "OPTIONS"); [reflexivity|].
  destruct (if negb t || String.eqb (remaining context) "" then h else None);
    [reflexivity|].
  revert connection context. induction srs as [|sr srs IH]; intros; simpl; [done|].
  destruct (r_out (process sr request context connection)) as [[]|[]|]; try done.
Qed.

(** A route that does not take the request: a filter turns it down, or its
    path spec does not match what remains of the path. *)
Definition declines (request : RestRequest) (context : RestRequestParsingContext)
    (sr : Route) : Prop :=
  passesFilter (route_filter sr) request = false
  ∨ matchPath (route_path sr) context = inr (false, context).

Lemma restoreState_saveState (c : RestRequestParsingContext) :
  restoreState c (saveState c) = inr c.
Proof.
  unfold restoreState, saveState. destruct c as [rs os rem]. simpl.
  rewrite !Nat.ltb_irrefl, !firstn_all. done.
Qed.

Lemma process_declines (sr : Route) (request : RestRequest)
    (context : RestRequestParsingContext) (connection : RestConnection) :
  declines request context sr →
  process sr request context connection = mkRun connection context (Ok MR_NO).
Proof.
  destruct sr as [path filter router extract]. rewrite process_eq.
  unfold declines, passesFilter. simpl. rewrite <- negb_orb. intros [H|H].
  - destruct (set_empty (verbs filter) || _); simpl in *; [|done]. by rewrite H.
  - destruct (negb _); [done|]. destruct (negb _); [done|].
    unfold withStateGuard. rewrite H. simpl. by rewrite restoreState_saveState.
Qed.

Lemma trySubRoutes_decline (srs : list Route) (request : RestRequest)
    (connection : RestConnection) (context : RestRequestParsingContext) :
  Forall (declines request context) srs →
  trySubRoutes srs request connection context = mkRun connection context (Ok MR_NO).
Proof.
  induction 1 as [|sr srs Hsr _ IH]; simpl; [done|].
  rewrite (process_declines _ _ _ _ Hsr). simpl. exact IH.
Qed.

(** *** RequestFilter *)

Lemma parseVerbs_verbs (f : RequestFilter) : verbs (parseVerbs f) = verbs f.
Proof. unfold parseVerbs. by destruct (fold_left _ _ _). Qed.

(** C7. [parseVerbs] turns the entry [type=full] into a parameter filter, and
    [header:X-Kind=full] into a header filter on [X-Kind], but both entries
    stay in the verb set: a route filtered on them alone turns down a [GET]
    that carries the parameter and the header. *)
Theorem parseVerbs_keeps_parameter_entries :
  let f := RequestFilter_verbs ["type=full"; "header:X-Kind=full"] in
  let request :=
    mkRequest "GET" "/x" [("type", "full")]
      (λ name, if String.eqb name "X-Kind" then "full" else "") in
  let leaf :=
    mkRouter (Some (λ connection _ context, mkRun connection context (Ok MR_YES)))
      [] "leaf" true in
  filters f = [mkParamFilter HEADER "X-Kind" "full"; mkParamFilter QUERY "type" "full"]
  ∧ forallb (paramFilterMatches request) (filters f) = true
  ∧ verbs f = ["header:X-Kind=full"; "type=full"]
  ∧ process (mkRoute (PathSpec_string "/x") f leaf None) request
      (newContext request) []
    = mkRun [] (newContext request) (Ok MR_NO).
Proof. vm_compute. done. Qed.
End RouterSpec.


(** ** HttpResponseParser *)

Module ParserSpec.
Import Parser.

(** *** Scanning *)

Lemma skipToChar_from_found (c : ascii) (throwOnEol : bool) (pre rest : bytes) (ptr : nat) :
  c ∉ pre →
  (throwOnEol = true → (CR ∉ pre) ∧ (LF ∉ pre)) →
  skipToChar_from c throwOnEol (pre ++ c :: rest) ptr = inr (true, ptr + length pre).
Proof.
  revert ptr. induction pre as [|x pre IH]; intros ptr Hc Heol; simpl.
  - rewrite Ascii.eqb_refl. f_equal. f_equal. lia.
  - apply not_elem_of_cons in Hc as [Hx Hc].
    destruct (Ascii.eqb_spec x c) as [->|_]; [done|].
    assert (Hthrow : throwOnEol && (Ascii.eqb x CR || Ascii.eqb x LF) = false).
    { destruct throwOnEol; [|done]. destruct (Heol eq_refl) as [H1 H2].
      apply not_elem_of_cons in H1 as [H1 _]. apply not_elem_of_cons in H2 as [H2 _].
      simpl. apply orb_false_iff. split; by apply Ascii.eqb_neq. }
    rewrite Hthrow, IH; [f_equal; f_equal; lia|done|].
    intros Ht. destruct (Heol Ht) as [H1 H2].
    apply not_elem_of_cons in H1 as [_ H1]. by apply not_elem_of_cons in H2 as [_ H2].
Qed.

Lemma skipToChar_found (c : ascii) (throwOnEol : bool) (before pre rest : bytes) :
  c ∉ pre →
  (throwOnEol = true → (CR ∉ pre) ∧ (LF ∉ pre)) →
  skipToChar c throwOnEol (before ++ pre ++ c :: rest) (length before)
  = inr (true, length before + length pre).
Proof.
  intros. unfold skipToChar. rewrite drop_app_length. by apply skipToChar_from_found.
Qed.

Lemma skipChar_from_spaces (c : ascii) (k : nat) (rest : bytes) (ptr : nat) :
  head rest ≠ Some c →
  skipChar_from c (replicate k c ++ rest) ptr = ptr + k.
Proof.
  revert ptr. induction k as [|k IH]; intros ptr Hrest; simpl.
  - destruct rest as [|x rest]; simpl; [lia|].
    destruct (Ascii.eqb_spec x c) as [->|_]; [done|lia].
  - rewrite Ascii.eqb_refl, IH by done. lia.
Qed.

(** Skipping the spaces, then everything up to the colon. *)
Lemma skip_to_colon (pre rest : bytes) (ptr : nat) :
  ":"%char ∉ pre →
  skipToChar_from ":" false
    (drop (skipChar_from SP (pre ++ ":"%char :: rest) ptr - ptr) (pre ++ ":"%char :: rest))
    (skipChar_from SP (pre ++ ":"%char :: rest) ptr)
  = inr (true, ptr + length pre).
Proof.
  revert ptr. induction pre as [|x pre IH]; intros ptr Hc; simpl.
  - rewrite Nat.sub_diag. simpl. f_equal. f_equal. lia.
  - apply not_elem_of_cons in Hc as [Hx Hc].
    destruct (Ascii.eqb_spec x SP) as [->|Hsp].
    + specialize (IH (S ptr) Hc).
      assert (Hle : S ptr ≤ skipChar_from SP (pre ++ ":"%char :: rest) (S ptr)).
      { clear. generalize (S ptr). induction (pre ++ ":"%char :: rest) as [|y l IHl];
          intros n; simpl; [lia|]. destruct (Ascii.eqb y SP); [|lia].
        specialize (IHl (S n)). lia. }
      replace (skipChar_from SP (pre ++ ":"%char :: rest) (S ptr) - ptr)
        with (S (skipChar_from SP (pre ++ ":"%char :: rest) (S ptr) - S ptr)) by lia.
      simpl. rewrite IH. f_equal. f_equal. lia.
    + rewrite Nat.sub_diag. simpl.
      destruct (Ascii.eqb_spec x ":") as [->|_]; [done|].
      rewrite skipToChar_from_found by done. f_equal. f_equal. lia.
Qed.

Lemma at_app_length (before : bytes) (x : ascii) (rest : bytes) :
  at_ (before ++ x :: rest) (length before) = x.
Proof. unfold at_. by rewrite nth_middle. Qed.

Lemma range_app (before mid rest : bytes) :
  range (before ++ mid ++ rest) (length before) (length before + length mid) = mid.
Proof.
  unfold range. rewrite drop_app_length.
  replace (length before + length mid - length before) with (length mid) by lia.
  by rewrite take_app_length.
Qed.

Section WithAntoi.
Variable antoi : bytes → option Z.

Lemma feedLoop_unfold (fuel : nat) (fromBuffer : bool) (data : bytes)
    (p : HttpResponseParser) (ptr : nat) :
  feedLoop antoi (S fuel) fromBuffer data p ptr
  = if ptr =? length data then clearIfFromBuffer fromBuffer p
    else
      match (match state_ p with
             | STATUS_LINE => statusLine antoi fromBuffer data p ptr
             | HEADERS => headers antoi fromBuffer data p ptr
             | BODY => body data p ptr
             end) with
      | Leave r => r
      | Again p' ptr' cbs => emit cbs (feedLoop antoi fuel fromBuffer data p' ptr')
      end.
Proof. reflexivity. Qed.

Lemma headerLines_unfold (fuel : nat) (fromBuffer : bool) (data : bytes)
    (p : HttpResponseParser) (ptr : nat) :
  headerLines antoi (S fuel) fromBuffer data p ptr
  = if Ascii.eqb (at_ data ptr) CR then Again p ptr []
    else
      match skipToChar ":" true data ptr with
      | inl e => Leave (mkResult p [] (Threw e))
      | inr (false, _) => Leave (stashHeader fromBuffer data p ptr)
      | inr (true, ptr1) =>
          match skipToChar CR false data ptr1 with
          | inl e => Leave (mkResult p [] (Threw e))
          | inr (false, _) => Leave (stashHeader fromBuffer data p ptr)
          | inr (true, ptr2) =>
              if S ptr2 =? length data
              then Leave (stashHeader fromBuffer data p ptr)
              else if negb (Ascii.eqb (at_ data (S ptr2)) LF)
              then Leave (throw "expected \n" p)
              else
                let h := handleHeader antoi p (range data ptr (S (S ptr2) - 2)) in
                match exit h with
                | Returned =>
                    if S (S ptr2) =? length data
                    then Leave (emit (callbacks h)
                                  (clearIfFromBuffer fromBuffer (parser h)))
                    else
                      match headerLines antoi fuel fromBuffer data (parser h)
                              (S (S ptr2)) with
                      | Again p' ptr' cbs => Again p' ptr' (callbacks h ++ cbs)
                      | Leave r => Leave (emit (callbacks h) r)
                      end
                | _ => Leave h
                end
          end
      end.
Proof. reflexivity. Qed.

(** [feed] on a parser whose carry-over buffer is empty. *)
Lemma feed_fresh (p : HttpResponseParser) (data : bytes) :
  buffer_ p = [] →
  feed antoi p data = feedLoop antoi (feedFuel data) false data p 0.
Proof. intros H. unfold feed. by rewrite H. Qed.

(** [handleHeader] on a line that starts with [Content-Length], in any
    letter case, and has a colon. *)
Lemma handleHeader_length_line (p : HttpResponseParser) (name pre : bytes) (k : nat)
    (value : bytes) :
  length name = 14 →
  map tolower name = map tolower (str "Content-Length") →
  ":"%char ∉ pre →
  head value ≠ Some SP →
  let line := name ++ pre ++ [":"%char] ++ replicate k SP ++ value in
  handleHeader antoi p line
  = match antoi value with
    | Some n => mkResult (set_remainingBody p (uint64 n)) [OnHeader line] Returned
    | None => mkResult p [] (Threw AntoiFailure)
    end.
Proof.
  intros Hlen Hname Hpre Hvalue line.
  unfold handleHeader.
  assert (Hmatch : matchString line 0 (str "Content-Length") = true).
  { assert (Hl : length (str "Content-Length") = 14) by reflexivity.
    unfold matchString, range, strncasecmp_eq0, bytes_eqb. rewrite Hl.
    apply andb_true_iff. split.
    - apply Nat.leb_le. unfold line. rewrite length_app. lia.
    - apply bool_decide_eq_true. unfold line.
      rewrite drop_0, Nat.sub_0_r, take_app_length' by done. exact Hname. }
  rewrite Hmatch. cbv zeta.
  assert (Hdrop : drop 14 line = pre ++ ":"%char :: replicate k SP ++ value).
  { unfold line. rewrite <- Hlen. by rewrite drop_app_length. }
  assert (Hcolon : hSkipToChar ":" line (skipChar SP line 14) = 14 + length pre).
  { unfold hSkipToChar, skipToChar, skipChar. rewrite Hdrop.
    pose proof (skip_to_colon pre (replicate k SP ++ value) 14 Hpre) as H.
    set (q := skipChar_from SP _ 14) in *.
    assert (Hq : 14 ≤ q).
    { subst q. clear. generalize 14.
      induction (pre ++ ":"%char :: replicate k SP ++ value) as [|y l IHl];
        intros m; simpl; [lia|]. destruct (Ascii.eqb y SP); [|lia].
      specialize (IHl (S m)). lia. }
    replace (drop q line) with (drop (q - 14) (drop 14 line))
      by (rewrite drop_drop; f_equal; lia).
    rewrite Hdrop, H. done. }
  rewrite Hcolon.
  assert (Hrest : drop (S (14 + length pre)) line = replicate k SP ++ value).
  { replace (S (14 + length pre)) with (14 + S (length pre)) by lia.
    rewrite <- drop_drop, Hdrop.
    change (pre ++ ":"%char :: replicate k SP ++ value)
      with (pre ++ [":"%char] ++ replicate k SP ++ value).
    rewrite app_assoc.
    replace (S (length pre)) with (length (pre ++ [":"%char]))
      by (rewrite length_app; simpl; lia).
    by rewrite drop_app_length. }
  assert (Hsp : skipChar SP line (S (14 + length pre)) = S (14 + length pre) + k).
  { unfold skipChar. rewrite Hrest. by apply skipChar_from_spaces. }
  assert (Hvalue' : drop (S (14 + length pre) + k) line = value).
  { rewrite <- drop_drop, Hrest.
    rewrite <- (length_replicate k SP) at 1. by rewrite drop_app_length. }
  by rewrite Hsp, Hvalue'.
Qed.

(** C3. [handleHeader] recognises one header: a line that starts with
    [Content-Length], in any letter case, sets [remainingBody_] to the number
    that [ML::antoi] reads after the colon and the spaces that follow it,
    and reports the line through [onHeader]; when [ML::antoi] reads no
    number there, its exception leaves [handleHeader] before [onHeader] and
    the parser is as it was. A line that does not start so leaves the parser
    as it was and is reported through [onHeader]: the response parser has no
    chunked or require-close mode to set. *)
Theorem handleHeader_content_length (p : HttpResponseParser) :
  (∀ name pre k value n,
     length name = 14 →
     map tolower name = map tolower (str "Content-Length") →
     ":"%char ∉ pre →
     head value ≠ Some SP →
     antoi value = Some n →
     let line := name ++ pre ++ [":"%char] ++ replicate k SP ++ value in
     handleHeader antoi p line
     = mkResult (set_remainingBody p (uint64 n)) [OnHeader line] Returned)
  ∧ (∀ name pre k value,
     length name = 14 →
     map tolower name = map tolower (str "Content-Length") →
     ":"%char ∉ pre →
     head value ≠ Some SP →
     antoi value = None →
     let line := name ++ pre ++ [":"%char] ++ replicate k SP ++ value in
     handleHeader antoi p line = mkResult p [] (Threw AntoiFailure))
  ∧ (∀ line,
     matchString line 0 (str "Content-Length") = false →
     handleHeader antoi p line = mkResult p [OnHeader line] Returned)
  ∧ (∀ line,
     parser (handleHeader antoi p line) = p
     ∨ ∃ n, parser (handleHeader antoi p line) = set_remainingBody p n).
Proof.
  split; [|split; [|split]].
  - intros name pre k value n Hlen Hname Hpre Hvalue Hn line.
    unfold line. rewrite handleHeader_length_line by done. by rewrite Hn.
  - intros name pre k value Hlen Hname Hpre Hvalue Hn line.
    unfold line. rewrite handleHeader_length_line by done. by rewrite Hn.
  - intros line H. unfold handleHeader. by rewrite H.
  - intros line. unfold handleHeader.
    destruct (matchString line 0 (str "Content-Length")); [|by left].
    cbv zeta. destruct (antoi _) as [n|]; [right; by eexists|by left].
Qed.


(** A violation in the first line that a call reads: for a status line that
    does not start with [HTTP/], and for a carriage return that is not
    followed by a line feed at the end of the status line or of a header
    line, the call ends with the exception, the parser is left as it was,
    and no callback is invoked. *)
Lemma feed_throws_in_first_line (p : HttpResponseParser) :
  buffer_ p = [] →
  (state_ p = STATUS_LINE →
     (∀ data,
        16 ≤ length data → take 5 data ≠ str "HTTP/" →
        feed antoi p data
        = mkResult p [] (Threw (MLException "version must start with 'HTTP/'")))
     ∧ (∀ version code reason x rest n,
        (SP ∉ version) ∧ (CR ∉ version) ∧ (LF ∉ version) →
        (SP ∉ code) ∧ (CR ∉ code) ∧ (LF ∉ code) →
        CR ∉ reason → x ≠ LF → antoi code = Some n →
        let data := str "HTTP/" ++ version ++ [SP] ++ code ++ [SP] ++ reason
                    ++ [CR; x] ++ rest in
        16 ≤ length data →
        feed antoi p data = mkResult p [] (Threw (MLException "expected \n"))))
  ∧ (state_ p = HEADERS →
     ∀ name value x rest,
       (":"%char ∉ name) ∧ (CR ∉ name) ∧ (LF ∉ name) →
       CR ∉ value → x ≠ LF →
       feed antoi p (name ++ [":"%char] ++ value ++ [CR; x] ++ rest)
       = mkResult p [] (Threw (MLException "expected \n"))).
Proof.
  intros Hbuf. split.
  - intros Hstate. split.
    + intros data Hlen Hhttp. rewrite feed_fresh by done. unfold feedFuel.
      replace (2 * length data + 2) with (S (2 * length data + 1)) by lia.
      rewrite feedLoop_unfold, Hstate.
      destruct (Nat.eqb_spec 0 (length data)); [lia|].
      unfold statusLine. rewrite Nat.sub_0_r.
      destruct (Nat.ltb_spec (length data) 16); [lia|].
      unfold range, bytes_eqb. rewrite drop_0. simpl.
      rewrite bool_decide_eq_false_2 by done. done.
    + intros version code reason x rest n (Hv1 & Hv2 & Hv3) (Hc1 & Hc2 & Hc3)
        Hreason Hx Hcode data Hlen.
      rewrite feed_fresh by done. unfold feedFuel.
      replace (2 * length data + 2) with (S (2 * length data + 1)) by lia.
      rewrite feedLoop_unfold, Hstate.
      destruct (Nat.eqb_spec 0 (length data)); [lia|].
      unfold statusLine. rewrite Nat.sub_0_r.
      destruct (Nat.ltb_spec (length data) 16); [lia|].
      assert (Hhttp : range data 0 (0 + 5) = str "HTTP/") by reflexivity.
      rewrite Hhttp. unfold bytes_eqb. rewrite bool_decide_eq_true_2 by done.
      cbv zeta. simpl negb. cbv iota.
      (* the version *)
      assert (E1 : skipToChar SP true data (0 + 5)
                   = inr (true, 5 + length version)).
      { apply (skipToChar_found SP true (str "HTTP/") version); done. }
      rewrite E1.
      (* the code *)
      set (b2 := str "HTTP/" ++ version ++ [SP]).
      assert (Hb2 : length b2 = S (5 + length version)).
      { unfold b2. rewrite !length_app. simpl. lia. }
      assert (D2 : data = b2 ++ code ++ SP :: reason ++ [CR; x] ++ rest).
      { unfold data, b2. by rewrite <- ?app_assoc. }
      assert (E2 : skipToChar SP true data (S (5 + length version))
                   = inr (true, S (5 + length version) + length code)).
      { rewrite <- Hb2, D2. apply skipToChar_found; done. }
      rewrite E2.
      assert (R : range data (S (5 + length version))
                    (S (5 + length version) + length code) = code).
      { rewrite <- Hb2, D2. apply range_app. }
      rewrite R, Hcode.
      (* the reason *)
      set (b3 := b2 ++ code).
      assert (Hb3 : length b3 = S (5 + length version) + length code).
      { unfold b3. rewrite length_app. lia. }
      assert (D3 : data = b3 ++ (SP :: reason) ++ CR :: x :: rest).
      { rewrite D2. unfold b3. by rewrite <- ?app_assoc. }
      assert (E3 : skipToChar CR false data (S (5 + length version) + length code)
                   = inr (true, S (5 + length version) + length code
                                + length (SP :: reason))).
      { rewrite <- Hb3, D3. apply skipToChar_found; [|done].
        apply not_elem_of_cons. split; [done|done]. }
      rewrite E3.
      set (b4 := b3 ++ (SP :: reason) ++ [CR]).
      assert (Hb4 : length b4
                    = S (S (5 + length version) + length code + length (SP :: reason))).
      { unfold b4. rewrite !length_app, Hb3. simpl. lia. }
      assert (D4 : data = b4 ++ x :: rest).
      { rewrite D3. unfold b4. by rewrite <- ?app_assoc. }
      rewrite <- Hb4.
      destruct (Nat.eqb_spec (length b4) (length data)) as [Heq|_].
      { rewrite D4, length_app in Heq. simpl in Heq. lia. }
      rewrite D4 at 1. rewrite at_app_length.
      destruct (Ascii.eqb_spec x LF); [done|]. done.
  - intros Hstate name value x rest (Hn1 & Hn2 & Hn3) Hvalue Hx.
    set (data := name ++ [":"%char] ++ value ++ [CR; x] ++ rest).
    assert (Hlen : 0 < length data).
    { unfold data. rewrite !length_app. simpl. lia. }
    rewrite feed_fresh by done. unfold feedFuel.
    replace (2 * length data + 2) with (S (2 * length data + 1)) by lia.
    rewrite feedLoop_unfold, Hstate.
    destruct (Nat.eqb_spec 0 (length data)); [lia|].
    unfold headers. destruct (length data) as [|fuel] eqn:Hfuel; [lia|].
    rewrite headerLines_unfold, Hfuel.
    assert (Hfirst : Ascii.eqb (at_ data 0) CR = false).
    { unfold data. destruct name as [|a name]; [done|].
      apply not_elem_of_cons in Hn2 as [Ha _]. unfold at_. simpl.
      apply Ascii.eqb_neq. congruence. }
    rewrite Hfirst.
    assert (E1 : skipToChar ":" true data 0 = inr (true, length name)).
    { apply (skipToChar_found ":" true [] name); done. }
    rewrite E1.
    assert (D2 : data = name ++ (":"%char :: value) ++ CR :: x :: rest).
    { unfold data. by rewrite <- ?app_assoc. }
    assert (E2 : skipToChar CR false data (length name)
                 = inr (true, length name + length (":"%char :: value))).
    { rewrite D2. apply skipToChar_found; [|done].
      apply not_elem_of_cons. split; [done|done]. }
    rewrite E2.
    set (b4 := name ++ (":"%char :: value) ++ [CR]).
    assert (Hb4 : length b4 = S (length name + length (":"%char :: value))).
    { unfold b4. rewrite !length_app. simpl. lia. }
    assert (D4 : data = b4 ++ x :: rest).
    { rewrite D2. unfold b4. by rewrite <- ?app_assoc. }
    rewrite <- Hb4.
    destruct (Nat.eqb_spec (length b4) (S fuel)) as [Heq|_].
    { rewrite <- Hfuel, D4, length_app in Heq. simpl in Heq. lia. }
    rewrite D4 at 1. rewrite at_app_length.
    destruct (Ascii.eqb_spec x LF); [done|]. done.
Qed.


(** *** The body, in sized mode *)

Lemma feed_nil (p : HttpResponseParser) : buffer_ p = [] → feed antoi p [] = ret p.
Proof. intros H. rewrite feed_fresh by done. reflexivity. Qed.

Lemma range_all (data : bytes) : range data 0 (0 + length data) = data.
Proof. unfold range. rewrite drop_0. simpl. by rewrite Nat.sub_0_r, firstn_all. Qed.

(** One call of [feed] in the body with at most the bytes still expected. *)
Lemma feed_body (p : HttpResponseParser) (c : bytes) :
  state_ p = BODY → buffer_ p = [] → c ≠ [] →
  (N.of_nat (length c) <= remainingBody_ p)%N →
  feed antoi p c
  = if (remainingBody_ p - N.of_nat (length c) =? 0)%N
    then mkResult (mkParser STATUS_LINE [] 0) [OnData c; OnDone] Returned
    else mkResult (set_remainingBody p (remainingBody_ p - N.of_nat (length c)))
           [OnData c] Returned.
Proof.
  intros Hstate Hbuf Hc Hle. rewrite feed_fresh by done. unfold feedFuel.
  assert (Hlen : 0 < length c) by (destruct c; [done|simpl; lia]).
  replace (2 * length c + 2) with (S (S (2 * length c))) by lia.
  rewrite feedLoop_unfold, Hstate.
  destruct (Nat.eqb_spec 0 (length c)); [lia|].
  unfold body. rewrite Nat.sub_0_r.
  rewrite N.min_l, Nat2N.id by lia. rewrite range_all. simpl remainingBody_.
  destruct p as [st buf rem]. simpl in *. subst st buf.
  destruct (rem - N.of_nat (length c) =? 0)%N eqn:E; cbv beta iota zeta.
  - rewrite ?feedLoop_unfold, ?Nat.add_0_l, Nat.eqb_refl.
    apply N.eqb_eq in E. unfold emit, clearIfFromBuffer, ret, set_state; simpl.
    by rewrite E.
  - rewrite ?feedLoop_unfold, ?Nat.add_0_l, Nat.eqb_refl. done.
Qed.

Lemma feedAll_empty_chunks (p : HttpResponseParser) (chunks : list bytes) :
  buffer_ p = [] → concat chunks = [] → feedAll antoi p chunks = ret p.
Proof.
  intros Hbuf. induction chunks as [|c chunks IH]; simpl; [done|].
  intros H. apply app_eq_nil in H as [-> H].
  rewrite feed_nil by done. simpl. rewrite IH by done. done.
Qed.

(** The body bytes reported by a sequence of callbacks. *)
Definition bodyBytes (cbs : list callback) : bytes :=
  flat_map (λ cb, match cb with OnData d => d | _ => [] end) cbs.

Definition nonEmpty (chunks : list bytes) : list bytes :=
  filter (λ c, c ≠ []) chunks.

Lemma feedAll_body (chunks : list bytes) (p : HttpResponseParser) :
  state_ p = BODY → buffer_ p = [] →
  (0 < remainingBody_ p)%N →
  remainingBody_ p = N.of_nat (length (concat chunks)) →
  feedAll antoi p chunks
  = mkResult (mkParser STATUS_LINE [] 0)
      (map OnData (nonEmpty chunks) ++ [OnDone]) Returned.
Proof.
  revert p. induction chunks as [|c chunks IH]; intros p Hstate Hbuf Hpos Hrem.
  - simpl in Hrem. lia.
  - simpl in Hrem. rewrite length_app in Hrem. simpl.
    destruct c as [|x c].
    + rewrite feed_nil by done. simpl. rewrite IH by done.
      unfold nonEmpty. rewrite filter_cons_False by auto. done.
    + set (c' := x :: c) in *.
      assert (Hc : c' ≠ []) by done.
      rewrite feed_body by (try done; lia).
      unfold nonEmpty. rewrite filter_cons_True by done.
      destruct (remainingBody_ p - N.of_nat (length c') =? 0)%N eqn:E.
      * apply N.eqb_eq in E.
        assert (Hnil : concat chunks = []).
        { apply length_zero_iff_nil. lia. }
        simpl. rewrite feedAll_empty_chunks by done.
        assert (Hfilter : filter (λ c, c ≠ []) chunks = []).
        { clear -Hnil. induction chunks as [|d chunks IH]; [done|].
          simpl in Hnil. apply app_eq_nil in Hnil as [-> Hnil].
          rewrite filter_cons_False by auto. auto. }
        rewrite Hfilter. done.
      * apply N.eqb_neq in E. simpl.
        rewrite IH; simpl; try done; subst c'; simpl in *; lia.
Qed.

Lemma bodyBytes_data (chunks : list bytes) :
  bodyBytes (map OnData (nonEmpty chunks) ++ [OnDone]) = concat chunks.
Proof.
  unfold bodyBytes, nonEmpty. rewrite flat_map_app. simpl. rewrite app_nil_r.
  induction chunks as [|c chunks IH]; [done|].
  destruct c as [|x c].
  - rewrite filter_cons_False by auto. exact IH.
  - rewrite filter_cons_True by done. simpl. by rewrite IH.
Qed.

End WithAntoi.

(** *** The run of the parser over the bytes it has not read

    [feed] works on a pointer into the data of one call and on the carry-over
    buffer. The run below is the same loop on the unread bytes alone, without
    pointer or buffer, up to where the parser is back at a status line. *)

(** How a run over the bytes of a response ends. *)
Inductive stop :=
| Pending (w : bytes)      (* more bytes are needed; [w] is kept for the next call *)
| Completed (rest : bytes) (* [onDone] was called; [rest] follows the response *)
| Failed (e : Exception).

Record trace := mkTrace {
  t_cbs : list callback;
  t_state : State;
  t_rem : N;
  t_stop : stop
}.

Definition temit (cbs : list callback) (t : trace) : trace :=
  mkTrace (cbs ++ t_cbs t) (t_state t) (t_rem t) (t_stop t).

Section Tail.
Variable antoi : bytes → option Z.

(** One step of the parser in state [st], with [rem] body bytes expected, on
    the unread bytes [d]; [continue] runs the rest. This is what [feed] does
    from the header stage on, told on the unread bytes alone (no read
    position, no carry-over buffer); it stops at the end of the response. *)
Definition tailStep (continue : State → N → bytes → option trace)
    (st : State) (rem : N) (d : bytes) : option trace :=
  match d with
  | [] => Some (mkTrace [] st rem (Pending []))
  | x :: _ =>
      match st with
      | STATUS_LINE => Some (mkTrace [] st rem (Completed d))
      | BODY =>
          let chunk := N.to_nat (N.min (N.of_nat (length d)) rem) in
          let rem' := (rem - N.of_nat chunk)%N in
          if (rem' =? 0)%N
          then temit [OnData (take chunk d); OnDone]
                 <$> continue STATUS_LINE rem' (drop chunk d)
          else temit [OnData (take chunk d)] <$> continue BODY rem' (drop chunk d)
      | HEADERS =>
          if Ascii.eqb x CR then
            match d with
            | _ :: y :: d' =>
                if negb (Ascii.eqb y LF)
                then Some (mkTrace [] st rem (Failed (MLException "expected \n")))
                else if (rem =? 0)%N
                then temit [OnDone] <$> continue STATUS_LINE rem d'
                else continue BODY rem d'
            | _ => Some (mkTrace [] st rem (Pending d))
            end
          else
            match skipToChar_from ":" true d 0 with
            | inl e => Some (mkTrace [] st rem (Failed e))
            | inr (false, _) => Some (mkTrace [] st rem (Pending d))
            | inr (true, i) =>
                match skipToChar_from CR false (drop i d) i with
                | inl e => Some (mkTrace [] st rem (Failed e))
                | inr (false, _) => Some (mkTrace [] st rem (Pending d))
                | inr (true, j) =>
                    if S j =? length d then Some (mkTrace [] st rem (Pending d))
                    else if negb (Ascii.eqb (at_ d (S j)) LF)
                    then Some (mkTrace [] st rem (Failed (MLException "expected \n")))
                    else
                      let h := handleHeader antoi (mkParser HEADERS [] rem) (take j d) in
                      match exit h with
                      | Returned =>
                          temit (callbacks h)
                            <$> continue HEADERS (remainingBody_ (parser h))
                                  (drop (S (S j)) d)
                      | Threw e => Some (mkTrace [] st rem (Failed e))
                      | Diverged => None
                      end
                end
            end
      end
  end.

Fixpoint tail (fuel : nat) : State → N → bytes → option trace :=
  match fuel with
  | O => λ _ _ _, None
  | S fuel => tailStep (tail fuel)
  end.

(** Fuel that [tail] needs. *)
Definition tailFuel (st : State) (d : bytes) : nat :=
  match st with STATUS_LINE => 1 | _ => length d + 2 end.

Lemma skipToChar_from_bounds (c : ascii) (throwOnEol : bool) (rest : bytes)
    (ptr : nat) (found : bool) (ptr' : nat) :
  skipToChar_from c throwOnEol rest ptr = inr (found, ptr') →
  ptr ≤ ptr' ∧ ptr' ≤ ptr + length rest
  ∧ (found = true → ptr' < ptr + length rest ∧ nth (ptr' - ptr) rest "000"%char = c)
  ∧ (found = false → ptr' = ptr + length rest).
Proof.
  revert ptr. induction rest as [|x rest IH]; intros ptr H; simpl in *.
  - injection H as <- <-. repeat split; try lia; done.
  - destruct (Ascii.eqb_spec x c) as [->|Hne].
    + injection H as <- <-. rewrite Nat.sub_diag. repeat split; try lia; done.
    + destruct (throwOnEol && _); [done|].
      apply IH in H as (H1 & H2 & H3 & H4).
      split; [lia|]. split; [lia|]. split.
      * intros Hf. destruct (H3 Hf) as [Hlt Hn]. split; [lia|].
        replace (ptr' - ptr) with (S (ptr' - S ptr)) by lia. done.
      * intros Hf. specialize (H4 Hf). lia.
Qed.

Lemma handleHeader_exit (p : HttpResponseParser) (line : bytes) :
  exit (handleHeader antoi p line) ≠ Diverged.
Proof.
  unfold handleHeader. destruct (matchString _ _ _); [|done].
  cbv zeta. by destruct (antoi _).
Qed.

Lemma tail_enough (fuel : nat) (st : State) (rem : N) (d : bytes) :
  tailFuel st d ≤ fuel → is_Some (tail fuel st rem d).
Proof.
  revert st rem d. induction fuel as [|fuel IH]; intros st rem d Hfuel.
  - destruct st; simpl in Hfuel; lia.
  - change (tail (S fuel)) with (tailStep (tail fuel)). unfold tailStep.
    destruct d as [|x d0]; [by eexists|]. set (d := x :: d0) in *.
    destruct st; [by eexists| |].
    + (* HEADERS *)
      simpl in Hfuel.
      destruct (Ascii.eqb x CR).
      { subst d. destruct d0 as [|y d']; [by eexists|].
        destruct (negb _); [by eexists|].
        destruct (rem =? 0)%N.
        - apply fmap_is_Some, IH. simpl. lia.
        - apply IH. simpl in *. lia. }
      destruct (skipToChar_from ":" true d 0) as [e|[[] i]] eqn:E1; try by eexists.
      destruct (skipToChar_from CR false (drop i d) i) as [e|[[] j]] eqn:E2; try by eexists.
      destruct (S j =? length d); [by eexists|].
      destruct (negb _); [by eexists|]. cbv zeta.
      pose proof (handleHeader_exit (mkParser HEADERS [] rem) (take j d)) as Hh.
      destruct (exit _); try done; try by eexists.
      apply fmap_is_Some, IH. simpl. rewrite length_drop. lia.
    + (* BODY *)
      simpl in Hfuel. cbv zeta.
      destruct (_ =? 0)%N eqn:E.
      * apply fmap_is_Some, IH. simpl. lia.
      * apply fmap_is_Some, IH. simpl. rewrite length_drop.
        apply N.eqb_neq in E.
        assert (Hd : length d = S (length d0)) by done. lia.
Qed.

Lemma tail_mono (fuel fuel' : nat) (st : State) (rem : N) (d : bytes) (t : trace) :
  tail fuel st rem d = Some t → fuel ≤ fuel' → tail fuel' st rem d = Some t.
Proof.
  revert fuel' st rem d t. induction fuel as [|fuel IH]; intros fuel' st rem d t H Hle;
    [done|].
  destruct fuel' as [|fuel']; [lia|].
  assert (Hrec : ∀ st rem d (f : trace → trace) t,
            f <$> tail fuel st rem d = Some t → f <$> tail fuel' st rem d = Some t).
  { intros st0 rem0 d1 f t0 Hf.
    destruct (tail fuel st0 rem0 d1) as [t1|] eqn:E; [|done].
    rewrite (IH fuel' _ _ _ _ E) by lia. done. }
  change (tail (S fuel)) with (tailStep (tail fuel)) in H.
  change (tail (S fuel')) with (tailStep (tail fuel')).
  unfold tailStep in *.
  destruct d as [|x d0]; [done|]. set (d := x :: d0) in *.
  destruct st; [done| |].
  - destruct (Ascii.eqb x CR).
    { subst d. destruct d0 as [|y d']; [done|].
      destruct (negb _); [done|].
      destruct (rem =? 0)%N; [by apply Hrec|]. apply (IH fuel'); [done|lia]. }
    destruct (skipToChar_from ":" true d 0) as [e|[[] i]]; try done.
    destruct (skipToChar_from CR false (drop i d) i) as [e|[[] j]]; try done.
    destruct (S j =? length d); [done|].
    destruct (negb _); [done|]. cbv zeta in *.
    destruct (exit _); try done. by apply Hrec.
  - cbv zeta in *. destruct (_ =? 0)%N; by apply Hrec.
Qed.

(** The run with the fuel it needs. *)
Definition runTail (st : State) (rem : N) (d : bytes) : trace :=
  default (mkTrace [] st rem (Pending d)) (tail (tailFuel st d) st rem d).

Lemma runTail_tail (fuel : nat) (st : State) (rem : N) (d : bytes) :
  tailFuel st d ≤ fuel → tail fuel st rem d = Some (runTail st rem d).
Proof.
  intros H. unfold runTail.
  destruct (tail_enough (tailFuel st d) st rem d) as [t Ht]; [done|].
  rewrite Ht. simpl. by apply (tail_mono _ _ _ _ _ _ Ht).
Qed.

Lemma tailStep_ext (f g : State → N → bytes → option trace)
    (st : State) (rem : N) (d : bytes) :
  (∀ st' rem' d', length d' ≤ length d → f st' rem' d' = g st' rem' d') →
  tailStep f st rem d = tailStep g st rem d.
Proof.
  intros Hfg. unfold tailStep.
  destruct d as [|x d0]; [done|]. set (d := x :: d0) in *.
  destruct st; [done| |].
  - destruct (Ascii.eqb x CR).
    { subst d. destruct d0 as [|y d']; [done|].
      destruct (negb _); [done|].
      rewrite !Hfg by (simpl; lia). done. }
    destruct (skipToChar_from ":" true d 0) as [e|[[] i]]; try done.
    destruct (skipToChar_from CR false (drop i d) i) as [e|[[] j]]; try done.
    destruct (S j =? length d); [done|].
    destruct (negb _); [done|]. cbv zeta.
    destruct (exit _); try done.
    rewrite Hfg by (rewrite length_drop; lia). done.
  - cbv zeta. rewrite !Hfg by (rewrite length_drop; lia). done.
Qed.

(** The equation of [runTail]. *)
Lemma runTail_eq (st : State) (rem : N) (d : bytes) :
  Some (runTail st rem d)
  = tailStep (λ st rem d, Some (runTail st rem d)) st rem d.
Proof.
  rewrite <- (runTail_tail (S (length d + 2))) by (destruct st; simpl; lia).
  change (tail (S (length d + 2))) with (tailStep (tail (length d + 2))).
  apply tailStep_ext. intros st' rem' d' Hle.
  apply runTail_tail. destruct st'; simpl; lia.
Qed.

End Tail.

(** *** [feed] follows the run *)

Section Refine.
Variable antoi : bytes → option Z.

(** [feed]'s result [r] follows the run [t]. *)
Definition refines (r : result) (t : trace) : Prop :=
  match t_stop t with
  | Pending w => r = mkResult (mkParser (t_state t) w (t_rem t)) (t_cbs t) Returned
  | Failed e => callbacks r = t_cbs t ∧ exit r = Threw e
  | Completed _ => ∃ more, callbacks r = t_cbs t ++ more
  end.

Lemma refines_emit (cbs : list callback) (r : result) (t : trace) :
  refines r t → refines (emit cbs r) (temit cbs t).
Proof.
  unfold refines, emit, temit. simpl. destruct (t_stop t).
  - intros ->. done.
  - intros [more ->]. exists more. simpl. by rewrite app_assoc.
  - intros [-> ->]. done.
Qed.

(** The carry-over buffer while [feed] runs on [data]. *)
Definition bufOk (fromBuffer : bool) (data : bytes) (p : HttpResponseParser) : Prop :=
  buffer_ p = if fromBuffer then data else [].

Lemma skipToChar_from_offset (c : ascii) (throwOnEol : bool) (rest : bytes) (ptr : nat) :
  skipToChar_from c throwOnEol rest ptr
  = match skipToChar_from c throwOnEol rest 0 with
    | inl e => inl e
    | inr (found, k) => inr (found, ptr + k)
    end.
Proof.
  revert ptr. induction rest as [|x rest IH]; intros ptr; simpl.
  - f_equal. f_equal. lia.
  - destruct (Ascii.eqb x c); [f_equal; f_equal; lia|].
    destruct (throwOnEol && _); [done|].
    rewrite (IH (S ptr)), (IH 1).
    destruct (skipToChar_from c throwOnEol rest 0) as [e|[found k]]; [done|].
    f_equal. f_equal. lia.
Qed.

Lemma at_drop (data : bytes) (ptr k : nat) : at_ (drop ptr data) k = at_ data (ptr + k).
Proof. unfold at_. apply nth_skipn. Qed.

Lemma drop_at (data : bytes) (ptr : nat) :
  ptr < length data → drop ptr data = at_ data ptr :: drop (S ptr) data.
Proof.
  intros H. unfold at_. destruct (lookup_lt_is_Some_2 data ptr H) as [x Hx].
  rewrite (drop_S _ _ _ Hx). f_equal. symmetry. by apply nth_lookup_Some.
Qed.

Lemma handleHeader_parser (p : HttpResponseParser) (line : bytes) :
  handleHeader antoi p line
  = let h := handleHeader antoi (mkParser HEADERS [] (remainingBody_ p)) line in
    mkResult (mkParser (state_ p) (buffer_ p) (remainingBody_ (parser h)))
      (callbacks h) (exit h).
Proof.
  unfold handleHeader. destruct p as [st buf rem]. simpl.
  destruct (matchString _ _ _); [|done]. cbv zeta. by destruct (antoi _).
Qed.

Lemma handleHeader_threw (p : HttpResponseParser) (line : bytes) (e : Exception) :
  exit (handleHeader antoi p line) = Threw e →
  callbacks (handleHeader antoi p line) = []
  ∧ parser (handleHeader antoi p line) = p.
Proof.
  unfold handleHeader. destruct (matchString _ _ _); [|done].
  cbv zeta. by destruct (antoi _).
Qed.

Lemma runTail_nil (st : State) (rem : N) :
  runTail antoi st rem [] = mkTrace [] st rem (Pending []).
Proof. pose proof (runTail_eq antoi st rem []) as H. by injection H. Qed.

Lemma runTail_blank_pending (rem : N) :
  runTail antoi HEADERS rem [CR] = mkTrace [] HEADERS rem (Pending [CR]).
Proof. pose proof (runTail_eq antoi HEADERS rem [CR]) as H. by apply (inj Some) in H. Qed.

Lemma runTail_blank (rem : N) (y : ascii) (d : bytes) :
  runTail antoi HEADERS rem (CR :: y :: d)
  = if negb (Ascii.eqb y LF)
    then mkTrace [] HEADERS rem (Failed (MLException "expected \n"))
    else if (rem =? 0)%N
    then temit [OnDone] (runTail antoi STATUS_LINE rem d)
    else runTail antoi BODY rem d.
Proof.
  pose proof (runTail_eq antoi HEADERS rem (CR :: y :: d)) as H.
  apply (inj Some). rewrite H. unfold tailStep.
  change (Ascii.eqb CR CR) with true. cbv iota.
  destruct (negb _); [done|]. by destruct (rem =? 0)%N.
Qed.

(** The loop over the header lines follows the run. *)
Lemma headerLines_refines (fuel : nat) (fromBuffer : bool) (data : bytes)
    (p : HttpResponseParser) (ptr : nat) :
  bufOk fromBuffer data p → state_ p = HEADERS →
  ptr < length data → length data - ptr ≤ fuel →
  match headerLines antoi fuel fromBuffer data p ptr with
  | Leave r => refines r (runTail antoi HEADERS (remainingBody_ p) (drop ptr data))
  | Again p' ptr' cbs =>
      ptr ≤ ptr' ∧ ptr' < length data ∧ at_ data ptr' = CR
      ∧ bufOk fromBuffer data p' ∧ state_ p' = HEADERS
      ∧ runTail antoi HEADERS (remainingBody_ p) (drop ptr data)
        = temit cbs (runTail antoi HEADERS (remainingBody_ p') (drop ptr' data))
  end.
Proof.
  revert p ptr. induction fuel as [|fuel IH]; intros p ptr Hbuf Hst Hptr Hfuel; [lia|].
  rewrite headerLines_unfold.
  destruct (Ascii.eqb_spec (at_ data ptr) CR) as [Hcr|Hcr].
  { repeat split; try done. unfold temit. by destruct (runTail _ _ _ _). }
  set (d := drop ptr data).
  assert (Hd : d = at_ data ptr :: drop (S ptr) data) by (by apply drop_at).
  assert (Hlen : length d = length data - ptr) by apply length_drop.
  pose proof (runTail_eq antoi HEADERS (remainingBody_ p) d) as Heq.
  unfold tailStep in Heq. rewrite Hd in Heq. rewrite <- Hd in Heq.
  destruct (Ascii.eqb_spec (at_ data ptr) CR) as [|_]; [done|].
  unfold skipToChar. fold d. rewrite (skipToChar_from_offset _ _ d ptr).
  assert (Hstash : refines (stashHeader fromBuffer data p ptr)
            (mkTrace [] HEADERS (remainingBody_ p) (Pending d))).
  { unfold refines, stashHeader, ret. simpl. f_equal.
    destruct p as [st buf rem]. unfold bufOk in Hbuf. simpl in *. subst st.
    destruct ptr as [|ptr]; simpl.
    - destruct fromBuffer; simpl; [by subst buf|done].
    - done. }
  destruct (skipToChar_from ":" true d 0) as [e|[[] i]] eqn:E1.
  - injection Heq as ->. by unfold refines.
  - pose proof (skipToChar_from_bounds _ _ _ _ _ _ E1) as (_ & _ & Hi & _).
    destruct (Hi eq_refl) as [Hi' _]. clear Hi.
    replace (drop (ptr + i) data) with (drop i d) by (unfold d; by rewrite drop_drop).
    rewrite (skipToChar_from_offset _ _ (drop i d) (ptr + i)).
    rewrite (skipToChar_from_offset _ _ (drop i d) i) in Heq.
    destruct (skipToChar_from CR false (drop i d) 0) as [e|[[] k]] eqn:E2.
    + injection Heq as ->. by unfold refines.
    + pose proof (skipToChar_from_bounds _ _ _ _ _ _ E2) as (_ & _ & Hk & _).
      destruct (Hk eq_refl) as [Hk' _]. clear Hk. rewrite length_drop in Hk'.
      replace (ptr + i + k) with (ptr + (i + k)) by lia.
      set (j := i + k) in *.
      assert (Hj : j < length d) by (unfold j; simpl in *; lia).
      assert (Heqb : (S (ptr + j) =? length data) = (S j =? length d)).
      { destruct (Nat.eqb_spec (S (ptr + j)) (length data)),
          (Nat.eqb_spec (S j) (length d)); try done; lia. }
      rewrite Heqb.
      destruct (Nat.eqb_spec (S j) (length d)) as [Hend|Hend].
      { injection Heq as ->. exact Hstash. }
      assert (Hat : at_ data (S (ptr + j)) = at_ d (S j)).
      { unfold d. rewrite at_drop. f_equal. lia. }
      rewrite Hat.
      destruct (negb (Ascii.eqb (at_ d (S j)) LF)).
      { injection Heq as ->. by unfold refines. }
      cbv zeta in Heq |- *.
      assert (Hrange : range data ptr (S (S (ptr + j)) - 2) = take j d).
      { unfold range, d. f_equal. lia. }
      rewrite Hrange, handleHeader_parser. cbv zeta.
      set (h := handleHeader antoi (mkParser HEADERS [] (remainingBody_ p)) (take j d)) in *.
      simpl exit. simpl callbacks. simpl parser.
      assert (Hd2 : drop (S (S j)) d = drop (S (S (ptr + j))) data).
      { unfold d. rewrite drop_drop. f_equal. lia. }
      destruct (exit h) eqn:Eh.
      * simpl in Heq. injection Heq as Heq. rewrite Heq, Hd2.
        set (p' := mkParser (state_ p) (buffer_ p) (remainingBody_ (parser h))).
        destruct (Nat.eqb_spec (S (S (ptr + j))) (length data)) as [Hall|Hmore].
        -- apply refines_emit. rewrite drop_ge by lia. rewrite runTail_nil.
           unfold refines, clearIfFromBuffer, ret, p'. simpl.
           unfold bufOk in Hbuf. rewrite Hst.
           destruct fromBuffer; simpl; [done|by rewrite Hbuf].
        -- assert (Hok : bufOk fromBuffer data p') by exact Hbuf.
           specialize (IH p' (S (S (ptr + j))) Hok Hst ltac:(lia) ltac:(lia)).
           destruct (headerLines antoi fuel fromBuffer data p' (S (S (ptr + j))))
             as [p'' ptr'' cbs|r].
           ++ destruct IH as (H1 & H2 & H3 & H4 & H5 & H6).
              repeat split; try done; [lia|].
              simpl in H6. rewrite H6. unfold temit. simpl. by rewrite app_assoc.
           ++ by apply refines_emit.
      * injection Heq as ->. unfold refines. simpl.
        destruct (handleHeader_threw (mkParser HEADERS [] (remainingBody_ p))
                    (take j d) e Eh) as [Hc _].
        fold h in Hc. by rewrite Hc.
      * done.
    + injection Heq as ->. exact Hstash.
  - injection Heq as ->. exact Hstash.
Qed.

Lemma temit_temit (c1 c2 : list callback) (t : trace) :
  temit c1 (temit c2 t) = temit (c1 ++ c2) t.
Proof. unfold temit. simpl. by rewrite app_assoc. Qed.

(** [feed]'s loop follows the run. *)
Lemma feedLoop_refines (fuel : nat) (fromBuffer : bool) (data : bytes)
    (p : HttpResponseParser) (ptr : nat) :
  bufOk fromBuffer data p → ptr ≤ length data →
  2 * (length data - ptr) + (if decide (state_ p = BODY) then 1 else 0) < fuel →
  refines (feedLoop antoi fuel fromBuffer data p ptr)
    (runTail antoi (state_ p) (remainingBody_ p) (drop ptr data)).
Proof.
  revert p ptr. induction fuel as [|fuel IH]; intros p ptr Hbuf Hptr Hfuel; [lia|].
  rewrite feedLoop_unfold.
  destruct (Nat.eqb_spec ptr (length data)) as [Hall|Hmore].
  { rewrite drop_ge by lia. rewrite runTail_nil.
    unfold refines, clearIfFromBuffer, ret. simpl. f_equal.
    destruct p as [st buf rem]. unfold bufOk in Hbuf. simpl in *.
    destruct fromBuffer; simpl; [done|by rewrite Hbuf]. }
  assert (Hlt : ptr < length data) by lia.
  set (d := drop ptr data).
  assert (Hd : d = at_ data ptr :: drop (S ptr) data) by (by apply drop_at).
  assert (Hlen : length d = length data - ptr) by apply length_drop.
  pose proof (runTail_eq antoi (state_ p) (remainingBody_ p) d) as Heq.
  unfold tailStep in Heq. rewrite Hd in Heq. rewrite <- Hd in Heq.
  destruct (state_ p) eqn:Hst.
  - (* the status line: the run has stopped *)
    apply (inj Some) in Heq. rewrite Heq. unfold refines. simpl. eauto.
  - (* the headers *)
    unfold headers.
    pose proof (headerLines_refines (length data) fromBuffer data p ptr
                  Hbuf Hst Hlt ltac:(lia)) as Hh.
    destruct (headerLines antoi (length data) fromBuffer data p ptr)
      as [p' ptr' cbs|r]; [|done].
    destruct Hh as (H1 & H2 & H3 & H4 & H5 & H6).
    fold d in H6. rewrite H6. clear Heq.
    destruct (Nat.eqb_spec (ptr' + 1) (length data)) as [Hone|Htwo].
    { assert (Hd' : drop ptr' data = [CR]).
      { rewrite drop_at, H3 by done. by rewrite drop_ge by lia. }
      rewrite Hd', runTail_blank_pending. apply refines_emit.
      unfold refines, ret. simpl. f_equal.
      destruct p' as [st buf rem]. simpl in *. by subst st. }
    assert (Hd' : drop ptr' data
                  = CR :: at_ data (S ptr') :: drop (S (S ptr')) data).
    { rewrite drop_at, H3 by done. f_equal. apply drop_at. lia. }
    rewrite Hd', runTail_blank.
    destruct (negb (Ascii.eqb (at_ data (S ptr')) LF)).
    { apply refines_emit. by unfold refines. }
    assert (Hne : (length data =? 0) = false) by (apply Nat.eqb_neq; lia).
    rewrite Hne.
    destruct (remainingBody_ p' =? 0)%N eqn:Erem.
    + rewrite temit_temit. apply refines_emit.
      apply (IH (set_state p' STATUS_LINE) (S (S ptr'))); [done|lia|].
      simpl. lia.
    + rewrite app_nil_r. apply refines_emit.
      apply (IH (set_state p' BODY) (S (S ptr'))); [done|lia|].
      simpl. lia.
  - (* the body *)
    simpl in Hfuel.
    unfold body. cbv zeta in Heq |- *. rewrite <- Hlen.
    set (chunk := N.to_nat (N.min (N.of_nat (length d)) (remainingBody_ p))) in *.
    assert (Hchunk : chunk ≤ length d) by (unfold chunk; lia).
    assert (Hrange : range data ptr (ptr + chunk) = take chunk d).
    { unfold range, d. f_equal. lia. }
    assert (Hdrop : drop chunk d = drop (ptr + chunk) data).
    { unfold d. by rewrite drop_drop. }
    rewrite Hrange. simpl remainingBody_.
    destruct (remainingBody_ p - N.of_nat chunk =? 0)%N eqn:Erem.
    + simpl in Heq. apply (inj Some) in Heq. rewrite Heq, Hdrop.
      apply refines_emit.
      apply (IH (set_state (set_remainingBody p _) STATUS_LINE) (ptr + chunk));
        [done|lia|].
      simpl. lia.
    + simpl in Heq. apply (inj Some) in Heq. rewrite Heq, Hdrop.
      apply refines_emit.
      assert (Hpos : 0 < chunk).
      { apply N.eqb_neq in Erem. unfold chunk in *. lia. }
      pose proof (IH (set_remainingBody p (remainingBody_ p - N.of_nat chunk))
                    (ptr + chunk)) as IH'.
      simpl in IH'. rewrite Hst in IH'. apply IH'; [done|lia|].
      simpl. lia.
Qed.

End Refine.

(** *** More bytes after the input continue the run *)

(** The callbacks with every [onData] range cut into single bytes: two
    sequences of callbacks with the same [events] differ only in where the
    body is cut into [onData] ranges. *)
Definition events (cbs : list callback) : list callback :=
  flat_map (λ cb, match cb with
                  | OnData d => map (λ x, OnData [x]) d
                  | _ => [cb]
                  end) cbs.

Lemma events_app (c1 c2 : list callback) : events (c1 ++ c2) = events c1 ++ events c2.
Proof. apply flat_map_app. Qed.

Lemma events_data (a b : bytes) (cbs : list callback) :
  events (OnData (a ++ b) :: cbs) = events (OnData a :: OnData b :: cbs).
Proof. unfold events. simpl. by rewrite map_app, <- app_assoc. Qed.

Section Extend.
Variable antoi : bytes → option Z.

Definition tequiv (t1 t2 : trace) : Prop :=
  events (t_cbs t1) = events (t_cbs t2)
  ∧ t_state t1 = t_state t2 ∧ t_rem t1 = t_rem t2 ∧ t_stop t1 = t_stop t2.

Lemma tequiv_refl (t : trace) : tequiv t t.
Proof. done. Qed.

Lemma tequiv_temit (cbs : list callback) (t1 t2 : trace) :
  tequiv t1 t2 → tequiv (temit cbs t1) (temit cbs t2).
Proof.
  intros (H1 & H2 & H3 & H4). unfold tequiv, temit. simpl.
  rewrite !events_app, H1. done.
Qed.

Lemma temit_nil (t : trace) : temit [] t = t.
Proof. by destruct t. Qed.

(** The run [tab] over [a ++ b] continues the run [ta] over [a]. *)
Definition continues (ta tab : trace) (b : bytes) : Prop :=
  match t_stop ta with
  | Pending w =>
      tequiv tab (temit (t_cbs ta) (runTail antoi (t_state ta) (t_rem ta) (w ++ b)))
  | Completed rest =>
      tab = mkTrace (t_cbs ta) (t_state ta) (t_rem ta) (Completed (rest ++ b))
  | Failed e => tab = ta
  end.

Lemma continues_temit (cbs : list callback) (ta tab : trace) (b : bytes) :
  continues ta tab b → continues (temit cbs ta) (temit cbs tab) b.
Proof.
  unfold continues. simpl. destruct (t_stop ta).
  - intros H. rewrite <- temit_temit. by apply tequiv_temit.
  - intros ->. done.
  - intros ->. done.
Qed.

Lemma runTail_status (rem : N) (d : bytes) :
  d ≠ [] → runTail antoi STATUS_LINE rem d = mkTrace [] STATUS_LINE rem (Completed d).
Proof.
  intros Hd. pose proof (runTail_eq antoi STATUS_LINE rem d) as H.
  apply (inj Some). rewrite H. by destruct d.
Qed.

Lemma runTail_body (rem : N) (d : bytes) :
  d ≠ [] →
  runTail antoi BODY rem d
  = let chunk := N.to_nat (N.min (N.of_nat (length d)) rem) in
    let rem' := (rem - N.of_nat chunk)%N in
    if (rem' =? 0)%N
    then temit [OnData (take chunk d); OnDone]
           (runTail antoi STATUS_LINE rem' (drop chunk d))
    else temit [OnData (take chunk d)] (runTail antoi BODY rem' (drop chunk d)).
Proof.
  intros Hd. pose proof (runTail_eq antoi BODY rem d) as H.
  apply (inj Some). rewrite H. destruct d as [|x d0]; [done|].
  unfold tailStep. cbv zeta. by destruct (_ =? 0)%N.
Qed.

Lemma runTail_header (rem : N) (x : ascii) (d0 : bytes) :
  x ≠ CR →
  let d := x :: d0 in
  runTail antoi HEADERS rem d
  = match skipToChar_from ":" true d 0 with
    | inl e => mkTrace [] HEADERS rem (Failed e)
    | inr (false, _) => mkTrace [] HEADERS rem (Pending d)
    | inr (true, i) =>
        match skipToChar_from CR false (drop i d) i with
        | inl e => mkTrace [] HEADERS rem (Failed e)
        | inr (false, _) => mkTrace [] HEADERS rem (Pending d)
        | inr (true, j) =>
            if S j =? length d then mkTrace [] HEADERS rem (Pending d)
            else if negb (Ascii.eqb (at_ d (S j)) LF)
            then mkTrace [] HEADERS rem (Failed (MLException "expected \n"))
            else
              let h := handleHeader antoi (mkParser HEADERS [] rem) (take j d) in
              match exit h with
              | Threw e => mkTrace [] HEADERS rem (Failed e)
              | _ =>
                  temit (callbacks h)
                    (runTail antoi HEADERS (remainingBody_ (parser h))
                       (drop (S (S j)) d))
              end
        end
    end.
Proof.
  intros Hx d. pose proof (runTail_eq antoi HEADERS rem d) as H.
  apply (inj Some). rewrite H. unfold tailStep. subst d. cbv beta iota.
  assert (E : Ascii.eqb x CR = false) by (by apply Ascii.eqb_neq).
  rewrite E. set (d := x :: d0).
  destruct (skipToChar_from ":" true d 0) as [e|[[] i]]; try done.
  destruct (skipToChar_from CR false (drop i d) i) as [e|[[] j]]; try done.
  destruct (S j =? length d); [done|].
  destruct (negb _); [done|]. cbv zeta.
  pose proof (handleHeader_exit antoi (mkParser HEADERS [] rem) (take j d)) as Hh.
  by destruct (exit _).
Qed.

Lemma continues_status (rem : N) (a b : bytes) :
  continues (runTail antoi STATUS_LINE rem a) (runTail antoi STATUS_LINE rem (a ++ b)) b.
Proof.
  destruct a as [|x a].
  - rewrite runTail_nil. unfold continues. simpl. rewrite temit_nil. apply tequiv_refl.
  - rewrite !runTail_status by done. done.
Qed.

Lemma scan_app (c : ascii) (throwOnEol : bool) (a b : bytes) (ptr : nat) :
  match skipToChar_from c throwOnEol a ptr with
  | inl e => skipToChar_from c throwOnEol (a ++ b) ptr = inl e
  | inr (true, i) => skipToChar_from c throwOnEol (a ++ b) ptr = inr (true, i)
  | inr (false, _) => True
  end.
Proof.
  revert ptr. induction a as [|x a IH]; intros ptr; simpl; [done|].
  destruct (Ascii.eqb x c); [done|].
  destruct (throwOnEol && _); [done|]. apply IH.
Qed.


Lemma at_app_l (a b : bytes) (k : nat) : k < length a → at_ (a ++ b) k = at_ a k.
Proof. intros H. unfold at_. by apply app_nth1. Qed.

(** The run over [a ++ b] is the run over [a] followed by the run over what
    it left and [b]. *)
Lemma runTail_app (a : bytes) :
  ∀ st rem b, continues (runTail antoi st rem a) (runTail antoi st rem (a ++ b)) b.
Proof.
  induction a as [a IH] using (induction_ltof1 _ (@length ascii)).
  unfold ltof in IH. intros st rem b.
  destruct a as [|x a0].
  { rewrite runTail_nil. unfold continues. simpl. rewrite temit_nil.
    apply tequiv_refl. }
  set (a := x :: a0) in *.
  assert (Ha : a ≠ []) by done.
  assert (Hab : a ++ b ≠ []) by done.
  destruct st.
  - apply continues_status.
  - (* the headers *)
    destruct (Ascii.eqb_spec x CR) as [->|Hx].
    { subst a. destruct a0 as [|y a'].
      - rewrite runTail_blank_pending. unfold continues. simpl.
        rewrite temit_nil. apply tequiv_refl.
      - change ((CR :: y :: a') ++ b) with (CR :: y :: (a' ++ b)).
        rewrite !runTail_blank. destruct (negb _); [done|].
        destruct (rem =? 0)%N.
        + apply continues_temit, continues_status.
        + apply IH. simpl. lia. }
    assert (Hpend : continues (mkTrace [] HEADERS rem (Pending a))
                      (runTail antoi HEADERS rem (a ++ b)) b).
    { unfold continues. simpl. rewrite temit_nil. apply tequiv_refl. }
    pose proof (runTail_header rem x a0 Hx) as Ra. cbv zeta in Ra.
    pose proof (runTail_header rem x (a0 ++ b) Hx) as Rab. cbv zeta in Rab.
    change (x :: a0) with a in Ra.
    change (x :: a0 ++ b) with (a ++ b) in Rab.
    pose proof (scan_app ":" true a b 0) as S1.
    destruct (skipToChar_from ":" true a 0) as [e|[[] i]] eqn:E1.
    + (* a line break before the colon *)
      rewrite S1 in Rab. by rewrite Ra, Rab.
    + pose proof (skipToChar_from_bounds _ _ _ _ _ _ E1) as (_ & _ & Hi & _).
      destruct (Hi eq_refl) as [Hi' _]. clear Hi.
      rewrite S1, drop_app_le in Rab by lia.
      pose proof (scan_app CR false (drop i a) b i) as S2.
      destruct (skipToChar_from CR false (drop i a) i) as [e|[[] j]] eqn:E2.
      * rewrite S2 in Rab. by rewrite Ra, Rab.
      * pose proof (skipToChar_from_bounds _ _ _ _ _ _ E2) as (Hij & _ & Hj & _).
        destruct (Hj eq_refl) as [Hj' _]. clear Hj. rewrite length_drop in Hj'.
        rewrite S2 in Rab.
        destruct (Nat.eqb_spec (S j) (length a)) as [Hend|Hend];
          [by rewrite Ra|].
        destruct (Nat.eqb_spec (S j) (length (a ++ b))) as [Hend'|_].
        { rewrite length_app in Hend'. lia. }
        rewrite at_app_l in Rab by lia.
        destruct (negb _); [by rewrite Ra, Rab|].
        rewrite take_app_le, drop_app_le in Rab by lia.
        assert (Hshort : length (drop (S (S j)) a) < length a).
        { rewrite length_drop. lia. }
        rewrite Ra, Rab.
        destruct (exit _); try done.
        -- apply continues_temit, IH, Hshort.
        -- apply continues_temit, IH, Hshort.
      * by rewrite Ra.
    + by rewrite Ra.
  - (* the body *)
    rewrite (runTail_body rem a) by done. cbv zeta.
    destruct (N.le_gt_cases rem (N.of_nat (length a))) as [Hle|Hgt].
    + (* the body ends within [a] *)
      rewrite (runTail_body rem (a ++ b)) by done. cbv zeta.
      rewrite length_app.
      replace (N.min (N.of_nat (length a + length b)) rem) with rem by lia.
      replace (N.min (N.of_nat (length a)) rem) with rem by lia.
      rewrite !N2Nat.id, N.sub_diag, N.eqb_refl.
      rewrite take_app_le, drop_app_le by lia.
      apply continues_temit, continues_status.
    + (* the body goes on after [a] *)
      replace (N.min (N.of_nat (length a)) rem) with (N.of_nat (length a)) by lia.
      rewrite Nat2N.id.
      destruct (N.eqb_spec (rem - N.of_nat (length a)) 0) as [|_]; [lia|].
      rewrite firstn_all, drop_all, runTail_nil.
      change (tequiv (runTail antoi BODY rem (a ++ b))
                (temit [OnData a]
                   (runTail antoi BODY (rem - N.of_nat (length a)) b))).
      destruct b as [|y b0].
      { rewrite app_nil_r, runTail_nil, (runTail_body rem a) by done. cbv zeta.
        replace (N.min (N.of_nat (length a)) rem) with (N.of_nat (length a)) by lia.
        rewrite Nat2N.id.
        destruct (N.eqb_spec (rem - N.of_nat (length a)) 0) as [|_]; [lia|].
        rewrite firstn_all, drop_all, runTail_nil. apply tequiv_refl. }
      set (b := y :: b0) in *.
      rewrite (runTail_body rem (a ++ b)) by done.
      rewrite (runTail_body (rem - N.of_nat (length a)) b) by done. cbv zeta.
      rewrite length_app.
      set (chunk := N.to_nat (N.min (N.of_nat (length b)) (rem - N.of_nat (length a)))).
      assert (Hchunk : N.to_nat (N.min (N.of_nat (length a + length b)) rem)
                       = length a + chunk) by (unfold chunk; lia).
      rewrite Hchunk.
      replace (rem - N.of_nat (length a + chunk))%N
        with (rem - N.of_nat (length a) - N.of_nat chunk)%N by lia.
      rewrite take_app_add, drop_app_add.
      destruct (_ =? 0)%N; rewrite temit_temit; unfold tequiv, temit;
        cbn [t_cbs t_state t_rem t_stop]; rewrite !events_app;
        (split; [f_equal; rewrite <- events_app; apply events_data|done]).
Qed.

End Extend.

(** *** Calls in sequence *)

Lemma events_done (cbs : list callback) : OnDone ∈ events cbs ↔ OnDone ∈ cbs.
Proof.
  unfold events. induction cbs as [|cb cbs IH]; simpl; [done|].
  rewrite elem_of_app, elem_of_cons, IH.
  destruct cb; simpl; rewrite ?list_elem_of_singleton; try (intuition congruence).
  rewrite list_elem_of_fmap. split.
  - intros [(x & Hx & _)|H]; [done|by right].
  - intros [H|H]; [done|by right].
Qed.

Section Chunks.
Variable antoi : bytes → option Z.


(** [feed] follows the run over the carry-over buffer and the new bytes. *)
Lemma feed_refines (p : HttpResponseParser) (c : bytes) :
  refines (feed antoi p c)
    (runTail antoi (state_ p) (remainingBody_ p) (buffer_ p ++ c)).
Proof.
  unfold feed. destruct (Nat.ltb_spec 0 (length (buffer_ p))) as [Hbuf|Hbuf].
  - cbv zeta. simpl buffer_.
    pose proof (feedLoop_refines antoi (feedFuel (buffer_ p ++ c)) true
                  (buffer_ p ++ c) (set_buffer p (buffer_ p ++ c)) 0) as H.
    rewrite drop_0 in H. apply H; [done|lia|].
    unfold feedFuel. destruct (decide _); lia.
  - assert (Hnil : buffer_ p = []) by (apply length_zero_iff_nil; lia).
    rewrite Hnil. simpl.
    pose proof (feedLoop_refines antoi (feedFuel c) false c p 0) as H.
    rewrite drop_0 in H. apply H; [done|lia|].
    unfold feedFuel. destruct (decide _); lia.
Qed.

(** What a returned call left in the buffer makes no progress alone. *)
Definition settled (p : HttpResponseParser) : Prop :=
  tequiv (runTail antoi (state_ p) (remainingBody_ p) (buffer_ p))
    (mkTrace [] (state_ p) (remainingBody_ p) (Pending (buffer_ p))).

Lemma settled_after (st : State) (rem : N) (a w : bytes) :
  t_stop (runTail antoi st rem a) = Pending w →
  settled (mkParser (t_state (runTail antoi st rem a)) w
             (t_rem (runTail antoi st rem a))).
Proof.
  intros Hstop. pose proof (runTail_app antoi a st rem []) as H.
  unfold continues in H. rewrite Hstop, !app_nil_r in H.
  destruct H as (He & Hs & Hr & Hp). unfold temit in *. simpl in *.
  rewrite events_app in He.
  unfold settled, tequiv. simpl. rewrite <- Hs, <- Hr, <- Hp, Hstop.
  repeat split; try done.
  symmetry in He. rewrite <- (app_nil_r (events _)) in He at 2.
  by apply app_inv_head in He.
Qed.

(** [feedAll] on [c :: chunks], seen from the result of the first call. *)
Definition andThen (r : result) (chunks : list bytes) : result :=
  match exit r with
  | Returned => emit (callbacks r) (feedAll antoi (parser r) chunks)
  | _ => r
  end.

(** The calls so far agree with a run that has not come back to the status
    line. *)
Definition follows (r : result) (t : trace) : Prop :=
  match t_stop t with
  | Pending w =>
      events (callbacks r) = events (t_cbs t)
      ∧ exit r = Returned
      ∧ parser r = mkParser (t_state t) w (t_rem t)
  | Failed e => events (callbacks r) = events (t_cbs t) ∧ exit r = Threw e
  | Completed _ => True
  end.

Lemma andThen_emit (cbs : list callback) (r : result) (chunks : list bytes) :
  andThen (emit cbs r) chunks = emit cbs (andThen r chunks).
Proof.
  destruct r as [p cbs' []]; unfold andThen, emit; simpl; try done.
  by rewrite app_assoc.
Qed.

Lemma follows_emit (cbs : list callback) (r : result) (t : trace) :
  follows r t → follows (emit cbs r) (temit cbs t).
Proof.
  unfold follows, emit, temit. simpl. destruct (t_stop t); [|done|].
  - intros (H1 & H2 & H3). by rewrite !events_app, H1.
  - intros (H1 & H2). by rewrite !events_app, H1.
Qed.

Lemma andThen_follows (chunks : list bytes) (r : result) (st : State) (rem : N)
    (d : bytes) :
  (∀ p, settled p →
     follows (feedAll antoi p chunks)
       (runTail antoi (state_ p) (remainingBody_ p) (buffer_ p ++ concat chunks))) →
  refines r (runTail antoi st rem d) →
  follows (andThen r chunks) (runTail antoi st rem (d ++ concat chunks)).
Proof.
  intros IH Href.
  pose proof (runTail_app antoi d st rem (concat chunks)) as Hext.
  set (t1 := runTail antoi st rem d) in *.
  set (t := runTail antoi st rem (d ++ concat chunks)) in *.
  unfold refines in Href. unfold continues in Hext. unfold follows, andThen.
  destruct (t_stop t1) as [w1|rest|e] eqn:Hstop1.
  - rewrite Href. simpl.
    pose proof (settled_after _ _ _ _ Hstop1) as Hset1. fold t1 in Hset1.
    specialize (IH _ Hset1). unfold follows in IH. simpl in IH.
    destruct Hext as (He & Hs & Hr & Hp). unfold temit in *. simpl in *.
    rewrite Hp, Hs, Hr, He.
    destruct (t_stop (runTail antoi (t_state t1) (t_rem t1) (w1 ++ concat chunks)));
      try done.
    + destruct IH as (IH1 & IH2 & IH3). rewrite !events_app, IH1. done.
    + destruct IH as (IH1 & IH2). rewrite !events_app, IH1. done.
  - rewrite Hext. done.
  - rewrite Hext, Hstop1. destruct Href as [Hc He]. rewrite He. by rewrite Hc.
Qed.

Lemma feedAll_follows (chunks : list bytes) (p : HttpResponseParser) :
  settled p →
  follows (feedAll antoi p chunks)
    (runTail antoi (state_ p) (remainingBody_ p) (buffer_ p ++ concat chunks)).
Proof.
  revert p. induction chunks as [|c chunks IH]; intros p Hset.
  - simpl. rewrite app_nil_r. destruct Hset as (He & Hs & Hr & Hp). simpl in *.
    unfold follows. rewrite Hp, He, Hs, Hr. by destruct p.
  - simpl concat. rewrite app_assoc.
    change (feedAll antoi p (c :: chunks)) with (andThen (feed antoi p c) chunks).
    apply andThen_follows; [exact IH|apply feed_refines].
Qed.

(** One call on the whole input and the calls so far, on the same run. *)
Lemma follows_refines (parts whole : result) (t : trace) :
  follows parts t → refines whole t → (∀ rest, t_stop t ≠ Completed rest) →
  events (callbacks parts) = events (callbacks whole)
  ∧ exit parts = exit whole
  ∧ exit whole ≠ Diverged
  ∧ (exit whole = Returned → parser parts = parser whole).
Proof.
  unfold follows, refines. intros Hparts Hwhole Hesc.
  destruct (t_stop t) as [w|rest|e].
  - destruct Hparts as (H1 & H2 & H3). rewrite Hwhole. simpl. by rewrite H1, H2, H3.
  - by destruct (Hesc rest).
  - destruct Hparts as (H1 & H2). destruct Hwhole as (H3 & H4).
    by rewrite H1, H2, H3, H4.
Qed.

End Chunks.

(** *** Runs that end before the next status line *)

Section Escape.
Variable antoi : bytes → option Z.

Lemma scan_take (c : ascii) (throwOnEol : bool) (a b : bytes) (ptr i : nat) :
  skipToChar_from c throwOnEol (a ++ b) ptr = inr (true, i) →
  i < ptr + length a →
  skipToChar_from c throwOnEol a ptr = inr (true, i).
Proof.
  revert ptr. induction a as [|x a IH]; intros ptr H Hi.
  - apply skipToChar_from_bounds in H as (H & _). simpl in Hi. lia.
  - simpl in *. destruct (Ascii.eqb x c); [done|].
    destruct (throwOnEol && _); [done|]. apply IH; [done|lia].
Qed.

Lemma refines_callbacks (r : result) (t : trace) (cb : callback) :
  refines r t → cb ∈ t_cbs t → cb ∈ callbacks r.
Proof.
  unfold refines. destruct (t_stop t).
  - by intros ->.
  - intros [more ->] H. apply elem_of_app. by left.
  - by intros [-> _].
Qed.

(** A run that gets back to the status line has seen the end of a response
    strictly before the bytes it did not look at. *)
Lemma completed_done (d : bytes) :
  ∀ st rem rest, st ≠ STATUS_LINE → (st = BODY → rem ≠ 0%N) →
    t_stop (runTail antoi st rem d) = Completed rest →
    rest ≠ [] ∧ ∃ c, d = c ++ rest ∧ OnDone ∈ events (t_cbs (runTail antoi st rem c)).
Proof.
  induction d as [d IH] using (induction_ltof1 _ (@length ascii)).
  unfold ltof in IH. intros st rem rest Hst Hrem Hstop.
  destruct d as [|x d0]; [by rewrite runTail_nil in Hstop|].
  destruct st; [done| |].
  - (* the headers *)
    destruct (Ascii.eqb_spec x CR) as [->|Hx].
    { destruct d0 as [|y d']; [by rewrite runTail_blank_pending in Hstop|].
      rewrite runTail_blank in Hstop.
      destruct (Ascii.eqb_spec y LF) as [->|Hy]; [|done]. simpl negb in Hstop.
      cbv iota in Hstop.
      destruct (N.eqb_spec rem 0) as [Hz|Hz].
      - destruct d' as [|z d'']; [by rewrite runTail_nil in Hstop|].
        rewrite runTail_status in Hstop by done. simpl in Hstop.
        injection Hstop as <-. split; [done|]. exists [CR; LF]. split; [done|].
        rewrite runTail_blank. simpl negb. cbv iota.
        destruct (N.eqb_spec rem 0); [|done]. rewrite runTail_nil.
        apply events_done. simpl. repeat constructor.
      - destruct (IH d' ltac:(simpl; lia) BODY rem rest) as (Hne & c & -> & Hc);
          [done|done|done|].
        split; [done|]. exists (CR :: LF :: c). split; [done|].
        rewrite runTail_blank. simpl negb. cbv iota.
        by destruct (N.eqb_spec rem 0). }
    set (d := x :: d0) in *.
    pose proof (runTail_header antoi rem x d0 Hx) as R. cbv zeta in R.
    change (x :: d0) with d in R. rewrite R in Hstop.
    destruct (skipToChar_from ":" true d 0) as [e|[[] i]] eqn:E1; try done.
    destruct (skipToChar_from CR false (drop i d) i) as [e|[[] j]] eqn:E2; try done.
    pose proof (skipToChar_from_bounds _ _ _ _ _ _ E1) as (_ & _ & Hi & _).
    destruct (Hi eq_refl) as [Hi' _]. clear Hi.
    pose proof (skipToChar_from_bounds _ _ _ _ _ _ E2) as (Hij & _ & Hj & _).
    destruct (Hj eq_refl) as [Hj' _]. clear Hj. rewrite length_drop in Hj'.
    destruct (Nat.eqb_spec (S j) (length d)) as [Hend|Hend]; [done|].
    destruct (negb (Ascii.eqb (at_ d (S j)) LF)) eqn:Hlf; [done|].
    cbv zeta in Hstop.
    set (h := handleHeader antoi (mkParser HEADERS [] rem) (take j d)) in *.
    set (P := take (S (S j)) d).
    assert (HP : d = P ++ drop (S (S j)) d) by (symmetry; apply take_drop).
    assert (HlenP : length P = S (S j)) by (unfold P; rewrite length_take; lia).
    assert (RP : runTail antoi HEADERS rem P
                 = match exit h with
                   | Threw e => mkTrace [] HEADERS rem (Failed e)
                   | _ => temit (callbacks h)
                            (mkTrace [] HEADERS (remainingBody_ (parser h)) (Pending []))
                   end).
    { assert (HPx : P = x :: take (S j) d0) by done.
      pose proof (runTail_header antoi rem x (take (S j) d0) Hx) as R'.
      cbv zeta in R'. rewrite <- HPx in R'. rewrite R'.
      rewrite HP in E1. apply scan_take in E1; [|lia]. rewrite E1.
      rewrite HP, drop_app_le in E2 by lia. apply scan_take in E2;
        [|rewrite length_drop; lia].
      rewrite E2, HlenP.
      destruct (Nat.eqb_spec (S j) (S (S j))) as [|_]; [lia|].
      rewrite HP, at_app_l in Hlf by lia. rewrite Hlf.
      assert (Htk : take j P = take j d).
      { unfold P. rewrite take_take. f_equal. lia. }
      rewrite Htk. fold h. rewrite drop_ge by lia. rewrite runTail_nil. done. }
    assert (Hinner : t_stop (runTail antoi HEADERS (remainingBody_ (parser h))
                               (drop (S (S j)) d)) = Completed rest ∧ exit h ≠ Diverged
                     ∧ ∀ e, exit h ≠ Threw e).
    { pose proof (handleHeader_exit antoi (mkParser HEADERS [] rem) (take j d)) as Hh.
      fold h in Hh. destruct (exit h); try done. }
    destruct Hinner as (Hinner & Hnd & Hnt).
    destruct (IH (drop (S (S j)) d) ltac:(rewrite length_drop; lia)
                HEADERS (remainingBody_ (parser h)) rest ltac:(done) ltac:(done) Hinner)
      as (Hne & c & Hc & Hdone).
    split; [done|]. exists (P ++ c). split.
    { rewrite <- app_assoc, <- Hc. exact HP. }
    clearbody P.
    pose proof (runTail_app antoi P HEADERS rem c) as Hext.
    unfold continues in Hext. rewrite RP in Hext.
    destruct (exit h) eqn:Hexit; [|by destruct (Hnt e)|done].
    simpl in Hext. destruct Hext as (He & _). rewrite He.
    unfold temit. simpl. rewrite !events_app. apply elem_of_app. by right.
  - (* the body *)
    specialize (Hrem eq_refl).
    set (d := x :: d0) in *. assert (Hd : d ≠ []) by done.
    rewrite (runTail_body antoi rem d Hd) in Hstop. cbv zeta in Hstop.
    destruct (N.le_gt_cases rem (N.of_nat (length d))) as [Hle|Hgt].
    + replace (N.min (N.of_nat (length d)) rem) with rem in Hstop by lia.
      rewrite N2Nat.id, N.sub_diag, N.eqb_refl in Hstop.
      destruct (drop (N.to_nat rem) d) as [|z r] eqn:Hdrop;
        [by rewrite runTail_nil in Hstop|].
      rewrite runTail_status in Hstop by done. simpl in Hstop.
      injection Hstop as <-. split; [done|].
      exists (take (N.to_nat rem) d). split.
      { rewrite <- Hdrop. symmetry. apply take_drop. }
      assert (Hc : take (N.to_nat rem) d ≠ []).
      { intros Hnil. apply (f_equal length) in Hnil.
        rewrite length_take in Hnil. simpl in Hnil. subst d. simpl in *. lia. }
      rewrite (runTail_body antoi rem _ Hc). cbv zeta.
      rewrite length_take.
      replace (N.min (N.of_nat (N.to_nat rem `min` length d)) rem) with rem by lia.
      rewrite N2Nat.id, N.sub_diag, N.eqb_refl.
      apply events_done. simpl. repeat constructor.
    + replace (N.min (N.of_nat (length d)) rem) with (N.of_nat (length d)) in Hstop by lia.
      rewrite Nat2N.id in Hstop.
      destruct (N.eqb_spec (rem - N.of_nat (length d)) 0) as [|_]; [lia|].
      by rewrite drop_all, runTail_nil in Hstop.
Qed.

Lemma removelast_app_ne (c rest : bytes) :
  rest ≠ [] → removelast (c ++ rest) = c ++ removelast rest.
Proof. intros H. by apply removelast_app. Qed.

(** If no response ends before the last byte, the run does not get back to
    the status line with bytes left over. *)
Lemma no_escape (st : State) (rem : N) (d rest : bytes) :
  st ≠ STATUS_LINE → (st = BODY → rem ≠ 0%N) →
  OnDone ∉ t_cbs (runTail antoi st rem (removelast d)) →
  t_stop (runTail antoi st rem d) ≠ Completed rest.
Proof.
  intros Hst Hrem Hno Hstop.
  destruct (completed_done d st rem rest Hst Hrem Hstop) as (Hne & c & -> & Hdone).
  apply Hno. rewrite removelast_app_ne by done.
  pose proof (runTail_app antoi c st rem (removelast rest)) as Hext.
  unfold continues in Hext.
  destruct (t_stop (runTail antoi st rem c)).
  - destruct Hext as (He & _). apply events_done. rewrite He.
    unfold temit. simpl. rewrite events_app. apply elem_of_app. by left.
  - rewrite Hext. simpl. by apply events_done.
  - rewrite Hext. by apply events_done.
Qed.

Lemma feed_chunks (p : HttpResponseParser) (chunks : list bytes) :
  state_ p ≠ STATUS_LINE →
  buffer_ p = [] →
  (state_ p = BODY → remainingBody_ p ≠ 0%N) →
  OnDone ∉ callbacks (feed antoi p (removelast (concat chunks))) →
  events (callbacks (feedAll antoi p chunks))
    = events (callbacks (feed antoi p (concat chunks)))
  ∧ exit (feedAll antoi p chunks) = exit (feed antoi p (concat chunks))
  ∧ exit (feed antoi p (concat chunks)) ≠ Diverged
  ∧ (exit (feed antoi p (concat chunks)) = Returned →
     parser (feedAll antoi p chunks) = parser (feed antoi p (concat chunks))).
Proof.
  intros Hst Hbuf Hrem Hno.
  pose proof (feed_refines antoi p (concat chunks)) as Hwhole.
  pose proof (feed_refines antoi p (removelast (concat chunks))) as Hlast.
  rewrite Hbuf in Hwhole, Hlast. simpl in Hwhole, Hlast.
  assert (Hset : settled antoi p).
  { unfold settled. rewrite Hbuf, runTail_nil. done. }
  pose proof (feedAll_follows antoi chunks p Hset) as Hparts.
  rewrite Hbuf in Hparts. simpl in Hparts.
  apply (follows_refines _ _ _ Hparts Hwhole).
  intros rest. apply no_escape; [done|done|].
  intros Hin. apply Hno. by eapply refines_callbacks.
Qed.

End Escape.

(** *** The status line *)

Lemma skipToChar_app (c : ascii) (throwOnEol : bool) (a b : bytes) (ptr i : nat) :
  ptr ≤ length a →
  skipToChar c throwOnEol a ptr = inr (true, i) →
  skipToChar c throwOnEol (a ++ b) ptr = inr (true, i) ∧ ptr ≤ i ∧ i < length a.
Proof.
  unfold skipToChar. intros Hptr H. rewrite drop_app_le by done.
  pose proof (scan_app c throwOnEol (drop ptr a) b ptr) as Happ.
  rewrite H in Happ. split; [done|].
  apply skipToChar_from_bounds in H as (H1 & _ & H2 & _).
  destruct (H2 eq_refl) as [H3 _]. rewrite length_drop in H3. lia.
Qed.

Lemma range_app_l (a b : bytes) (first last : nat) :
  first ≤ last → last ≤ length a → range (a ++ b) first last = range a first last.
Proof.
  intros H1 H2. unfold range. rewrite drop_app_le by lia.
  rewrite take_app_le; [done|]. rewrite length_drop. lia.
Qed.

Lemma skipToChar_bounds (c : ascii) (throwOnEol : bool) (data : bytes)
    (ptr : nat) (found : bool) (ptr' : nat) :
  ptr ≤ length data →
  skipToChar c throwOnEol data ptr = inr (found, ptr') →
  ptr ≤ ptr' ∧ ptr' ≤ length data ∧ (found = true → ptr' < length data).
Proof.
  unfold skipToChar. intros Hptr H.
  apply skipToChar_from_bounds in H as (H1 & H2 & H3 & _).
  rewrite length_drop in *. split; [done|]. split; [lia|].
  intros Hf. destruct (H3 Hf). lia.
Qed.

Lemma range_take (A : bytes) (k first last : nat) :
  first ≤ last → last ≤ k → k ≤ length A →
  range (take k A) first last = range A first last.
Proof.
  intros H1 H2 H3.
  rewrite <- (range_app_l (take k A) (drop k A)) by (rewrite ?length_take; lia).
  by rewrite take_drop.
Qed.

Lemma at_take (A : bytes) (k i : nat) :
  i < k → k ≤ length A → at_ (take k A) i = at_ A i.
Proof.
  intros H1 H2.
  rewrite <- (at_app_l (take k A) (drop k A)) by (rewrite length_take; lia).
  by rewrite take_drop.
Qed.

(** A prefix of the data that holds the byte found answers the scan as the
    data does, whatever follows it. *)
Lemma skipToChar_take (c : ascii) (throwOnEol : bool) (A d : bytes) (k ptr i : nat) :
  ptr ≤ k → k ≤ length A → i < k →
  skipToChar c throwOnEol A ptr = inr (true, i) →
  skipToChar c throwOnEol (take k A ++ d) ptr = inr (true, i).
Proof.
  intros Hptr Hk Hi H.
  assert (Htake : skipToChar c throwOnEol (take k A) ptr = inr (true, i)).
  { unfold skipToChar in *. rewrite <- (take_drop k A) in H.
    rewrite drop_app_le in H by (rewrite length_take; lia).
    apply scan_take in H; [done|]. rewrite length_drop, length_take. lia. }
  apply skipToChar_app; [rewrite length_take; lia | done].
Qed.

Section Status.
Variable antoi : bytes → option Z.

(** When the status line is whole in [a], a call on [a] and any bytes after
    it reports the response start and goes on with the header lines. *)
Lemma feed_status (a : bytes) (p : HttpResponseParser) (v : bytes) (code : Z) :
  state_ p = STATUS_LINE → buffer_ p = [] →
  head (callbacks (feed antoi p a)) = Some (OnResponseStart v code) →
  ∃ k, k ≤ length a ∧ ∀ b,
    ∃ r, feed antoi p (a ++ b) = emit [OnResponseStart v code] r
       ∧ refines r (runTail antoi HEADERS (remainingBody_ p) (drop k a ++ b)).
Proof.
  intros Hst Hbuf Hhead. rewrite feed_fresh in Hhead by done.
  unfold feedFuel in Hhead.
  replace (2 * length a + 2) with (S (2 * length a + 1)) in Hhead by lia.
  rewrite feedLoop_unfold, Hst in Hhead.
  destruct (Nat.eqb_spec 0 (length a)) as [|Hlen]; [done|].
  unfold statusLine in Hhead. cbv zeta in Hhead.
  destruct (Nat.ltb_spec (length a - 0) 16) as [|H16]; [done|].
  destruct (bytes_eqb (range a 0 (0 + 5)) (str "HTTP/")) eqn:Hver; [|done].
  simpl negb in Hhead. cbv iota in Hhead.
  destruct (skipToChar SP true a (0 + 5)) as [e|[[] i]] eqn:E1; try done.
  destruct (skipToChar SP true a (S i)) as [e|[[] i2]] eqn:E2; try done.
  destruct (antoi (range a (S i) i2)) as [code'|] eqn:Ecode; [|done].
  destruct (skipToChar CR false a i2) as [e|[[] j]] eqn:E3; try done.
  destruct (Nat.eqb_spec (S j) (length a)) as [|Hj]; [done|].
  destruct (negb (Ascii.eqb (at_ a (S j)) LF)) eqn:Hlf; [done|].
  assert (Hcb : OnResponseStart (take i a) code' = OnResponseStart v code).
  { destruct (S (S j) =? length a); simpl in Hhead; congruence. }
  clear Hhead.
  assert (H5 : 0 + 5 ≤ length a) by lia.
  exists (S (S j)).
  assert (Hk : S (S j) ≤ length a).
  { destruct (skipToChar_app SP true a [] _ _ H5 E1) as (_ & Ha & Hb).
    destruct (skipToChar_app SP true a [] (S i) _ ltac:(lia) E2) as (_ & Hc & Hd).
    destruct (skipToChar_app CR false a [] i2 _ ltac:(lia) E3) as (_ & He & Hf).
    lia. }
  split; [done|]. intros b.
  destruct (skipToChar_app SP true a b _ _ H5 E1) as (E1' & Ha & Hb).
  destruct (skipToChar_app SP true a b (S i) _ ltac:(lia) E2) as (E2' & Hc & Hd).
  destruct (skipToChar_app CR false a b i2 _ ltac:(lia) E3) as (E3' & He & Hf).
  assert (HD : length (a ++ b) = length a + length b) by apply length_app.
  set (p' := set_state p HEADERS).
  assert (Hturn : statusLine antoi false (a ++ b) p 0
                  = if S (S j) =? length (a ++ b)
                    then Leave (emit [OnResponseStart v code] (ret (set_buffer p' [])))
                    else Again p' (S (S j)) [OnResponseStart v code]).
  { unfold statusLine. cbv zeta.
    destruct (Nat.ltb_spec (length (a ++ b) - 0) 16) as [|_]; [lia|].
    rewrite range_app_l, Hver by lia. simpl negb. cbv iota.
    rewrite E1', E2', range_app_l, Ecode, E3' by lia.
    destruct (Nat.eqb_spec (S j) (length (a ++ b))) as [|_]; [lia|].
    rewrite at_app_l, Hlf, take_app_le, Hcb by lia. done. }
  rewrite feed_fresh by done. unfold feedFuel.
  replace (2 * length (a ++ b) + 2) with (S (2 * length (a ++ b) + 1)) by lia.
  rewrite feedLoop_unfold, Hst, Hturn.
  destruct (Nat.eqb_spec 0 (length (a ++ b))) as [|_]; [lia|].
  destruct (Nat.eqb_spec (S (S j)) (length (a ++ b))) as [Hend|Hend].
  - eexists. split; [done|].
    assert (Hb0 : b = []) by (apply length_zero_iff_nil; lia).
    rewrite Hb0, app_nil_r, drop_ge, runTail_nil by lia.
    unfold refines. simpl. done.
  - eexists. split; [done|].
    replace (drop (S (S j)) a ++ b) with (drop (S (S j)) (a ++ b))
      by (rewrite drop_app_le by lia; done).
    apply (feedLoop_refines antoi _ false (a ++ b) p' (S (S j))); [done|lia|].
    simpl. lia.
Qed.

Lemma feed_nil_callbacks (p : HttpResponseParser) :
  buffer_ p = [] → callbacks (feed antoi p []) = [].
Proof. intros H. by rewrite feed_nil. Qed.

(** The status line ends at [k] in [A]: on the first [k] bytes of [A] and any
    bytes after them, the branch of the status line reports [cb] and hands
    over to the header lines at [k]. *)
Definition statusEnds (A : bytes) (k : nat) (cb : callback) : Prop :=
  ∀ fromBuffer p d,
    16 ≤ length (take k A ++ d) →
    statusLine antoi fromBuffer (take k A ++ d) p 0
    = if k =? length (take k A ++ d)
      then Leave (emit [cb] (ret (set_buffer (set_state p HEADERS) [])))
      else Again (set_state p HEADERS) k [cb].

(** A call that reports the response start has the whole status line in its
    data. *)
Lemma feedLoop_start (fuel : nat) (fromBuffer : bool) (A : bytes)
    (q : HttpResponseParser) (v : bytes) (code : Z) :
  state_ q = STATUS_LINE →
  head (callbacks (feedLoop antoi (S fuel) fromBuffer A q 0))
  = Some (OnResponseStart v code) →
  ∃ k, k ≤ length A ∧ 16 ≤ length A ∧ statusEnds A k (OnResponseStart v code).
Proof.
  intros Hst Hhead. rewrite feedLoop_unfold, Hst in Hhead.
  destruct (Nat.eqb_spec 0 (length A)) as [|Hlen]; [by destruct fromBuffer|].
  unfold statusLine in Hhead. cbv zeta in Hhead.
  destruct (Nat.ltb_spec (length A - 0) 16) as [|H16]; [by destruct fromBuffer|].
  destruct (bytes_eqb (range A 0 (0 + 5)) (str "HTTP/")) eqn:Hver; [|done].
  simpl negb in Hhead. cbv iota in Hhead.
  destruct (skipToChar SP true A (0 + 5)) as [e|[[] i]] eqn:E1; try done.
  destruct (skipToChar SP true A (S i)) as [e|[[] i2]] eqn:E2; try done.
  destruct (antoi (range A (S i) i2)) as [code'|] eqn:Ecode; [|done].
  destruct (skipToChar CR false A i2) as [e|[[] j]] eqn:E3;
    try done.
  destruct (Nat.eqb_spec (S j) (length A)) as [|Hj]; [done|].
  destruct (negb (Ascii.eqb (at_ A (S j)) LF)) eqn:Hlf; [done|].
  assert (Hcb : OnResponseStart (take i A) code' = OnResponseStart v code).
  { destruct (S (S j) =? length A); simpl in Hhead; congruence. }
  clear Hhead.
  destruct (skipToChar_bounds SP true A (0 + 5) true i ltac:(lia) E1) as (Ha & _ & Hb).
  specialize (Hb eq_refl).
  destruct (skipToChar_bounds SP true A (S i) true i2 ltac:(lia) E2) as (Hc & _ & Hd).
  specialize (Hd eq_refl).
  destruct (skipToChar_bounds CR false A i2 true j ltac:(lia) E3) as (He & _ & Hf).
  specialize (Hf eq_refl).
  exists (S (S j)). split; [lia|]. split; [lia|].
  intros fb p d Hlen'. set (k := S (S j)) in *.
  assert (Hk : k ≤ length A) by (unfold k; lia).
  assert (Htk : length (take k A) = k) by (rewrite length_take; lia).
  unfold statusLine. cbv zeta.
  destruct (Nat.ltb_spec (length (take k A ++ d) - 0) 16) as [|_]; [lia|].
  rewrite range_app_l, range_take, Hver by (unfold k in *; lia).
  simpl negb. cbv iota.
  rewrite (skipToChar_take SP true A d k (0 + 5) i), (skipToChar_take SP true A d k (S i) i2)
    by (try done; unfold k; lia).
  rewrite range_app_l, range_take, Ecode by (unfold k in *; lia).
  rewrite (skipToChar_take CR false A d k i2 j) by (try done; unfold k; lia).
  destruct (Nat.eqb_spec (S j) (length (take k A ++ d))) as [Heq|_].
  { rewrite length_app in Heq. unfold k in *. lia. }
  rewrite at_app_l, at_take, Hlf by (unfold k in *; lia).
  rewrite take_app_le, take_take, Nat.min_l, Hcb by (unfold k in *; lia).
  done.
Qed.

(** The loop, once the branch of the status line has handed over. *)
Lemma feedLoop_status (fromBuffer : bool) (data : bytes) (q : HttpResponseParser)
    (k : nat) (cb : callback) :
  state_ q = STATUS_LINE → bufOk fromBuffer data q → k ≤ length data →
  0 < length data →
  statusLine antoi fromBuffer data q 0
  = (if k =? length data
     then Leave (emit [cb] (ret (set_buffer (set_state q HEADERS) [])))
     else Again (set_state q HEADERS) k [cb]) →
  ∃ r, feedLoop antoi (feedFuel data) fromBuffer data q 0 = emit [cb] r
     ∧ refines r (runTail antoi HEADERS (remainingBody_ q) (drop k data)).
Proof.
  intros Hst Hbuf Hk Hlen Hturn. unfold feedFuel.
  replace (2 * length data + 2) with (S (2 * length data + 1)) by lia.
  rewrite feedLoop_unfold, Hst, Hturn.
  destruct (Nat.eqb_spec 0 (length data)) as [|_]; [lia|].
  destruct (Nat.eqb_spec k (length data)) as [Hend|Hend].
  - eexists. split; [done|].
    rewrite drop_ge, runTail_nil by lia. unfold refines. simpl. done.
  - eexists. split; [done|].
    apply (feedLoop_refines antoi _ fromBuffer data (set_state q HEADERS) k);
      [done|lia|]. simpl. lia.
Qed.

(** [feed] as the loop over the carry-over buffer and the new bytes. *)
Lemma feed_as_loop (q : HttpResponseParser) (c : bytes) :
  ∃ fromBuffer q',
    feed antoi q c
    = feedLoop antoi (feedFuel (buffer_ q ++ c)) fromBuffer (buffer_ q ++ c) q' 0
    ∧ bufOk fromBuffer (buffer_ q ++ c) q'
    ∧ state_ q' = state_ q ∧ remainingBody_ q' = remainingBody_ q.
Proof.
  unfold feed. destruct (Nat.ltb_spec 0 (length (buffer_ q))) as [Hbuf|Hbuf].
  - exists true, (set_buffer q (buffer_ q ++ c)). done.
  - assert (Hnil : buffer_ q = []) by (apply length_zero_iff_nil; lia).
    exists false, q. by rewrite Hnil.
Qed.

(** The calls on [pre] read nothing and keep every byte for the next call. *)
Fixpoint waiting (p : HttpResponseParser) (pre : list bytes) : Prop :=
  match pre with
  | [] => True
  | c :: pre' =>
      feed antoi p c = ret (set_buffer p (buffer_ p ++ c))
      ∧ waiting (set_buffer p (buffer_ p ++ c)) pre'
  end.

Lemma emit_nil (r : result) : emit [] r = r.
Proof. by destruct r. Qed.

Lemma feedAll_waiting (pre chunks : list bytes) (p : HttpResponseParser) :
  waiting p pre →
  feedAll antoi p (pre ++ chunks)
  = feedAll antoi (set_buffer p (buffer_ p ++ concat pre)) chunks.
Proof.
  revert p. induction pre as [|c pre IH]; intros p Hw.
  - simpl. rewrite app_nil_r. by destruct p.
  - destruct Hw as [Hc Hw]. simpl. rewrite Hc. simpl. rewrite emit_nil.
    rewrite (IH _ Hw). unfold set_buffer. simpl. by rewrite app_assoc.
Qed.

(** The calls up to the one that reports the response start, and one call
    on the same bytes. *)
Lemma feedAll_status (p : HttpResponseParser) (pre : list bytes) (c : bytes)
    (post : list bytes) (v : bytes) (code : Z) :
  state_ p = STATUS_LINE → buffer_ p = [] → waiting p pre →
  head (callbacks (feed antoi (set_buffer p (concat pre)) c))
  = Some (OnResponseStart v code) →
  ∃ k, k ≤ length (concat pre ++ c) ∧ 16 ≤ length (concat pre ++ c)
    ∧ statusEnds (concat pre ++ c) k (OnResponseStart v code)
    ∧ (∃ r1, feedAll antoi p (pre ++ c :: post)
             = emit [OnResponseStart v code] (andThen antoi r1 post)
           ∧ refines r1 (runTail antoi HEADERS (remainingBody_ p)
                           (drop k (concat pre ++ c))))
    ∧ (∀ d, 16 ≤ length (take k (concat pre ++ c) ++ d) →
         ∃ r, feed antoi p (take k (concat pre ++ c) ++ d)
              = emit [OnResponseStart v code] r
            ∧ refines r (runTail antoi HEADERS (remainingBody_ p) d)).
Proof.
  intros Hst Hbuf Hw Hhead.
  set (q := set_buffer p (concat pre)) in *. set (A := concat pre ++ c).
  destruct (feed_as_loop q c) as (fb & q' & Hfeed & Hok & Hst' & Hrem').
  change (buffer_ q ++ c) with A in Hfeed, Hok.
  rewrite Hfeed in Hhead. unfold feedFuel in Hhead, Hfeed.
  replace (2 * length A + 2) with (S (2 * length A + 1)) in Hhead, Hfeed by lia.
  destruct (feedLoop_start _ fb A q' v code ltac:(by rewrite Hst') Hhead)
    as (k & Hk & H16 & Hends).
  exists k. split; [done|]. split; [done|]. split; [done|]. split.
  - pose proof (Hends fb q' (drop k A)) as Hturn. rewrite take_drop in Hturn.
    destruct (feedLoop_status fb A q' k _ ltac:(by rewrite Hst') Hok Hk ltac:(lia)
                (Hturn H16)) as (r1 & E1 & R1).
    exists r1. split.
    + rewrite (feedAll_waiting pre (c :: post) p Hw), Hbuf. simpl app.
      fold q. change (feedAll antoi q (c :: post))
        with (andThen antoi (feed antoi q c) post).
      rewrite Hfeed. replace (S (2 * length A + 1)) with (feedFuel A)
        by (unfold feedFuel; lia).
      by rewrite E1, andThen_emit.
    + rewrite Hrem' in R1. exact R1.
  - intros d Hlen.
    assert (Htk : length (take k A) = k) by (rewrite length_take; lia).
    pose proof (feedLoop_status false (take k A ++ d) p k _ Hst Hbuf
                  ltac:(rewrite length_app; lia) ltac:(lia) (Hends false p d Hlen))
      as (r & E & R).
    exists r. rewrite feed_fresh by done. split; [done|].
    by rewrite drop_app_le, drop_ge in R by lia.
Qed.


Lemma skipToChar_app_inl (c : ascii) (throwOnEol : bool) (a b : bytes) (ptr : nat)
    (e : Exception) :
  ptr ≤ length a →
  skipToChar c throwOnEol a ptr = inl e →
  skipToChar c throwOnEol (a ++ b) ptr = inl e.
Proof.
  unfold skipToChar. intros Hptr H. rewrite drop_app_le by done.
  pose proof (scan_app c throwOnEol (drop ptr a) b ptr) as Happ.
  by rewrite H in Happ.
Qed.

(** A call that throws on the status line for what is in its data: one call
    on the same data and any bytes after them throws the same. The two
    exceptions set aside are those for a space that the data does not reach
    up to. *)
Lemma feedLoop_status_throws (fuel : nat) (fromBuffer : bool) (A : bytes)
    (q : HttpResponseParser) (e : Exception) :
  state_ q = STATUS_LINE →
  callbacks (feedLoop antoi (S fuel) fromBuffer A q 0) = [] →
  exit (feedLoop antoi (S fuel) fromBuffer A q 0) = Threw e →
  e ≠ MLException "version too long" → e ≠ MLException "code too long" →
  16 ≤ length A
  ∧ ∀ fromBuffer' p d,
      statusLine antoi fromBuffer' (A ++ d) p 0 = Leave (mkResult p [] (Threw e)).
Proof.
  intros Hst Hcbs Hexit Hv Hc. rewrite feedLoop_unfold, Hst in Hcbs, Hexit.
  destruct (Nat.eqb_spec 0 (length A)) as [|Hlen]; [by destruct fromBuffer|].
  unfold statusLine in Hcbs, Hexit. cbv zeta in Hcbs, Hexit.
  destruct (Nat.ltb_spec (length A - 0) 16) as [|H16]; [by destruct fromBuffer|].
  split; [lia|]. intros fb p d.
  assert (HD : length (A ++ d) = length A + length d) by apply length_app.
  unfold statusLine. cbv zeta.
  destruct (Nat.ltb_spec (length (A ++ d) - 0) 16) as [|_]; [lia|].
  rewrite range_app_l by lia.
  destruct (bytes_eqb (range A 0 (0 + 5)) (str "HTTP/")) eqn:Hver;
    [|unfold throw in *; simpl in *; congruence].
  simpl negb in *. cbv iota in *.
  destruct (skipToChar SP true A (0 + 5)) as [e1|[[] i]] eqn:E1.
  - rewrite (skipToChar_app_inl SP true A d (0 + 5) e1 ltac:(lia) E1). unfold throw in *; simpl in *; congruence.
  - destruct (skipToChar_app SP true A d (0 + 5) i ltac:(lia) E1) as (E1' & Ha & Hb).
    rewrite E1'.
    destruct (skipToChar SP true A (S i)) as [e2|[[] i2]] eqn:E2.
    + rewrite (skipToChar_app_inl SP true A d (S i) e2 ltac:(lia) E2). unfold throw in *; simpl in *; congruence.
    + destruct (skipToChar_app SP true A d (S i) i2 ltac:(lia) E2) as (E2' & Hc' & Hd).
      rewrite E2', range_app_l by lia.
      destruct (antoi (range A (S i) i2)) as [code'|] eqn:Ecode;
        [|unfold throw in *; simpl in *; congruence].
      destruct (skipToChar CR false A i2) as [e3|[[] j]] eqn:E3.
      * rewrite (skipToChar_app_inl CR false A d i2 e3 ltac:(lia) E3). unfold throw in *; simpl in *; congruence.
      * destruct (skipToChar_app CR false A d i2 j ltac:(lia) E3) as (E3' & He & Hf).
        rewrite E3'.
        destruct (Nat.eqb_spec (S j) (length A)) as [|Hj]; [done|].
        destruct (Nat.eqb_spec (S j) (length (A ++ d))) as [|_]; [lia|].
        rewrite at_app_l by lia.
        destruct (negb (Ascii.eqb (at_ A (S j)) LF)) eqn:Hlf;
          [unfold throw in *; simpl in *; congruence|].
        destruct (S (S j) =? length A); simpl in Hcbs; done.
      * by destruct fromBuffer.
    + unfold throw in *; simpl in *; congruence.
  - unfold throw in *; simpl in *; congruence.
Qed.

(** A run that gets back to the status line has reported the end of a
    response. *)
Lemma completed_has_done (st : State) (rem : N) (d rest : bytes) :
  st ≠ STATUS_LINE → (st = BODY → rem ≠ 0%N) →
  t_stop (runTail antoi st rem d) = Completed rest →
  OnDone ∈ t_cbs (runTail antoi st rem d).
Proof.
  intros Hst Hrem Hstop.
  destruct (completed_done antoi d st rem rest Hst Hrem Hstop) as (Hne & c & -> & Hdone).
  pose proof (runTail_app antoi c st rem rest) as Hext.
  unfold continues in Hext.
  destruct (t_stop (runTail antoi st rem c)).
  - destruct Hext as (He & _). apply events_done. rewrite He.
    unfold temit. simpl. rewrite events_app. apply elem_of_app. by left.
  - rewrite Hext. simpl. by apply events_done.
  - rewrite Hext. by apply events_done.
Qed.

(** At a status line, a call that has fewer than 16 bytes in all reads
    nothing and keeps them. *)
Lemma feed_short (q : HttpResponseParser) (c : bytes) :
  state_ q = STATUS_LINE → length (buffer_ q ++ c) < 16 →
  feed antoi q c = ret (set_buffer q (buffer_ q ++ c)).
Proof.
  intros Hst Hlen. set (A := buffer_ q ++ c) in *.
  unfold feed. destruct (Nat.ltb_spec 0 (length (buffer_ q))) as [Hbuf|Hbuf].
  - cbv zeta. simpl buffer_. fold A.
    assert (HlenA : 0 < length A) by (unfold A; rewrite length_app; lia).
    unfold feedFuel. replace (2 * length A + 2) with (S (2 * length A + 1)) by lia.
    rewrite feedLoop_unfold. simpl state_. rewrite Hst.
    destruct (Nat.eqb_spec 0 (length A)) as [|_]; [lia|].
    unfold statusLine. rewrite Nat.sub_0_r.
    destruct (Nat.ltb_spec (length A) 16); [done|lia].
  - assert (Hnil : buffer_ q = []) by (apply length_zero_iff_nil; lia).
    assert (HA : A = c) by (unfold A; by rewrite Hnil). rewrite HA in *.
    unfold feedFuel. replace (2 * length c + 2) with (S (2 * length c + 1)) by lia.
    rewrite feedLoop_unfold, Hst.
    destruct (Nat.eqb_spec 0 (length c)) as [Hc0|_].
    + assert (c = []) as -> by (apply length_zero_iff_nil; lia).
      destruct q. simpl in *. by subst.
    + unfold statusLine. rewrite Nat.sub_0_r.
      destruct (Nat.ltb_spec (length c) 16); [done|lia].
Qed.

Lemma feedAll_short (chunks : list bytes) :
  ∀ q, state_ q = STATUS_LINE → length (buffer_ q ++ concat chunks) < 16 →
    feedAll antoi q chunks = ret (set_buffer q (buffer_ q ++ concat chunks)).
Proof.
  induction chunks as [|c chunks IH]; intros q Hst Hlen.
  - simpl. rewrite app_nil_r. by destruct q.
  - change (concat (c :: chunks)) with (c ++ concat chunks) in *.
    rewrite app_assoc in Hlen.
    assert (Hc : length (buffer_ q ++ c) < 16) by (rewrite length_app in Hlen; lia).
    simpl. rewrite (feed_short q c Hst Hc). simpl. rewrite emit_nil.
    rewrite (IH (set_buffer q (buffer_ q ++ c)) Hst Hlen).
    unfold set_buffer. simpl. by rewrite app_assoc.
Qed.

(** C1. Take a parser with an empty carry-over buffer (one that, if it is in
    the body, still expects body bytes) and an input cut into chunks. When
    the parser is at a status line, let the input be shorter than 16 bytes,
    or else: let every call before the one that settles the status line
    return without a callback and keep every byte it has been given for the
    next call, as the calls on a response fed one byte at a time do; the
    call that settles it either reports the response start first, or throws
    before any callback an exception other than "version too long" and "code
    too long". Let no response end before the last byte of the input:
    [feed] on the input without its last byte reports no [onDone] (nor does
    [feed] on an input of 16 bytes, of which no shorter part is read). Then
    [feed] once per chunk and [feed] once on the whole input report the same
    callbacks in the same order, once each [onData] range is cut into its
    bytes. Both end the same way, by a return or by the same exception, and
    after a return they leave the same parser. *)
Theorem feed_chunk_boundaries (p : HttpResponseParser) (chunks : list bytes) :
  buffer_ p = [] →
  (state_ p = BODY → remainingBody_ p ≠ 0%N) →
  (state_ p = STATUS_LINE →
   length (concat chunks) < 16
   ∨ ∃ pre c post,
     chunks = pre ++ c :: post
     ∧ waiting p pre
     ∧ ((∃ v code, head (callbacks (feed antoi (set_buffer p (concat pre)) c))
                   = Some (OnResponseStart v code))
        ∨ (∃ e, callbacks (feed antoi (set_buffer p (concat pre)) c) = []
              ∧ exit (feed antoi (set_buffer p (concat pre)) c) = Threw e
              ∧ e ≠ MLException "version too long"
              ∧ e ≠ MLException "code too long"))
     ∧ (length (concat chunks) = 16 →
        OnDone ∉ callbacks (feed antoi p (concat chunks)))) →
  OnDone ∉ callbacks (feed antoi p (removelast (concat chunks))) →
  let parts := feedAll antoi p chunks in
  let whole := feed antoi p (concat chunks) in
  events (callbacks parts) = events (callbacks whole)
  ∧ exit parts = exit whole
  ∧ exit whole ≠ Diverged
  ∧ (exit whole = Returned → parser parts = parser whole).
Proof.
  intros Hbuf Hrem Hstart Hno. cbv zeta.
  destruct (decide (state_ p = STATUS_LINE)) as [Hst|Hst];
    [|by apply feed_chunks].
  destruct (Hstart Hst) as [Hshort|(pre & c & post & -> & Hw & Hdec & Hguard)].
  { rewrite (feedAll_short chunks p Hst), (feed_short p (concat chunks) Hst);
      rewrite Hbuf; done. }
  clear Hstart.
  set (A := concat pre ++ c) in *. set (rest := concat post) in *.
  assert (Hcat : concat (pre ++ c :: post) = A ++ rest).
  { rewrite concat_app. simpl. by rewrite app_assoc. }
  rewrite Hcat in *.
  destruct Hdec as [(v & code & Hhead)|(e & Hcbs & Hexit & Hv & Hc)].
  - destruct (feedAll_status p pre c post v code Hst Hbuf Hw Hhead)
      as (k & Hk & H16 & Hends & (r1 & Eparts & R1) & Hall).
    fold A in Hk, H16, Hends, R1, Hall.
    set (T := drop k A ++ rest).
    assert (Hwhole : A ++ rest = take k A ++ T).
    { unfold T. by rewrite app_assoc, take_drop. }
    assert (Hlen : length (A ++ rest) = length A + length rest) by apply length_app.
    destruct (Hall T ltac:(rewrite <- Hwhole; lia)) as (rw & Ew & Rw).
    rewrite <- Hwhole in Ew.
    pose proof (andThen_follows antoi post r1 HEADERS (remainingBody_ p)
                  (drop k A) (feedAll_follows antoi post) R1) as Hparts.
    fold rest in Hparts. fold T in Hparts.
    assert (Hesc : ∀ left, t_stop (runTail antoi HEADERS (remainingBody_ p) T)
                           ≠ Completed left).
    { intros left Hstop.
      destruct (decide (length (A ++ rest) = 16)) as [Hsix|Hsix].
      - apply (Hguard Hsix). rewrite Ew. unfold emit. simpl.
        apply elem_of_cons. right. apply (refines_callbacks _ _ _ Rw).
        by apply (completed_has_done HEADERS (remainingBody_ p) T left).
      - destruct (decide (T = [])) as [HT|HT].
        { rewrite HT, runTail_nil in Hstop. done. }
        revert Hstop. apply no_escape; [done|done|].
        assert (Hrl : removelast (A ++ rest) = take k A ++ removelast T).
        { rewrite Hwhole. by apply removelast_app. }
        assert (Hlast : 16 ≤ length (take k A ++ removelast T)).
        { rewrite <- Hrl, removelast_firstn_len, length_take. lia. }
        destruct (Hall (removelast T) Hlast) as (rl & El & Rl).
        intros Hin. apply Hno. rewrite Hrl, El. unfold emit. simpl.
        apply elem_of_cons. right. by eapply refines_callbacks. }
    destruct (follows_refines _ _ _ Hparts Rw Hesc) as (H1 & H2 & H3 & H4).
    rewrite Eparts, Ew. unfold emit. cbn [callbacks exit parser].
    rewrite !events_app, H1. done.
  - set (q := set_buffer p (concat pre)) in *.
    destruct (feed_as_loop q c) as (fb & q' & Hfeed & Hok & Hst' & Hrem').
    change (buffer_ q ++ c) with A in Hfeed, Hok.
    unfold feedFuel in Hfeed.
    replace (2 * length A + 2) with (S (2 * length A + 1)) in Hfeed by lia.
    rewrite Hfeed in Hcbs, Hexit.
    destruct (feedLoop_status_throws _ fb A q' e ltac:(by rewrite Hst') Hcbs Hexit Hv Hc)
      as (H16 & Hturn).
    assert (Hparts : feedAll antoi p (pre ++ c :: post) = feed antoi q c).
    { rewrite (feedAll_waiting pre (c :: post) p Hw), Hbuf. simpl app. fold q.
      simpl. rewrite Hfeed, Hexit. done. }
    assert (Hwhole : feed antoi p (A ++ rest) = mkResult p [] (Threw e)).
    { rewrite feed_fresh by done. unfold feedFuel.
      replace (2 * length (A ++ rest) + 2) with (S (2 * length (A ++ rest) + 1)) by lia.
      rewrite feedLoop_unfold, Hst, Hturn.
      destruct (Nat.eqb_spec 0 (length (A ++ rest))) as [H0|_]; [|done].
      rewrite length_app in H0. lia. }
    rewrite Hparts, Hwhole, Hfeed, Hcbs, Hexit. done.
Qed.

End Status.

(** *** Termination *)

Section Total.
Variable antoi : bytes → option Z.

Local Ltac leave :=
  unfold stashHeader, stashUnlessFromBuffer, clearIfFromBuffer, ret, throw, emit;
  simpl; done.

Lemma headerLines_finishes (fuel : nat) (fromBuffer : bool) (data : bytes)
    (p : HttpResponseParser) (ptr : nat) :
  ptr < length data → length data - ptr ≤ fuel →
  match headerLines antoi fuel fromBuffer data p ptr with
  | Leave r => exit r ≠ Diverged
  | Again p' ptr' cbs => ptr ≤ ptr' ∧ ptr' < length data ∧ state_ p' = state_ p
  end.
Proof.
  revert p ptr. induction fuel as [|fuel IH]; intros p ptr Hptr Hfuel; [lia|].
  rewrite headerLines_unfold.
  destruct (Ascii.eqb (at_ data ptr) CR); [leave|].
  destruct (skipToChar ":" true data ptr) as [e|[[] i]] eqn:E1; try leave.
  apply skipToChar_bounds in E1 as (Hi1 & Hi2 & Hi3); [|lia].
  destruct (skipToChar CR false data i) as [e|[[] j]] eqn:E2; try leave.
  apply skipToChar_bounds in E2 as (Hj1 & Hj2 & Hj3); [|lia].
  destruct (Nat.eqb_spec (S j) (length data)); [leave|].
  destruct (negb _); [leave|]. cbv zeta.
  pose proof (handleHeader_exit antoi p (range data ptr (S (S j) - 2))) as Hh.
  assert (Hst : state_ (parser (handleHeader antoi p (range data ptr (S (S j) - 2))))
                = state_ p).
  { unfold handleHeader. destruct (matchString _ _ _); [|leave].
    cbv zeta. by destruct (antoi _). }
  destruct (exit _) eqn:Hexit; [|by rewrite Hexit|done].
  destruct (Nat.eqb_spec (S (S j)) (length data)); [leave|].
  specialize (IH (parser (handleHeader antoi p (range data ptr (S (S j) - 2))))
                (S (S j)) ltac:(specialize (Hj3 eq_refl); lia)
                ltac:(specialize (Hj3 eq_refl); lia)).
  destruct (headerLines antoi fuel fromBuffer data _ (S (S j))) as [p' ptr' cbs|r].
  - destruct IH as (H1 & H2 & H3). split; [lia|]. split; [leave|]. congruence.
  - done.
Qed.

(** The fuel that [feed] gives to its loop is enough on every input. *)
Lemma feedLoop_finishes (fuel : nat) (fromBuffer : bool) (data : bytes)
    (p : HttpResponseParser) (ptr : nat) :
  ptr ≤ length data →
  2 * (length data - ptr) + (if decide (state_ p = BODY) then 1 else 0) < fuel →
  exit (feedLoop antoi fuel fromBuffer data p ptr) ≠ Diverged.
Proof.
  revert p ptr. induction fuel as [|fuel IH]; intros p ptr Hptr Hfuel; [lia|].
  rewrite feedLoop_unfold.
  destruct (Nat.eqb_spec ptr (length data)) as [|Hmore]; [leave|].
  destruct (state_ p) eqn:Hst.
  - (* the status line *)
    unfold statusLine. cbv zeta.
    destruct (length data - ptr <? 16); [leave|].
    destruct (negb _); [leave|].
    destruct (skipToChar SP true data (ptr + 5)) as [e|[[] i]] eqn:E1; try leave.
    destruct (skipToChar SP true data (S i)) as [e|[[] i2]] eqn:E2; try leave.
    destruct (antoi _); [|leave].
    destruct (skipToChar CR false data i2) as [e|[[] j]] eqn:E3; try leave.
    destruct (Nat.eqb_spec (S j) (length data)); [leave|].
    destruct (negb _); [leave|].
    destruct (Nat.eqb_spec (S (S j)) (length data)); [leave|].
    unfold skipToChar in E1, E2, E3.
    apply skipToChar_from_bounds in E1 as (A1 & _ & _ & _).
    apply skipToChar_from_bounds in E2 as (A2 & _ & _ & _).
    apply skipToChar_from_bounds in E3 as (A3 & _ & A4 & _).
    destruct (A4 eq_refl) as [A5 _]. rewrite length_drop in A5.
    apply (IH (set_state p HEADERS) (S (S j))); [lia|]. simpl. lia.
  - (* the headers *)
    unfold headers. cbv zeta.
    pose proof (headerLines_finishes (length data) fromBuffer data p ptr
                  ltac:(lia) ltac:(lia)) as Hh.
    destruct (headerLines antoi (length data) fromBuffer data p ptr)
      as [p' ptr' cbs|r]; [|leave].
    destruct Hh as (H1 & H2 & H3).
    destruct (Nat.eqb_spec (ptr' + 1) (length data)); [leave|].
    destruct (negb _); [leave|].
    destruct (length data =? 0); [by destruct (remainingBody_ p' =? 0)%N|].
    destruct (remainingBody_ p' =? 0)%N.
    + apply (IH (set_state p' STATUS_LINE) (S (S ptr'))); [lia|]. simpl. lia.
    + apply (IH (set_state p' BODY) (S (S ptr'))); [lia|]. simpl. lia.
  - (* the body *)
    simpl in Hfuel. unfold body. cbv zeta.
    set (chunk := N.to_nat (N.min (N.of_nat (length data - ptr)) (remainingBody_ p))).
    assert (Hchunk : chunk ≤ length data - ptr) by (unfold chunk; lia).
    simpl remainingBody_.
    destruct (remainingBody_ p - N.of_nat chunk =? 0)%N eqn:Erem.
    + apply (IH (set_state (set_remainingBody p _) STATUS_LINE) (ptr + chunk));
        [lia|]. simpl. lia.
    + assert (Hpos : 0 < chunk).
      { apply N.eqb_neq in Erem. unfold chunk in *. lia. }
      pose proof (IH (set_remainingBody p (remainingBody_ p - N.of_nat chunk))
                    (ptr + chunk)) as IH'.
      simpl in IH'. rewrite Hst in IH'. apply IH'; [lia|]. simpl. lia.
Qed.

Lemma feed_finishes (p : HttpResponseParser) (data : bytes) :
  exit (feed antoi p data) ≠ Diverged.
Proof.
  unfold feed. destruct (0 <? length (buffer_ p)); cbv zeta;
    apply feedLoop_finishes; try lia; unfold feedFuel; destruct (decide _); lia.
Qed.

Lemma feedAll_finishes (chunks : list bytes) (p : HttpResponseParser) :
  exit (feedAll antoi p chunks) ≠ Diverged.
Proof.
  revert p. induction chunks as [|c chunks IH]; intros p; simpl; [done|].
  destruct (exit (feed antoi p c)) eqn:Hexit; [apply IH|by rewrite Hexit|].
  intros _. by apply (feed_finishes p c).
Qed.

(** X1. [feed] returns or throws on every input, whatever the state of the
    parser: the loop never needs more turns than [feedFuel] gives it. *)
Theorem feed_returns_or_throws (p : HttpResponseParser) (data : bytes)
    (chunks : list bytes) :
  (exit (feed antoi p data) = Returned ∨ ∃ e, exit (feed antoi p data) = Threw e)
  ∧ (exit (feedAll antoi p chunks) = Returned
     ∨ ∃ e, exit (feedAll antoi p chunks) = Threw e).
Proof.
  pose proof (feed_finishes p data) as Hone.
  pose proof (feedAll_finishes chunks p) as Hall.
  split.
  - destruct (exit (feed antoi p data)) as [|e|]; [by left|right; by exists e|done].
  - destruct (exit (feedAll antoi p chunks)) as [|e|];
      [by left|right; by exists e|done].
Qed.

End Total.

(** *** Sample responses *)

(** Sample input. *)
Definition okLine : bytes := str "HTTP/1.1 200 OK" ++ CRLF.
Definition lengthLine : bytes := str "Content-Length: 5" ++ CRLF.
Definition chunkedLine : bytes := str "Transfer-Encoding: chunked" ++ CRLF.

(** Ways of cutting the same bytes, and what [feed] reports: a body cut in
    two is reported in two ranges; a status line cut before its end, in a
    first chunk of 16 bytes or more, is lost with the whole response; after
    the end of a response in the buffer, fewer than 16 bytes of the next one
    leave the whole buffer in place, and the next call reports the first
    response again; and 16 bytes that end before the first space make
    [feed] throw. *)
Lemma feed_depends_on_chunk_boundaries :
  callbacks (feedAll antoi_decimal clear
               [okLine ++ lengthLine ++ CRLF ++ str "he"; str "llo"])
  = [OnResponseStart (str "HTTP/1.1") 200; OnHeader (str "Content-Length: 5");
     OnData (str "he"); OnData (str "llo"); OnDone]
  ∧ callbacks (feed antoi_decimal clear
                 (concat [okLine ++ lengthLine ++ CRLF ++ str "he"; str "llo"]))
    = [OnResponseStart (str "HTTP/1.1") 200; OnHeader (str "Content-Length: 5");
       OnData (str "hello"); OnDone]
  ∧ callbacks (feedAll antoi_decimal clear [str "HTTP/1.1 200 OKAY"; CRLF ++ CRLF]) = []
  ∧ callbacks (feed antoi_decimal clear
                 (concat [str "HTTP/1.1 200 OKAY"; CRLF ++ CRLF]))
    = [OnResponseStart (str "HTTP/1.1") 200; OnDone]
  ∧ callbacks (feedAll antoi_decimal clear
                 [str "HTTP/1.1 200 O"; str "K" ++ CRLF ++ CRLF ++ str "HTTP/";
                  str "1.1 404 Not Found" ++ CRLF ++ CRLF])
    = [OnResponseStart (str "HTTP/1.1") 200; OnDone;
       OnResponseStart (str "HTTP/1.1") 200; OnDone;
       OnResponseStart (okLine ++ CRLF ++ str "HTTP/1.1") 404; OnDone]
  ∧ callbacks (feed antoi_decimal clear
                 (concat [str "HTTP/1.1 200 O"; str "K" ++ CRLF ++ CRLF ++ str "HTTP/";
                          str "1.1 404 Not Found" ++ CRLF ++ CRLF]))
    = [OnResponseStart (str "HTTP/1.1") 200; OnDone;
       OnResponseStart (okLine ++ CRLF ++ str "HTTP/1.1") 404; OnDone]
  ∧ feedAll antoi_decimal clear
      [str "HTTP/1.1234567"; str "89"; str " 200 OK" ++ CRLF ++ CRLF]
    = mkResult (mkParser STATUS_LINE (str "HTTP/1.123456789") 0) []
        (Threw (MLException "version too long"))
  ∧ feed antoi_decimal clear
      (concat [str "HTTP/1.1234567"; str "89"; str " 200 OK" ++ CRLF ++ CRLF])
    = mkResult clear [OnResponseStart (str "HTTP/1.123456789") 200; OnDone] Returned.
Proof. repeat split; vm_compute; reflexivity. Qed.

(** A response with a body of five bytes, fed one byte at a time: the
    first sixteen calls wait, the seventeenth reports the response start. *)
Lemma feed_one_byte_at_a_time :
  let response := okLine ++ lengthLine ++ CRLF ++ str "hello" in
  let chunks := map (λ x, [x]) response in
  let parts := feedAll antoi_decimal clear chunks in
  let whole := feed antoi_decimal clear (concat chunks) in
  events (callbacks parts) = events (callbacks whole)
  ∧ exit parts = exit whole
  ∧ exit whole ≠ Diverged
  ∧ (exit whole = Returned → parser parts = parser whole).
Proof.
  intros response chunks.
  apply (feed_chunk_boundaries antoi_decimal clear chunks).
  - reflexivity.
  - discriminate.
  - intros _. right. exists (take 16 chunks), [LF], (drop 17 chunks).
    split; [reflexivity|]. split; [vm_compute; repeat split|]. split.
    + left. exists (str "HTTP/1.1"), 200%Z. vm_compute. reflexivity.
    + intros H. vm_compute in H. discriminate H.
  - apply (bool_decide_unpack _). vm_compute. exact I.
Defined.

(** [Transfer-Encoding] and [Connection] lines change nothing in the parser,
    and a chunked body is not read as one. *)
Lemma handleHeader_ignores_other_headers :
  handleHeader antoi_decimal (mkParser HEADERS [] 0) (str "Transfer-Encoding: chunked")
  = mkResult (mkParser HEADERS [] 0) [OnHeader (str "Transfer-Encoding: chunked")] Returned
  ∧ handleHeader antoi_decimal (mkParser HEADERS [] 0) (str "Connection: close")
    = mkResult (mkParser HEADERS [] 0) [OnHeader (str "Connection: close")] Returned
  ∧ feed antoi_decimal clear
      (okLine ++ chunkedLine ++ CRLF ++ str "5" ++ CRLF ++ str "hello" ++ CRLF
       ++ str "0" ++ CRLF ++ CRLF)
    = mkResult
        (mkParser STATUS_LINE
           (str "5" ++ CRLF ++ str "hello" ++ CRLF ++ str "0" ++ CRLF ++ CRLF) 0)
        [OnResponseStart (str "HTTP/1.1") 200;
         OnHeader (str "Transfer-Encoding: chunked"); OnDone]
        Returned.
Proof. repeat split; vm_compute; reflexivity. Qed.

(** [content-length] in lower case, and a header of another name. *)
Lemma handleHeader_lower_case_length :
  handleHeader antoi_decimal (mkParser HEADERS [] 0) (str "content-length:  42")
  = mkResult (mkParser HEADERS [] 42) [OnHeader (str "content-length:  42")] Returned
  ∧ handleHeader antoi_decimal (mkParser HEADERS [] 7) (str "Host: a")
    = mkResult (mkParser HEADERS [] 7) [OnHeader (str "Host: a")] Returned
  ∧ handleHeader antoi_decimal (mkParser HEADERS [] 7) (str "Content-Length: 4x")
    = mkResult (mkParser HEADERS [] 7) [] (Threw AntoiFailure).
Proof.
  split; [|split].
  - destruct (handleHeader_content_length antoi_decimal (mkParser HEADERS [] 0))
      as (Hset & _).
    apply (Hset (str "content-length") [] 2 (str "42") 42%Z);
      [reflexivity|reflexivity|apply not_elem_of_nil|discriminate|reflexivity].
  - destruct (handleHeader_content_length antoi_decimal (mkParser HEADERS [] 7))
      as (_ & _ & Hother & _).
    apply Hother. reflexivity.
  - destruct (handleHeader_content_length antoi_decimal (mkParser HEADERS [] 7))
      as (_ & Hthrow & _).
    apply (Hthrow (str "Content-Length") [] 1 (str "4x"));
      [reflexivity|reflexivity|apply not_elem_of_nil|discriminate|reflexivity].
Defined.


End ParserSpec.


(** ** The route tree *)

Module RouterTreeSpec.
Import Router RouterSpec.

(** *** Induction over the route tree *)

Definition Router_tree_ind (P : RestRequestRouter → Prop) (Q : Route → Prop)
    (Hrouter : ∀ h srs d t, Forall Q srs → P (mkRouter h srs d t))
    (Hroute : ∀ p f r e, P r → Q (mkRoute p f r e)) : ∀ r, P r :=
  fix F (r : RestRequestRouter) : P r :=
    match r with
    | mkRouter h srs d t =>
        Hrouter h srs d t
          ((fix G (srs : list Route) : Forall Q srs :=
              match srs with
              | [] => @List.Forall_nil _ Q
              | sr :: srs' =>
                  @List.Forall_cons _ Q sr srs'
                    (match sr return Q sr with
                     | mkRoute p f r' e => Hroute p f r' e (F r')
                     end)
                    (G srs')
              end) srs)
    end.

(** *** std::set<std::string> *)

Lemma set_insert_elem (v x : string) (s : StringSet) :
  x ∈ set_insert v s ↔ x = v ∨ x ∈ s.
Proof.
  induction s as [|y s IH]; simpl.
  - rewrite list_elem_of_singleton, elem_of_nil. tauto.
  - destruct (String.compare v y) eqn:E.
    + apply String.compare_eq_iff in E as ->. rewrite elem_of_cons. tauto.
    + rewrite !elem_of_cons. tauto.
    + rewrite !elem_of_cons, IH. tauto.
Qed.

Lemma set_insert_all_elem (vs : list string) (x : string) (s : StringSet) :
  x ∈ set_insert_all vs s ↔ x ∈ vs ∨ x ∈ s.
Proof.
  unfold set_insert_all. revert s. induction vs as [|v vs IH]; intros s; simpl.
  - rewrite elem_of_nil. tauto.
  - rewrite IH, set_insert_elem, elem_of_cons. tauto.
Qed.

(** *** options *)

(** The loop of [RestRequestRouter::options] over the sub-routes. *)
Fixpoint eachOptions (srs : list Route) (verbsAccepted : StringSet)
    (conn : RestConnection) (context : RestRequestParsingContext)
  : run StringSet :=
  match srs with
  | [] => mkRun conn context (Ok verbsAccepted)
  | sr :: srs' =>
      let r := route_options sr verbsAccepted conn context in
      match r_out r with
      | Ok verbsAccepted => eachOptions srs' verbsAccepted conn (r_ctx r)
      | _ => r
      end
  end.

Lemma options_eq (r : RestRequestRouter) (verbsAccepted : StringSet)
    (conn : RestConnection) (context : RestRequestParsingContext) :
  options r verbsAccepted conn context
  = eachOptions (subRoutes r) verbsAccepted conn context.
Proof.
  destruct r as [h srs d t]. simpl. revert verbsAccepted context.
  induction srs as [|sr srs IH]; intros; simpl; [done|].
  destruct (r_out (route_options sr verbsAccepted conn context)); try done.
Qed.

Lemma route_options_eq (path : PathSpec) (filter : RequestFilter)
    (router : RestRequestRouter) (e : option ExtractObject)
    (verbsAccepted : StringSet) (conn : RestConnection)
    (context : RestRequestParsingContext) :
  route_options (mkRoute path filter router e) verbsAccepted conn context
  = withStateGuard conn context (λ conn context,
      match matchPath path context with
      | inl e => mkRun conn context (Throws e)
      | inr (false, context) => mkRun conn context (Ok verbsAccepted)
      | inr (true, context) =>
          if String.eqb (remaining context) "" then
            match PathSpec_getHelp path with
            | Some e => mkRun conn context (Throws e)
            | None =>
                match getHelp router with
                | Some e => mkRun conn context (Throws e)
                | None =>
                    options router (set_insert_all (verbs filter) verbsAccepted)
                      conn context
                end
            end
          else options router verbsAccepted conn context
      end).
Proof. reflexivity. Qed.

(** The loop of [RestRequestRouter::getHelp] over the sub-routes. *)
Fixpoint eachGetHelp (srs : list Route) : option exn :=
  match srs with
  | [] => None
  | sr :: srs' =>
      match route_getHelp sr with
      | Some e => Some e
      | None => eachGetHelp srs'
      end
  end.

Lemma getHelp_eq (h : option OnProcessRequest) (srs : list Route) (d : string)
    (t : bool) :
  getHelp (mkRouter h srs d t) = eachGetHelp srs.
Proof.
  simpl. induction srs as [|sr srs IH]; simpl; [done|].
  destruct (route_getHelp sr); [done|exact IH].
Qed.

(** [matchPath] only pushes resources and moves [remaining] on. *)
Lemma matchPath_extends (p : PathSpec) (c c' : RestRequestParsingContext) (b : bool) :
  matchPath p c = inr (b, c') →
  ∃ pushed, resources c' = resources c ++ pushed ∧ objects c' = objects c.
Proof.
  unfold matchPath. destruct (type p); [done| |].
  - destruct (index 0 (path p) (remaining c)) as [[|n]|]; intros [= <- <-]; simpl;
      try (by exists []; rewrite app_nil_r). by eexists.
  - destruct (regex_search (rex p) (remaining c)) as [results|];
      [destruct (String.eqb (m_prefix results) "")|]; intros [= <- <-]; simpl;
      try (by exists []; rewrite app_nil_r). by eexists.
Qed.

Lemma matchPath_false (p : PathSpec) (c c' : RestRequestParsingContext) :
  matchPath p c = inr (false, c') → c' = c.
Proof.
  unfold matchPath. destruct (type p); [done| |].
  - destruct (index 0 (path p) (remaining c)) as [[|n]|]; by intros [= <-].
  - destruct (regex_search (rex p) (remaining c)) as [results|];
      [destruct (String.eqb (m_prefix results) "")|]; by intros [= <-].
Qed.

(** Whatever was pushed since [saveState], [restoreState] takes it off
    again: the context is the one that was saved, contents included. *)
Lemma restoreState_pushed (c : RestRequestParsingContext)
    (pushedResources : list string) (pushedObjects : list ObjectEntry)
    (rem : string) :
  restoreState
    (mkContext (resources c ++ pushedResources) (objects c ++ pushedObjects) rem)
    (saveState c)
  = inr c.
Proof.
  unfold restoreState, saveState. destruct c as [rs os r]. simpl.
  rewrite !length_app.
  destruct (Nat.ltb_spec (length rs + length pushedResources) (length rs)); [lia|].
  destruct (Nat.ltb_spec (length os + length pushedObjects) (length os)); [lia|].
  by rewrite !take_app_length.
Qed.

(** A verb that a route below [r] accepts for the path that [context] has
    still to match: the route's path spec, after those of the routes above
    it, matches the path to its end. *)
Inductive accepts : RestRequestRouter → RestRequestParsingContext → string → Prop :=
| accepts_here r sr context context' v :
    sr ∈ subRoutes r →
    matchPath (route_path sr) context = inr (true, context') →
    remaining context' = ""%string →
    v ∈ verbs (route_filter sr) →
    accepts r context v
| accepts_below r sr context context' v :
    sr ∈ subRoutes r →
    matchPath (route_path sr) context = inr (true, context') →
    accepts (route_router sr) context' v →
    accepts r context v.

(** No route of the tree has the path spec that [PathSpec()] builds. *)
Fixpoint allTyped (r : RestRequestRouter) : bool :=
  match r with
  | mkRouter _ srs _ _ =>
      (fix each (srs : list Route) : bool :=
         match srs with
         | [] => true
         | sr :: srs' => route_allTyped sr && each srs'
         end) srs
  end
with route_allTyped (sr : Route) : bool :=
  match sr with
  | mkRoute p _ r _ => match type p with NONE => false | _ => allTyped r end
  end.

Lemma allTyped_eq (h : option OnProcessRequest) (srs : list Route) (d : string)
    (t : bool) :
  allTyped (mkRouter h srs d t) = forallb route_allTyped srs.
Proof. simpl. induction srs as [|sr srs IH]; simpl; [done|]. by rewrite IH. Qed.

(** The help of a tree without a path spec of type [NONE] throws nothing. *)
Lemma getHelp_allTyped (r : RestRequestRouter) : allTyped r = true → getHelp r = None.
Proof.
  induction r as [h srs d t Hsrs|p f r e IH]
    using Router_tree_ind
    with (Q := λ sr, route_allTyped sr = true → route_getHelp sr = None).
  - rewrite allTyped_eq, getHelp_eq. induction Hsrs as [|sr srs Hsr _ IHsrs]; [done|].
    simpl. intros [H1 H2]%andb_true_iff. rewrite (Hsr H1). by apply IHsrs.
  - simpl. unfold PathSpec_getHelp. destruct (type p); [done|exact IH|exact IH].
Qed.

Lemma matchPath_typed (p : PathSpec) (c c' : RestRequestParsingContext) (b : bool) :
  matchPath p c = inr (b, c') → PathSpec_getHelp p = None.
Proof. unfold matchPath, PathSpec_getHelp. by destruct (type p). Qed.

Definition options_spec (r : RestRequestRouter) : Prop :=
  ∀ verbsAccepted conn context,
    let o := options r verbsAccepted conn context in
    r_conn o = conn ∧ r_ctx o = context ∧ r_out o ≠ AssertFailed
    ∧ (∀ verbs', r_out o = Ok verbs' →
         ∀ v, v ∈ verbs' ↔ v ∈ verbsAccepted ∨ accepts r context v)
    ∧ (allTyped r = true → ∃ verbs', r_out o = Ok verbs').

Definition route_options_spec (sr : Route) : Prop :=
  ∀ verbsAccepted conn context,
    let o := route_options sr verbsAccepted conn context in
    r_conn o = conn ∧ r_ctx o = context ∧ r_out o ≠ AssertFailed
    ∧ (∀ verbs', r_out o = Ok verbs' →
         ∀ v, v ∈ verbs' ↔
           v ∈ verbsAccepted
           ∨ ∃ context', matchPath (route_path sr) context = inr (true, context')
               ∧ ((remaining context' = ""%string ∧ v ∈ verbs (route_filter sr))
                  ∨ accepts (route_router sr) context' v))
    ∧ (route_allTyped sr = true → ∃ verbs', r_out o = Ok verbs').

Lemma route_options_ok (p : PathSpec) (f : RequestFilter) (r : RestRequestRouter)
    (e : option ExtractObject) :
  options_spec r → route_options_spec (mkRoute p f r e).
Proof.
  intros IH verbsAccepted conn context. cbv zeta. rewrite route_options_eq.
  unfold withStateGuard. simpl route_path. simpl route_filter. simpl route_router.
  destruct (matchPath p context) as [x|[[] context']] eqn:Hm.
  - (* the path spec throws *)
    simpl. rewrite restoreState_saveState. simpl.
    split; [done|]. split; [done|]. split; [done|]. split; [done|].
    intros Hty. unfold matchPath in Hm. destruct (type p); [done| |].
    + by destruct (index 0 (path p) (remaining context)) as [[|n]|].
    + destruct (regex_search (rex p) (remaining context)) as [results|]; [|done].
      by destruct (String.eqb (m_prefix results) "").
  - (* the path spec matches *)
    destruct (matchPath_extends _ _ _ _ Hm) as (pushed & Hres & Hobj).
    rewrite (matchPath_typed _ _ _ _ Hm).
    assert (Hback : restoreState context' (saveState context) = inr context).
    { destruct context' as [rs os rem]. simpl in *. subst rs os.
      rewrite <- (app_nil_r (objects context)) at 1. apply restoreState_pushed. }
    assert (Hr : route_allTyped (mkRoute p f r e) = true → allTyped r = true).
    { simpl. by destruct (type p). }
    destruct (String.eqb_spec (remaining context') "") as [Hrem|Hrem];
      [destruct (getHelp r) as [x|] eqn:Hhelp|].
    + (* the help of the route throws *)
      simpl. rewrite Hback. simpl.
      split; [done|]. split; [done|]. split; [done|]. split; [done|].
      intros Hall. by rewrite (getHelp_allTyped r (Hr Hall)) in Hhelp.
    + (* the path is matched to its end *)
      destruct (IH (set_insert_all (verbs f) verbsAccepted) conn context')
        as (Hc & Hx & Ha & Hv & Ht).
      destruct (r_out (options r (set_insert_all (verbs f) verbsAccepted) conn context'))
        as [verbs'| |] eqn:Ho; [| |done].
      * rewrite Hx, Hback. simpl. rewrite Hc.
        split; [done|]. split; [done|]. split; [done|]. split; [|by eexists].
        intros verbs2 [= <-] v. rewrite (Hv verbs' eq_refl v).
        rewrite set_insert_all_elem. split.
        -- intros [[H|H]|H]; [right|by left|right]; exists context'; tauto.
        -- intros [H|(c2 & [= <-] & [[_ H]|H])]; tauto.
      * rewrite Hx, Hback. simpl. rewrite Hc.
        split; [done|]. split; [done|]. split; [done|]. split; [done|].
        intros Hall. destruct (Ht (Hr Hall)) as [verbs' Hv']. done.
    + (* more of the path is left *)
      destruct (IH verbsAccepted conn context') as (Hc & Hx & Ha & Hv & Ht).
      destruct (r_out (options r verbsAccepted conn context'))
        as [verbs'| |] eqn:Ho; [| |done].
      * rewrite Hx, Hback. simpl. rewrite Hc.
        split; [done|]. split; [done|]. split; [done|]. split; [|by eexists].
        intros verbs2 [= <-] v. rewrite (Hv verbs' eq_refl v). split.
        -- intros [H|H]; [by left|right]. exists context'. tauto.
        -- intros [H|(c2 & [= <-] & [[H _]|H])]; tauto.
      * rewrite Hx, Hback. simpl. rewrite Hc.
        split; [done|]. split; [done|]. split; [done|]. split; [done|].
        intros Hall. destruct (Ht (Hr Hall)) as [verbs' Hv']. done.
  - (* the path spec does not match *)
    apply matchPath_false in Hm as Heq. subst context'.
    simpl. rewrite restoreState_saveState. simpl.
    split; [done|]. split; [done|]. split; [done|]. split; [|by eexists].
    intros verbs' [= <-] v. split; [by left|].
    intros [H|(c2 & [=] & _)]. done.
Qed.

Lemma eachOptions_ok (srs : list Route) :
  Forall route_options_spec srs →
  ∀ verbsAccepted conn context,
    let o := eachOptions srs verbsAccepted conn context in
    r_conn o = conn ∧ r_ctx o = context ∧ r_out o ≠ AssertFailed
    ∧ (∀ verbs', r_out o = Ok verbs' →
         ∀ v, v ∈ verbs' ↔
           v ∈ verbsAccepted
           ∨ ∃ sr context', sr ∈ srs
               ∧ matchPath (route_path sr) context = inr (true, context')
               ∧ ((remaining context' = ""%string ∧ v ∈ verbs (route_filter sr))
                  ∨ accepts (route_router sr) context' v))
    ∧ (forallb route_allTyped srs = true → ∃ verbs', r_out o = Ok verbs').
Proof.
  induction 1 as [|sr srs Hsr _ IH]; intros verbsAccepted conn context; cbv zeta.
  - simpl. split; [done|]. split; [done|]. split; [done|]. split; [|by eexists].
    intros verbs' [= <-] v. split; [by left|].
    intros [H|(sr & c' & Hin & _)]; [done|]. by apply not_elem_of_nil in Hin.
  - simpl. destruct (Hsr verbsAccepted conn context) as (Hc & Hx & Ha & Hv & Ht).
    destruct (r_out (route_options sr verbsAccepted conn context))
      as [verbs1| |] eqn:Ho; [| |done].
    + rewrite Hx.
      destruct (IH verbs1 conn context) as (Hc' & Hx' & Ha' & Hv' & Ht').
      split; [done|]. split; [done|]. split; [done|]. split.
      * intros verbs' Hout v. rewrite (Hv' verbs' Hout v), (Hv verbs1 eq_refl v).
        split.
        -- intros [[H|(c' & Hm & H)]|(sr' & c' & Hin & Hm & H)].
           ++ by left.
           ++ right. exists sr, c'. split; [by left|done].
           ++ right. exists sr', c'. split; [by right|done].
        -- intros [H|(sr' & c' & Hin & Hm & H)]; [by left; left|].
           apply elem_of_cons in Hin as [->|Hin].
           ++ left. right. by exists c'.
           ++ right. by exists sr', c'.
      * intros Hall. apply andb_true_iff in Hall as [_ Hall]. by apply Ht'.
    + split; [done|]. split; [done|]. split; [by rewrite ?Ho|]. split.
      * intros verbs'. by rewrite ?Ho.
      * intros Hall. apply andb_true_iff in Hall as [Hall _].
        destruct (Ht Hall) as [verbs' Hv']. done.
Qed.

Lemma options_ok (r : RestRequestRouter) : options_spec r.
Proof.
  induction r as [h srs d t Hsrs|p f r e IH]
    using Router_tree_ind with (Q := route_options_spec);
    [|by apply route_options_ok].
  intros verbsAccepted conn context. cbv zeta. rewrite options_eq. simpl subRoutes.
  destruct (eachOptions_ok srs Hsrs verbsAccepted conn context)
    as (Hc & Hx & Ha & Hv & Ht).
  split; [done|]. split; [done|]. split; [done|]. split.
  - intros verbs' Hout v. rewrite (Hv verbs' Hout v). split.
    + intros [H|(sr & c' & Hin & Hm & [[H1 H2]|H])]; [by left|right|right].
      * by eapply accepts_here.
      * by eapply accepts_below.
    + intros [H|H]; [by left|right]. inversion H; subst; simpl in *.
      * eexists _, _. split; [done|]. split; [done|]. by left.
      * eexists _, _. split; [done|]. split; [done|]. by right.
  - intros Hall. rewrite allTyped_eq in Hall. by apply Ht.
Qed.

End RouterTreeSpec.

Module RouterTreeSpec2.
Import Router RouterSpec RouterTreeSpec.

(** X2. [options] does not touch the connection, hands the context back as
    it got it, and no assertion of a state guard fails in it. When it returns,
    the verbs it has are the ones it was given and, for every route whose
    path spec (after those of the routes above it) matches the path to its
    end, the entries of the route's verb set: nothing else, whatever the
    filters and handlers of the routes are. It throws only where a path spec
    is the one that [PathSpec()] builds. *)
Theorem options_collects_accepted_verbs (r : RestRequestRouter)
    (verbsAccepted : StringSet) (conn : RestConnection)
    (context : RestRequestParsingContext) :
  r_conn (options r verbsAccepted conn context) = conn
  ∧ r_ctx (options r verbsAccepted conn context) = context
  ∧ r_out (options r verbsAccepted conn context) ≠ AssertFailed
  ∧ (∀ verbs', r_out (options r verbsAccepted conn context) = Ok verbs' →
       ∀ v, v ∈ verbs' ↔ v ∈ verbsAccepted ∨ accepts r context v)
  ∧ (allTyped r = true →
     ∃ verbs', r_out (options r verbsAccepted conn context) = Ok verbs').
Proof. apply options_ok. Qed.

(** X3. An [OPTIONS] request to a router whose path specs are all literals or
    regular expressions is always answered, and by one response: the call
    returns [MR_YES], throws nothing, sends no 404 and leaves the context as
    it was. The [Allow] header lists the verbs that the routes accept for the
    path, and the status is 400 exactly when there is none. *)
Theorem handleRequest_options_answered (r : RestRequestRouter)
    (connection : RestConnection) (request : RestRequest) :
  verb request = "OPTIONS" → allTyped r = true →
  ∃ verbs,
    (∀ v, v ∈ verbs ↔ accepts r (newContext request) v)
    ∧ handleRequest r connection request
      = mkRun
          (connection
           ++ [if set_empty verbs
               then HttpResponse 400 (BodyText "") "" [("Allow", getVerbsStr verbs)]
               else HttpResponse 200 BodyHelp "application/json"
                      [("Allow", getVerbsStr verbs)]])
          (newContext request) (Ok MR_YES).
Proof.
  intros Hverb Hall.
  destruct (options_ok r [] connection (newContext request))
    as (Hc & Hx & _ & Hv & Ht).
  destruct (Ht Hall) as [verbs Hout]. exists verbs. split.
  - intros v. rewrite (Hv verbs Hout v), elem_of_nil. tauto.
  - unfold handleRequest. rewrite processRequest_eq, Hverb. simpl.
    rewrite Hout, Hx. simpl. unfold sendHttpResponse. by destruct (set_empty verbs).
Qed.

(** A router with the routes [GET /x] and [POST /x], asked for [/x]. *)
Lemma handleRequest_options_sample :
  let request := mkRequest "OPTIONS" "/x" [] (λ _, ""%string) in
  let leaf :=
    mkRouter (Some (λ connection _ context, mkRun connection context (Ok MR_YES)))
      [] "leaf" true in
  let r :=
    mkRouter None
      [mkRoute (PathSpec_string "/x") (RequestFilter_verb "POST") leaf None;
       mkRoute (PathSpec_string "/x") (RequestFilter_verb "GET") leaf None;
       mkRoute (PathSpec_string "/y") (RequestFilter_verb "PUT") leaf None]
      "" false in
  ∃ verbs,
    (∀ v, v ∈ verbs ↔ accepts r (newContext request) v)
    ∧ handleRequest r [] request
      = mkRun
          ([] ++ [if set_empty verbs
                  then HttpResponse 400 (BodyText "") "" [("Allow", getVerbsStr verbs)]
                  else HttpResponse 200 BodyHelp "application/json"
                         [("Allow", getVerbsStr verbs)]])
          (newContext request) (Ok MR_YES).
Proof.
  intros request leaf r.
  apply (handleRequest_options_answered r [] request); reflexivity.
Defined.




(** *** Exceptions of the sub-routes *)

Lemma trySubRoutes_no_throw (srs : list Route) (request : RestRequest)
    (connection : RestConnection) (context : RestRequestParsingContext) (e : exn) :
  r_out (trySubRoutes srs request connection context) ≠ Throws e.
Proof.
  revert connection context. induction srs as [|sr srs IH]; intros; simpl; [done|].
  destruct (r_out (process sr request context connection)) as [[]|[]|] eqn:E;
    simpl; rewrite ?E; try done; apply IH.
Qed.

Lemma trySubRoutes_app (pre post : list Route) (request : RestRequest)
    (connection : RestConnection) (context : RestRequestParsingContext) :
  trySubRoutes (pre ++ post) request connection context
  = let res := trySubRoutes pre request connection context in
    match r_out res with
    | Ok MR_NO => trySubRoutes post request (r_conn res) (r_ctx res)
    | _ => res
    end.
Proof.
  revert connection context. induction pre as [|sr pre IH]; intros; simpl; [done|].
  destruct (r_out (process sr request context connection)) as [[]|[]|] eqn:E;
    simpl; rewrite ?E; try done; apply IH.
Qed.

(** X4. Past the root handler, no exception leaves [processRequest]: when a
    sub-route throws, no later route is tried, the exception is answered by a
    500 that carries its message, and the result is [MR_YES]. *)
Theorem subroute_exception_is_answered (r : RestRequestRouter)
    (connection : RestConnection) (request : RestRequest)
    (context : RestRequestParsingContext) :
  verb request ≠ "OPTIONS" →
  (terminal r = true ∧ remaining context ≠ ""%string) ∨ rootHandler r = None →
  (∀ e, r_out (processRequest r connection request context) ≠ Throws e)
  ∧ (∀ pre sr post what,
       subRoutes r = pre ++ sr :: post →
       Forall (declines request context) pre →
       r_out (process sr request context connection) = Throws (StdException what) →
       processRequest r connection request context
       = mkRun
           (r_conn (process sr request context connection)
            ++ [ErrorResponse 500 ("threw exception: " +:+ what)])
           (r_ctx (process sr request context connection)) (Ok MR_YES))
  ∧ (∀ pre sr post,
       subRoutes r = pre ++ sr :: post →
       Forall (declines request context) pre →
       r_out (process sr request context connection) = Throws UnknownException →
       processRequest r connection request context
       = mkRun
           (r_conn (process sr request context connection)
            ++ [ErrorResponse 500 "unknown exception"])
           (r_ctx (process sr request context connection)) (Ok MR_YES)).
Proof.
  intros Hverb Hroot. rewrite processRequest_eq.
  apply String.eqb_neq in Hverb. rewrite Hverb.
  assert (Hh : (if negb (terminal r) || String.eqb (remaining context) ""
                then rootHandler r else None) = None).
  { destruct Hroot as [[-> Hres]| ->]; [|by destruct (_ || _)].
    simpl. apply String.eqb_neq in Hres. by rewrite Hres. }
  rewrite Hh. split; [|split].
  - intros e. apply trySubRoutes_no_throw.
  - intros pre sr post what -> Hpre Hthrow.
    rewrite trySubRoutes_app, (trySubRoutes_decline _ _ _ _ Hpre). simpl.
    by rewrite Hthrow.
  - intros pre sr post -> Hpre Hthrow.
    rewrite trySubRoutes_app, (trySubRoutes_decline _ _ _ _ Hpre). simpl.
    by rewrite Hthrow.
Qed.

(** A route whose handler throws, after a route for another path. *)
Lemma subroute_exception_sample :
  let request := mkRequest "GET" "/x" [] (λ _, ""%string) in
  let quiet :=
    mkRouter (Some (λ connection _ context, mkRun connection context (Ok MR_YES)))
      [] "quiet" true in
  let loud :=
    mkRouter
      (Some (λ connection _ context,
               mkRun connection context (Throws (StdException "no such thing"))))
      [] "loud" true in
  let r :=
    mkRouter None
      [mkRoute (PathSpec_string "/y") RequestFilter_none quiet None;
       mkRoute (PathSpec_string "/x") RequestFilter_none loud None;
       mkRoute (PathSpec_string "/x") RequestFilter_none quiet None]
      "" false in
  processRequest r [] request (newContext request)
  = mkRun [ErrorResponse 500 "threw exception: no such thing"]
      (newContext request) (Ok MR_YES).
Proof.
  intros request quiet loud r.
  apply (proj1 (proj2 (subroute_exception_is_answered r [] request
                         (newContext request) ltac:(done) ltac:(by right)))
           [mkRoute (PathSpec_string "/y") RequestFilter_none quiet None]
           (mkRoute (PathSpec_string "/x") RequestFilter_none loud None)
           [mkRoute (PathSpec_string "/x") RequestFilter_none quiet None]
           "no such thing").
  - reflexivity.
  - constructor; [|constructor]. by right.
  - reflexivity.
Defined.

End RouterTreeSpec2.

Module RouterTreeSpec3.
Import Router RouterSpec RouterTreeSpec.

(** *** Handlers that only add to the context *)

(** [c'] is [c] with resources and objects pushed, and any [remaining]. *)
Definition extends (c c' : RestRequestParsingContext) : Prop :=
  resources c `prefix_of` resources c' ∧ objects c `prefix_of` objects c'.

(** User code that only pushes onto the context it is given. *)
Definition tidy {A} (h : RestConnection → RestRequest → RestRequestParsingContext → run A)
  : Prop :=
  ∀ conn request c,
    extends c (r_ctx (h conn request c)) ∧ r_out (h conn request c) ≠ AssertFailed.

Definition tidyOption {A}
    (h : option (RestConnection → RestRequest → RestRequestParsingContext → run A))
  : Prop :=
  match h with Some h => tidy h | None => True end.

Fixpoint allTidy (r : RestRequestRouter) : Prop :=
  match r with
  | mkRouter h srs _ _ =>
      tidyOption h
      ∧ (fix each (srs : list Route) : Prop :=
           match srs with
           | [] => True
           | sr :: srs' => route_allTidy sr ∧ each srs'
           end) srs
  end
with route_allTidy (sr : Route) : Prop :=
  match sr with
  | mkRoute _ _ r e => tidyOption e ∧ allTidy r
  end.

Lemma allTidy_eq (h : option OnProcessRequest) (srs : list Route) (d : string)
    (t : bool) :
  allTidy (mkRouter h srs d t) ↔ tidyOption h ∧ Forall route_allTidy srs.
Proof.
  simpl. apply and_iff_compat_l. induction srs as [|sr srs IH].
  - split; [constructor|done].
  - rewrite Forall_cons, IH. done.
Qed.

Lemma extends_refl (c : RestRequestParsingContext) : extends c c.
Proof. by split. Qed.

Lemma extends_trans (c1 c2 c3 : RestRequestParsingContext) :
  extends c1 c2 → extends c2 c3 → extends c1 c3.
Proof. intros [H1 H2] [H3 H4]. split; by etrans. Qed.

Lemma matchPath_extends' (p : PathSpec) (c c' : RestRequestParsingContext) (b : bool) :
  matchPath p c = inr (b, c') → extends c c'.
Proof.
  intros H. destruct (matchPath_extends _ _ _ _ H) as (pushed & Hr & Ho).
  split; [by exists pushed|by rewrite Ho].
Qed.

Lemma restoreState_extends (c c' : RestRequestParsingContext) :
  extends c c' → restoreState c' (saveState c) = inr c.
Proof.
  intros [[rs Hr] [os Ho]]. destruct c' as [rs' os' rem]. simpl in *. subst rs' os'.
  apply restoreState_pushed.
Qed.

Lemma withStateGuard_extends {A} (conn : RestConnection)
    (c : RestRequestParsingContext)
    (body : RestConnection → RestRequestParsingContext → run A) :
  extends c (r_ctx (body conn c)) → r_out (body conn c) ≠ AssertFailed →
  withStateGuard conn c body = mkRun (r_conn (body conn c)) c (r_out (body conn c)).
Proof.
  intros Hext Hout. unfold withStateGuard. rewrite (restoreState_extends _ _ Hext).
  by destruct (r_out (body conn c)).
Qed.

Definition processRequest_tidy (r : RestRequestRouter) : Prop :=
  allTidy r → ∀ conn request context,
    r_out (processRequest r conn request context) ≠ AssertFailed
    ∧ extends context (r_ctx (processRequest r conn request context))
    ∧ ((if negb (terminal r) || String.eqb (remaining context) ""
        then rootHandler r else None) = None →
       r_ctx (processRequest r conn request context) = context).

Definition process_tidy (sr : Route) : Prop :=
  route_allTidy sr → ∀ conn request context,
    r_out (process sr request context conn) ≠ AssertFailed
    ∧ r_ctx (process sr request context conn) = context.

Lemma process_is_tidy (p : PathSpec) (f : RequestFilter) (r : RestRequestRouter)
    (e : option ExtractObject) :
  processRequest_tidy r → process_tidy (mkRoute p f r e).
Proof.
  intros IH [He Hr] conn request context. specialize (IH Hr). rewrite process_eq.
  destruct (negb (set_empty (verbs f)) && _); [done|].
  destruct (negb (forallb _ _)); [done|].
  set (body := λ (connection : RestConnection) (context : RestRequestParsingContext), _).
  assert (Hbody : extends context (r_ctx (body conn context))
                  ∧ r_out (body conn context) ≠ AssertFailed).
  { unfold body. destruct (matchPath p context) as [x|[[] context']] eqn:Hm.
    - split; [apply extends_refl|done].
    - apply matchPath_extends' in Hm.
      set (x := match e with
                | Some extract => extract conn request context'
                | None => mkRun conn context' (Ok tt)
                end).
      assert (Hx : extends context' (r_ctx x) ∧ r_out x ≠ AssertFailed).
      { unfold x. destruct e as [extract|]; [apply He|]. split; [apply extends_refl|done]. }
      destruct Hx as [Hx1 Hx2]. cbv zeta.
      destruct (r_out x) eqn:Hout; [| |done].
      + destruct (responseSent (r_conn x)).
        * split; [by eapply extends_trans|done].
        * destruct (IH (r_conn x) request (r_ctx x)) as (H1 & H2 & _).
          split; [|done]. eapply extends_trans; [done|]. by eapply extends_trans.
      + split; [by eapply extends_trans|done].
    - apply matchPath_extends' in Hm. done. }
  destruct Hbody as [H1 H2]. rewrite (withStateGuard_extends _ _ _ H1 H2). done.
Qed.

Lemma trySubRoutes_tidy (srs : list Route) :
  Forall process_tidy srs → Forall route_allTidy srs →
  ∀ conn request context,
    r_out (trySubRoutes srs request conn context) ≠ AssertFailed
    ∧ r_ctx (trySubRoutes srs request conn context) = context.
Proof.
  induction 1 as [|sr srs Hsr _ IH]; intros Hall conn request context; [done|].
  apply Forall_cons in Hall as [Hsr' Hall]. simpl.
  destruct (Hsr Hsr' conn request context) as [H1 H2].
  destruct (r_out (process sr request context conn)) as [[]|[]|] eqn:E;
    rewrite ?E; try done.
  rewrite H2. by apply IH.
Qed.

Lemma processRequest_is_tidy (r : RestRequestRouter) : processRequest_tidy r.
Proof.
  induction r as [h srs d t Hsrs|p f r e IH]
    using Router_tree_ind with (Q := process_tidy);
    [|by apply process_is_tidy].
  intros Hall conn request context. apply allTidy_eq in Hall as [Hh Hall].
  rewrite processRequest_eq. simpl terminal. simpl rootHandler. simpl subRoutes.
  destruct (String.eqb (verb request) "OPTIONS").
  - destruct (options_ok (mkRouter h srs d t) [] conn context) as (_ & Hx & Ha & _).
    cbv zeta in *.
    set (o := options (mkRouter h srs d t) [] conn context) in *. clearbody o.
    destruct (r_out o); [| |done];
      cbn [r_ctx r_out]; rewrite Hx; (split; [done|]);
      (split; [apply extends_refl|done]).
  - destruct (if negb t || String.eqb (remaining context) "" then h else None)
      as [handler|] eqn:Hroot.
    + assert (Ht : tidy handler).
      { destruct (negb t || _); [|done]. by subst h. }
      destruct (Ht conn request context) as [H1 H2]. done.
    + destruct (trySubRoutes_tidy srs Hsrs Hall conn request context) as [H1 H2].
      rewrite H2. split; [done|]. split; [apply extends_refl|done].
Qed.

(** X5. If the handlers and object extractors of a route tree only push onto
    the context (and no assertion fails inside them), then no assertion of a
    state guard fails while a request is routed, and [Route::process] hands
    the context back as it got it, with the same resources and objects and
    not only as many; so does [processRequest] when the sub-routes are tried,
    and [handleRequest] ends on the context of the request. *)
Theorem routing_keeps_context (r : RestRequestRouter) (sr : Route)
    (conn : RestConnection) (request : RestRequest)
    (context : RestRequestParsingContext) :
  (route_allTidy sr →
   r_out (process sr request context conn) ≠ AssertFailed
   ∧ r_ctx (process sr request context conn) = context)
  ∧ (allTidy r →
     r_out (processRequest r conn request context) ≠ AssertFailed
     ∧ extends context (r_ctx (processRequest r conn request context))
     ∧ ((terminal r = true ∧ remaining context ≠ ""%string) ∨ rootHandler r = None →
        r_ctx (processRequest r conn request context) = context))
  ∧ (allTidy r → rootHandler r = None →
     r_out (handleRequest r conn request) ≠ AssertFailed
     ∧ r_ctx (handleRequest r conn request) = newContext request).
Proof.
  split; [|split].
  - intros Hsr. destruct sr as [p f r' e].
    apply (process_is_tidy p f r' e (processRequest_is_tidy r') Hsr).
  - intros Hr. destruct (processRequest_is_tidy r Hr conn request context)
      as (H1 & H2 & H3).
    split; [done|]. split; [done|]. intros Hroot. apply H3.
    destruct Hroot as [[-> Hres]| ->]; [|by destruct (_ || _)].
    simpl. apply String.eqb_neq in Hres. by rewrite Hres.
  - intros Hr Hroot.
    destruct (processRequest_is_tidy r Hr conn request (newContext request))
      as (H1 & _ & H3).
    unfold handleRequest. cbv zeta.
    assert (Hctx : r_ctx (processRequest r conn request (newContext request))
                   = newContext request).
    { apply H3. rewrite Hroot. by destruct (_ || _). }
    destruct (r_out (processRequest r conn request (newContext request)))
      as [[]| |] eqn:E; rewrite ?E; simpl; done.
Qed.

(** A route [GET /x] whose extractor pushes an object and whose handler
    pushes a resource and answers. *)
Lemma routing_keeps_context_sample :
  let request := mkRequest "GET" "/x" [] (λ _, ""%string) in
  let leaf :=
    mkRouter
      (Some (λ connection _ context,
               mkRun (sendErrorResponse connection 200 "done")
                 (mkContext (resources context ++ ["seen"]) (objects context)
                    (remaining context))
                 (Ok MR_YES)))
      [] "leaf" true in
  let sr :=
    mkRoute (PathSpec_string "/x") (RequestFilter_verb "GET") leaf
      (Some (λ connection _ context,
               mkRun connection
                 (mkContext (resources context) (objects context ++ [mkObject 1 "T"])
                    (remaining context))
                 (Ok tt))) in
  let r := mkRouter None [sr] "" false in
  handleRequest r [] request
  = mkRun [ErrorResponse 200 "done"] (newContext request) (Ok MR_YES)
  ∧ r_ctx (handleRequest r [] request) = newContext request.
Proof.
  intros request leaf sr r.
  destruct (routing_keeps_context r sr [] request (newContext request))
    as (_ & _ & H).
  destruct H as (_ & Hctx).
  - apply allTidy_eq. split; [done|].
    constructor; [|constructor].
    split; [|split; [|done]]; intros conn rq c; (split; [|done]);
      split; simpl; first [reflexivity | by apply prefix_app_r].
  - reflexivity.
  - split; [reflexivity|exact Hctx].
Defined.

End RouterTreeSpec3.

(** ** Building the route tree *)

Module RouterBuildSpec.
Import Router RouterSpec RouterTreeSpec RouterTreeSpec2 RouterBuild.

(** X6. [addRoute] refuses to add to a router that has a root handler, and
    otherwise puts the route after the ones there are: a request (other than
    [OPTIONS]) goes through the routes in the order in which they were added,
    and the new route gets it only when every earlier route has answered
    [MR_NO], on the connection and the context that they leave. *)
Theorem addRoute_tried_last (r : RestRequestRouter) (path : PathSpec)
    (filter : RequestFilter) (handler : RestRequestRouter)
    (extractObject : option ExtractObject) :
  (rootHandler r ≠ None →
   addRoute r path filter handler extractObject
   = inl (StdException "can't add a sub-route to a terminal route"))
  ∧ (rootHandler r = None →
     ∃ r', addRoute r path filter handler extractObject = inr r'
       ∧ subRoutes r' = subRoutes r ++ [mkRoute path filter handler extractObject]
       ∧ ∀ conn request context,
           verb request ≠ "OPTIONS" →
           processRequest r' conn request context
           = let res := processRequest r conn request context in
             match r_out res with
             | Ok MR_NO =>
                 processRequest
                   (mkRouter None [mkRoute path filter handler extractObject]
                      (description r) (terminal r))
                   (r_conn res) request (r_ctx res)
             | _ => res
             end).
Proof.
  unfold addRoute. split.
  - intros Hroot. by destruct (rootHandler r).
  - intros Hroot. rewrite Hroot. eexists. split; [reflexivity|]. split; [done|].
    intros conn request context Hverb. apply String.eqb_neq in Hverb.
    rewrite !processRequest_eq, Hverb. simpl terminal. simpl rootHandler.
    simpl subRoutes. rewrite Hroot.
    assert (Hnone : ∀ b : bool, (if b then @None OnProcessRequest else None) = None)
      by (by intros []).
    rewrite !Hnone, trySubRoutes_app. cbv zeta.
    by destruct (r_out (trySubRoutes (subRoutes r) request conn context)) as [[]| |].
Qed.

(** A route to [/x] added after a route to [/y]: [GET /x] reaches it. *)
Lemma addRoute_sample :
  let request := mkRequest "GET" "/x" [] (λ _, ""%string) in
  let answer code : OnProcessRequest :=
    λ connection _ context,
      mkRun (sendErrorResponse connection code "") context (Ok MR_YES) in
  let r0 :=
    mkRouter None
      [mkRoute (PathSpec_string "/y") RequestFilter_none
         (mkRouter (Some (answer 1%Z)) [] "y" true) None] "" false in
  ∃ r', addRoute_cb r0 (PathSpec_string "/x") RequestFilter_none "x" (answer 2%Z) None
        = inr r'
    ∧ processRequest r' [] request (newContext request)
      = mkRun [ErrorResponse 2 ""] (newContext request) (Ok MR_YES).
Proof.
  intros request answer r0.
  destruct (proj2 (addRoute_tried_last r0 (PathSpec_string "/x") RequestFilter_none
                     (mkRouter (Some (answer 2%Z)) [] "x" true) None) eq_refl)
    as (r' & Hadd & _ & Hrun).
  exists r'. split; [exact Hadd|].
  rewrite (Hrun [] request (newContext request)) by done. reflexivity.
Defined.

(** *** getVerbsStr *)

(** The strings of [vs] from the first non-empty one on. *)
Fixpoint dropEmpty (vs : list string) : list string :=
  match vs with
  | ""%string :: vs' => dropEmpty vs'
  | _ => vs
  end.

Lemma append_assoc (a b c : string) : (a +:+ b) +:+ c = a +:+ (b +:+ c).
Proof. induction a as [|x a IH]; [done|]. rewrite !app_String. by rewrite IH. Qed.

Lemma append_empty_r (a : string) : a +:+ "" = a.
Proof. induction a as [|x a IH]; [done|]. rewrite app_String. by rewrite IH. Qed.

Lemma append_nonempty (a b : string) : a ≠ ""%string → a +:+ b ≠ ""%string.
Proof. destruct a; [done|]. by rewrite app_String. Qed.

Lemma concat_empty_cons (x : string) (xs : list string) :
  String.concat "" (x :: xs) = x +:+ String.concat "" xs.
Proof. destruct xs; simpl; [by rewrite append_empty_r|done]. Qed.

(** The loop of [getVerbsStr], once [verbsStr] is not empty. *)
Lemma getVerbsStr_from (vs : list string) (acc : string) :
  acc ≠ ""%string →
  fold_left (λ verbsStr v,
               (if String.eqb verbsStr "" then verbsStr else verbsStr +:+ ",") +:+ v)
    vs acc
  = acc +:+ String.concat "" (map (λ w, "," +:+ w) vs).
Proof.
  revert acc. induction vs as [|w vs IH]; intros acc Hacc.
  - simpl. by rewrite append_empty_r.
  - simpl fold_left. simpl map. rewrite concat_empty_cons.
    destruct (String.eqb_spec acc "") as [|_]; [done|].
    rewrite IH by (by do 2 apply append_nonempty).
    by rewrite !append_assoc.
Qed.

Lemma concat_comma_cons (v : string) (vs : list string) :
  String.concat "," (v :: vs) = v +:+ String.concat "" (map (λ w, "," +:+ w) vs).
Proof.
  revert v. induction vs as [|w vs IH]; intros v.
  - simpl. by rewrite append_empty_r.
  - change (String.concat "," (v :: w :: vs))
      with (v +:+ "," +:+ String.concat "," (w :: vs)).
    rewrite (IH w). simpl map. rewrite concat_empty_cons.
    by rewrite !append_assoc.
Qed.

(** X7. [getVerbsStr] joins the verbs with commas, in the order of the set,
    except that an empty string at the front of the set leaves no trace: no
    comma follows it. *)
Theorem getVerbsStr_joins (verbs : StringSet) :
  getVerbsStr verbs = String.concat "," (dropEmpty verbs)
  ∧ (""%string ∉ verbs → getVerbsStr verbs = String.concat "," verbs).
Proof.
  assert (Hjoin : ∀ vs, getVerbsStr vs = String.concat "," (dropEmpty vs)).
  { unfold getVerbsStr. induction vs as [|v vs IH]; [done|]. simpl fold_left.
    destruct (String.eqb_spec v "") as [->|Hv]; [exact IH|].
    change ("" +:+ v) with v.
    assert (Hd : dropEmpty (v :: vs) = v :: vs) by (by destruct v).
    by rewrite Hd, getVerbsStr_from, concat_comma_cons. }
  split; [apply Hjoin|].
  intros Hin. rewrite Hjoin. f_equal.
  destruct verbs as [|v verbs]; [done|]. simpl.
  destruct v; [|done]. exfalso. apply Hin. by left.
Qed.

End RouterBuildSpec.

(** ** Objects of the parsing context *)

Module ContextObjectsSpec.
Import Router RouterSpec RouterBuild.

Lemma int32_small (z : Z) : (- 2 ^ 31 ≤ z < 2 ^ 31)%Z → int32 z = z.
Proof. intros H. unfold int32. rewrite Z.mod_small; lia. Qed.

(** [getObject] on an index that is in range. *)
Lemma getObject_at (c : RestRequestParsingContext) (i : nat) (entry : ObjectEntry) :
  (Z.of_nat (length (objects c)) < 2 ^ 31)%Z →
  objects c !! i = Some entry →
  getObject c (Z.of_nat i)
  = if (obj entry =? 0)%N then inl (StdException "invalid object")
    else inr (obj entry, type_ entry).
Proof.
  intros Hsize Hi. pose proof (lookup_lt_Some _ _ _ Hi) as Hlt.
  unfold getObject. cbv zeta.
  destruct (Z.eqb_spec (Z.of_nat i) (-1)) as [|_]; [lia|].
  rewrite Z.mod_small by lia.
  destruct (Z.ltb_spec (Z.of_nat i) 0) as [|_]; [lia|].
  destruct (Z.leb_spec (Z.of_nat (length (objects c))) (Z.of_nat i)) as [|_]; [lia|].
  simpl. rewrite Nat2Z.id.
  by rewrite (nth_lookup_Some _ _ _ _ Hi).
Qed.

Lemma getObject_last (c : RestRequestParsingContext) (o : N) (type : string) :
  (Z.of_nat (length (objects c)) < 2 ^ 31 - 1)%Z →
  getObject (addObject c o type) (-1)
  = if (o =? 0)%N then inl (StdException "invalid object") else inr (o, type).
Proof.
  intros Hsize.
  assert (Hlen : length (objects (addObject c o type)) = S (length (objects c))).
  { unfold addObject. simpl. rewrite length_app. simpl. lia. }
  unfold getObject. cbv zeta. rewrite Hlen.
  change (-1 =? -1)%Z with true. cbv iota.
  rewrite (Z.mod_small (_ + -1)) by lia. rewrite int32_small by lia.
  rewrite Z.mod_small by lia.
  destruct (Z.ltb_spec (Z.of_nat (S (length (objects c))) + -1) 0) as [|_]; [lia|].
  destruct (Z.leb_spec (Z.of_nat (S (length (objects c))))
              (Z.of_nat (S (length (objects c))) + -1)) as [|_]; [lia|].
  simpl orb. cbv iota.
  replace (Z.to_nat (Z.of_nat (S (length (objects c))) + -1))
    with (length (objects c)) by lia.
  unfold addObject. simpl objects. by rewrite app_nth2, Nat.sub_diag by lia.
Qed.

(** X8. [getObject()] gives back the object that [addObject] added last and
    its type; [getObject(i)] gives the object and the type of the [i]-th
    entry, counted from 0 in the order of the additions, which later
    additions do not disturb. On a context without objects, on an index at
    or past the number of objects and on any negative index but -1, it
    throws (offsets from the end other than -1 are not interpreted); on a
    null object it throws too. *)
Theorem getObject_after_addObject (c : RestRequestParsingContext) (o : N)
    (type : string) :
  (Z.of_nat (length (objects c)) < 2 ^ 31 - 1)%Z →
  (o ≠ 0%N → getObject (addObject c o type) (-1) = inr (o, type))
  ∧ (o = 0%N →
     getObject (addObject c o type) (-1) = inl (StdException "invalid object"))
  ∧ (∀ i, (0 ≤ i < Z.of_nat (length (objects c)))%Z →
          getObject (addObject c o type) i = getObject c i)
  ∧ (objects c = [] →
     getObject c (-1) = inl (StdException "Attempt to extract invalid object number"))
  ∧ (∀ i, (i < -1 ∨ Z.of_nat (length (objects c)) ≤ i < 2 ^ 63)%Z →
          getObject c i = inl (StdException "Attempt to extract invalid object number"))
  ∧ (∀ i entry, objects c !! i = Some entry →
       getObject c (Z.of_nat i)
       = if (obj entry =? 0)%N then inl (StdException "invalid object")
         else inr (obj entry, type_ entry))
  ∧ (∀ i entry, objects c !! i = Some entry →
       getObject (addObject c o type) (Z.of_nat i)
       = if (obj entry =? 0)%N then inl (StdException "invalid object")
         else inr (obj entry, type_ entry)).
Proof.
  intros Hsize.
  assert (Hlen : length (objects (addObject c o type)) = S (length (objects c))).
  { unfold addObject. simpl. rewrite length_app. simpl. lia. }
  split; [|split; [|split; [|split; [|split; [|split]]]]];
    [| | | | |intros i entry Hi; apply getObject_at; [lia|done]
     |intros i entry Hi; apply getObject_at;
        [rewrite Hlen; lia|unfold addObject; simpl; by apply lookup_app_l_Some]].
  - intros Ho. rewrite getObject_last by done. by destruct (N.eqb_spec o 0).
  - intros ->. by rewrite getObject_last.
  - intros i Hi.
    destruct (lookup_lt_is_Some_2 (objects c) (Z.to_nat i) ltac:(lia)) as [entry He].
    replace i with (Z.of_nat (Z.to_nat i)) by lia.
    rewrite (getObject_at c _ entry) by (done || lia).
    apply getObject_at; [rewrite Hlen; lia|].
    unfold addObject. simpl. by apply lookup_app_l_Some.
  - intros Hnil. unfold getObject. rewrite Hnil. reflexivity.
  - intros i Hi. unfold getObject. cbv zeta.
    destruct (Z.eqb_spec i (-1)) as [|_]; [lia|].
    destruct (Z.ltb_spec i 0) as [|Hpos]; [done|].
    rewrite Z.mod_small by lia.
    destruct (Z.leb_spec (Z.of_nat (length (objects c))) i) as [|]; [done|lia].
Qed.

(** Two objects on a context. *)
Lemma getObject_sample :
  let c := addObject (addObject (mkContext [] [] "") 7 "Dataset") 9 "Subject" in
  getObject c (-1) = inr (9%N, "Subject"%string)
  ∧ getObject c 0 = inr (7%N, "Dataset"%string)
  ∧ getObject c (-2) = inl (StdException "Attempt to extract invalid object number").
Proof.
  intros c.
  destruct (getObject_after_addObject (addObject (mkContext [] [] "") 7 "Dataset")
              9 "Subject") as (Hlast & _ & _ & _ & Hout & _ & Hat); [simpl; lia|].
  split; [|split].
  - by apply Hlast.
  - apply (Hat 0 (mkObject 7 "Dataset")). reflexivity.
  - apply (Hout (-2)%Z). lia.
Defined.

Section GetObjectAs.
Variable shared_ptr : string → string.
Variable type_name : string → string.
Variable demangle : string → string.

(** X9. [getObjectAs<As>] is type safe. After [addObject] of an object of
    type [T], [getObjectAs<T>()] gives the object; after [addSharedPtr] of a
    shared pointer to [T], it gives what the pointer points to; and asking
    for a type [As] that is neither the type the entry was added with nor
    the type it is a shared pointer to throws. Where [getObject] throws,
    [getObjectAs] throws the same. *)
Theorem getObjectAs_checks_type (c : RestRequestParsingContext) (o : N)
    (T : string) :
  (Z.of_nat (length (objects c)) < 2 ^ 31 - 1)%Z → o ≠ 0%N →
  getObjectAs shared_ptr type_name demangle (addObject c o T) T (-1)
  = inr (o, Direct)
  ∧ (shared_ptr T ≠ T →
     getObjectAs shared_ptr type_name demangle (addSharedPtr shared_ptr c o T) T (-1)
     = inr (o, ThroughSharedPtr))
  ∧ (∀ As, As ≠ T → shared_ptr As ≠ T →
     getObjectAs shared_ptr type_name demangle (addObject c o T) As (-1)
     = inl (StdException ("wanted to get object of type " +:+ type_name As
                          +:+ " from incompatible object of type "
                          +:+ demangle T)))
  ∧ (∀ c' As index e,
     getObject c' index = inl e →
     getObjectAs shared_ptr type_name demangle c' As index = inl e).
Proof.
  intros Hsize Ho. unfold getObjectAs, addSharedPtr.
  rewrite !getObject_last by done.
  destruct (N.eqb_spec o 0) as [|_]; [done|]. rewrite String.eqb_refl.
  split; [done|]. split; [|split].
  - intros Hne. destruct (String.eqb_spec T (shared_ptr T)) as [|_]; [congruence|].
    by rewrite String.eqb_refl.
  - intros As H1 H2.
    destruct (String.eqb_spec As T) as [|_]; [done|].
    by destruct (String.eqb_spec (shared_ptr As) T) as [|_].
  - by intros c' As index e ->.
Qed.

End GetObjectAs.

(** An entry of type [Dataset], asked for as [Dataset] and as [Subject]. *)
Lemma getObjectAs_sample :
  let shared_ptr name := ("shared_ptr<" +:+ name +:+ ">")%string in
  let c := mkContext [] [] "" in
  getObjectAs shared_ptr id id (addObject c 7 "Dataset") "Dataset" (-1)
  = inr (7%N, Direct)
  ∧ getObjectAs shared_ptr id id (addSharedPtr shared_ptr c 7 "Dataset") "Dataset" (-1)
    = inr (7%N, ThroughSharedPtr)
  ∧ getObjectAs shared_ptr id id (addObject c 7 "Dataset") "Subject" (-1)
    = inl (StdException
             "wanted to get object of type Subject from incompatible object of type Dataset").
Proof.
  intros shared_ptr c.
  destruct (getObjectAs_checks_type shared_ptr id id c 7 "Dataset"
              ltac:(simpl; lia) ltac:(done)) as (H1 & H2 & H3 & _).
  split; [exact H1|]. split; [by apply H2|]. by apply (H3 "Subject"%string).
Defined.

End ContextObjectsSpec.

(** ** The order of the parser's callbacks *)

Module ParserOrderSpec.
Import Parser ParserSpec.

(** *** The order of the callbacks *)

(** The callbacks that may come at each point of a response: after
    [onResponseStart] the headers, then the data, and [onDone] at the end.
    [HEADERS] is the point where no data was reported yet. *)
Definition next (st : State) (cb : callback) : option State :=
  match st, cb with
  | STATUS_LINE, OnResponseStart _ _ => Some HEADERS
  | HEADERS, OnHeader _ => Some HEADERS
  | HEADERS, OnData _ | BODY, OnData _ => Some BODY
  | HEADERS, OnDone | BODY, OnDone => Some STATUS_LINE
  | _, _ => None
  end.

Fixpoint inOrder (st : State) (cbs : list callback) : option State :=
  match cbs with
  | [] => Some st
  | cb :: cbs' =>
      match next st cb with
      | Some st' => inOrder st' cbs'
      | None => None
      end
  end.

(** The point [pt] stands for the state [st] of the parser: the same, or
    the parser is in the body and has reported no data yet. *)
Definition standsFor (pt st : State) : Prop :=
  pt = st ∨ (pt = HEADERS ∧ st = BODY).

Lemma inOrder_app (st : State) (c1 c2 : list callback) :
  inOrder st (c1 ++ c2)
  = match inOrder st c1 with Some st' => inOrder st' c2 | None => None end.
Proof.
  revert st. induction c1 as [|cb c1 IH]; intros st; simpl; [done|].
  destruct (next st cb); [apply IH|done].
Qed.

(** A result whose callbacks are in order from [pt] and end at a point that
    stands for the state of its parser. *)
Definition ordered (pt : State) (r : result) : Prop :=
  ∃ pt', inOrder pt (callbacks r) = Some pt' ∧ standsFor pt' (state_ (parser r)).

Lemma ordered_emit (pt mid : State) (cbs : list callback) (r : result) :
  inOrder pt cbs = Some mid → ordered mid r → ordered pt (emit cbs r).
Proof.
  intros H (pt' & H1 & H2). exists pt'. unfold emit. simpl.
  rewrite inOrder_app, H. done.
Qed.

Lemma ordered_quiet (pt : State) (p : HttpResponseParser) (o : outcome) :
  standsFor pt (state_ p) → ordered pt (mkResult p [] o).
Proof. intros H. by exists pt. Qed.

Section WithAntoi.
Variable antoi : bytes → option Z.

Lemma handleHeader_ordered (p : HttpResponseParser) (line : bytes) :
  state_ (parser (handleHeader antoi p line)) = state_ p
  ∧ (callbacks (handleHeader antoi p line) = [OnHeader line]
     ∨ callbacks (handleHeader antoi p line) = []
       ∧ exit (handleHeader antoi p line) ≠ Returned).
Proof.
  unfold handleHeader. destruct (matchString _ _ _); [|by split; [|left]].
  cbv zeta. destruct (antoi _); simpl; [by split; [|left]|].
  split; [done|]. by right.
Qed.

Local Ltac quiet :=
  unfold stashHeader, stashUnlessFromBuffer, clearIfFromBuffer, ret, throw;
  apply ordered_quiet;
  repeat match goal with |- context [if ?b then _ else _] => destruct b end;
  simpl; by left.

Lemma headerLines_ordered (fuel : nat) (fromBuffer : bool) (data : bytes)
    (p : HttpResponseParser) (ptr : nat) :
  state_ p = HEADERS →
  match headerLines antoi fuel fromBuffer data p ptr with
  | Leave r => ordered HEADERS r
  | Again p' ptr' cbs => inOrder HEADERS cbs = Some HEADERS ∧ state_ p' = HEADERS
  end.
Proof.
  revert p ptr. induction fuel as [|fuel IH]; intros p ptr Hst.
  { simpl. destruct (Ascii.eqb _ _); [done|]. apply ordered_quiet. by left. }
  rewrite headerLines_unfold.
  destruct (Ascii.eqb (at_ data ptr) CR); [done|].
  destruct (skipToChar ":" true data ptr) as [e|[[] i]]; try quiet.
  destruct (skipToChar CR false data i) as [e|[[] j]]; try quiet.
  destruct (S j =? length data); [quiet|].
  destruct (negb _); [quiet|]. cbv zeta.
  set (h := handleHeader antoi p (range data ptr (S (S j) - 2))).
  destruct (handleHeader_ordered p (range data ptr (S (S j) - 2))) as [Hs Hc].
  fold h in Hs, Hc. rewrite Hst in Hs.
  assert (Hleave : ordered HEADERS h).
  { exists HEADERS. split; [|by left].
    destruct Hc as [-> |[-> _]]; done. }
  destruct (exit h) eqn:Hexit; [|done|done].
  destruct Hc as [Hc|[_ Hc]]; [|done].
  destruct (S (S j) =? length data).
  - apply (ordered_emit HEADERS HEADERS); [by rewrite Hc|].
    unfold clearIfFromBuffer, ret. apply ordered_quiet.
    destruct fromBuffer; simpl; by left.
  - specialize (IH (parser h) (S (S j)) Hs).
    destruct (headerLines antoi fuel fromBuffer data (parser h) (S (S j)))
      as [p' ptr' cbs|r].
    + destruct IH as [H1 H2]. split; [|done]. by rewrite Hc.
    + apply (ordered_emit HEADERS HEADERS); [by rewrite Hc|done].
Qed.

Lemma ordered_body (pt : State) (r : result) :
  ordered BODY r → standsFor pt BODY → ordered pt r.
Proof.
  intros (pt' & H1 & H2) [->|[-> _]]; [by exists pt'|].
  destruct (callbacks r) as [|cb cbs] eqn:Hc.
  - simpl in H1. injection H1 as <-. exists HEADERS. rewrite Hc. split; [done|].
    destruct H2 as [<-|[? _]]; [by right|done].
  - exists pt'. rewrite Hc. split; [|done]. simpl in *. by destruct cb.
Qed.

Lemma feedLoop_ordered (fuel : nat) (fromBuffer : bool) (data : bytes)
    (p : HttpResponseParser) (ptr : nat) :
  ordered (state_ p) (feedLoop antoi fuel fromBuffer data p ptr).
Proof.
  revert p ptr. induction fuel as [|fuel IH]; intros p ptr.
  { apply ordered_quiet. by left. }
  rewrite feedLoop_unfold.
  destruct (ptr =? length data); [quiet|].
  destruct (state_ p) eqn:Hst.
  - (* the status line *)
    unfold statusLine. cbv zeta.
    destruct (length data - ptr <? 16); [rewrite <- Hst; quiet|].
    destruct (negb _); [rewrite <- Hst; quiet|].
    destruct (skipToChar SP true data (ptr + 5)) as [e|[[] i]];
      try (rewrite <- Hst; quiet).
    destruct (skipToChar SP true data (S i)) as [e|[[] i2]];
      try (rewrite <- Hst; quiet).
    destruct (antoi _); [|rewrite <- Hst; quiet].
    destruct (skipToChar CR false data i2) as [e|[[] j]];
      try (rewrite <- Hst; quiet).
    destruct (S j =? length data); [rewrite <- Hst; quiet|].
    destruct (negb _); [rewrite <- Hst; quiet|].
    destruct (S (S j) =? length data).
    + apply (ordered_emit STATUS_LINE HEADERS); [done|].
      apply ordered_quiet. by left.
    + apply (ordered_emit STATUS_LINE HEADERS); [done|].
      apply (IH (set_state p HEADERS)).
  - (* the headers *)
    unfold headers. cbv zeta.
    pose proof (headerLines_ordered (length data) fromBuffer data p ptr Hst) as Hh.
    destruct (headerLines antoi (length data) fromBuffer data p ptr)
      as [p' ptr' cbs|r]; [|done].
    destruct Hh as [Hcbs Hst'].
    destruct (ptr' + 1 =? length data).
    { apply (ordered_emit HEADERS HEADERS); [done|].
      apply ordered_quiet. simpl. by left. }
    destruct (negb _).
    { apply (ordered_emit HEADERS HEADERS); [done|].
      apply ordered_quiet. by left. }
    destruct (remainingBody_ p' =? 0)%N.
    + destruct (length data =? 0).
      * apply (ordered_emit HEADERS STATUS_LINE); [by rewrite inOrder_app, Hcbs|].
        unfold clearIfFromBuffer, ret. apply ordered_quiet.
        destruct fromBuffer; simpl; by left.
      * apply (ordered_emit HEADERS STATUS_LINE); [by rewrite inOrder_app, Hcbs|].
        apply (IH (set_state p' STATUS_LINE)).
    + destruct (length data =? 0).
      * apply (ordered_emit HEADERS HEADERS); [by rewrite inOrder_app, Hcbs|].
        unfold clearIfFromBuffer, ret. apply ordered_quiet.
        destruct fromBuffer; simpl; by right.
      * apply (ordered_emit HEADERS HEADERS); [by rewrite inOrder_app, Hcbs|].
        apply (ordered_body HEADERS); [|by right].
        apply (IH (set_state p' BODY)).
  - (* the body *)
    unfold body. cbv zeta. simpl remainingBody_.
    destruct (_ =? 0)%N.
    + apply (ordered_emit BODY STATUS_LINE); [done|].
      apply (IH (set_state (set_remainingBody p _) STATUS_LINE)).
    + apply (ordered_emit BODY BODY); [done|].
      pose proof (IH (set_remainingBody p
                        (remainingBody_ p
                         - N.of_nat (N.to_nat (N.min (N.of_nat (length data - ptr))
                                                 (remainingBody_ p)))))
                    (ptr + N.to_nat (N.min (N.of_nat (length data - ptr))
                                       (remainingBody_ p)))) as IH'.
      simpl in IH'. by rewrite Hst in IH'.
Qed.

Lemma feed_ordered (pt : State) (p : HttpResponseParser) (data : bytes) :
  standsFor pt (state_ p) → ordered pt (feed antoi p data).
Proof.
  intros Hat.
  assert (H : ordered (state_ p) (feed antoi p data)).
  { unfold feed. destruct (0 <? length (buffer_ p)); cbv zeta.
    - apply (feedLoop_ordered _ true _ (set_buffer p _)).
    - apply feedLoop_ordered. }
  destruct Hat as [->|[-> Hb]]; [done|].
  rewrite Hb in H. by apply (ordered_body HEADERS) in H; [|right].
Qed.

Lemma feedAll_ordered (chunks : list bytes) (pt : State) (p : HttpResponseParser) :
  standsFor pt (state_ p) → ordered pt (feedAll antoi p chunks).
Proof.
  revert pt p. induction chunks as [|c chunks IH]; intros pt p Hat.
  - by apply ordered_quiet.
  - simpl. destruct (feed_ordered pt p c Hat) as (mid & H1 & H2).
    destruct (exit (feed antoi p c)); [|by exists mid|by exists mid].
    apply (ordered_emit pt mid); [done|]. by apply IH.
Qed.

(** X10. Whatever bytes the parser is fed, in whatever chunks, it invokes
    its callbacks in the order of a response: [onResponseStart], then
    [onHeader] for each header, then [onData], then [onDone], and again for
    the next response. From a parser at a status line, no [onHeader],
    [onData] or [onDone] comes before an [onResponseStart], and no
    [onHeader] after the [onData] of the same response. *)
Theorem callbacks_in_order (p : HttpResponseParser) (chunks : list bytes) :
  ∃ pt,
    inOrder (state_ p) (callbacks (feedAll antoi p chunks)) = Some pt
    ∧ (pt = state_ (parser (feedAll antoi p chunks))
       ∨ (pt = HEADERS ∧ state_ (parser (feedAll antoi p chunks)) = BODY)).
Proof. apply feedAll_ordered. by left. Qed.

End WithAntoi.

End ParserOrderSpec.

(** ** A whole response *)

Module ParserResponseSpec.
Import Parser ParserSpec.

(** *** A whole response *)

(** A header line as [feed] takes it: a name without colon or line break,
    the colon, and a value without carriage return. *)
Definition headerLine (h : bytes) : Prop :=
  ∃ name value,
    h = name ++ ":"%char :: value
    ∧ (":"%char ∉ name) ∧ (CR ∉ name) ∧ (LF ∉ name) ∧ (CR ∉ value).

(** The header lines on the wire. *)
Definition headerBlock (hs : list bytes) : bytes :=
  concat (map (λ h, h ++ CRLF) hs).

(** What [feed] rejects where a header line or the blank line is due, and
    the exception: a header line whose carriage return is not followed by a
    line feed, a line that ends before a colon, and a carriage return at the
    start of a line that is not followed by a line feed. *)
Inductive headerViolation : bytes → Exception → Prop :=
| line_without_line_feed (name value : bytes) (x : ascii) (rest : bytes) :
    (":"%char ∉ name) ∧ (CR ∉ name) ∧ (LF ∉ name) → CR ∉ value → x ≠ LF →
    headerViolation (name ++ [":"%char] ++ value ++ [CR; x] ++ rest)
      (MLException "expected \n")
| line_without_colon (x : ascii) (name : bytes) (y : ascii) (rest : bytes) :
    x ≠ CR → x ≠ LF → x ≠ ":"%char →
    (":"%char ∉ name) ∧ (CR ∉ name) ∧ (LF ∉ name) → y = CR ∨ y = LF →
    headerViolation (x :: name ++ [y] ++ rest) (MLException "unexpected end of line")
| blank_without_line_feed (x : ascii) (rest : bytes) :
    x ≠ LF →
    headerViolation ([CR; x] ++ rest) (MLException "expected \n").

Lemma skipToChar_from_eol (c : ascii) (pre : bytes) (y : ascii) (rest : bytes)
    (ptr : nat) :
  c ∉ pre → CR ∉ pre → LF ∉ pre → y = CR ∨ y = LF → y ≠ c →
  skipToChar_from c true (pre ++ y :: rest) ptr
  = inl (MLException "unexpected end of line").
Proof.
  revert ptr. induction pre as [|x pre IH]; intros ptr Hc Hcr Hlf Hy Hyc; simpl.
  - destruct (Ascii.eqb_spec y c) as [|_]; [done|].
    by destruct Hy as [-> | ->].
  - apply not_elem_of_cons in Hc as [Hx Hc].
    apply not_elem_of_cons in Hcr as [Hx1 Hcr].
    apply not_elem_of_cons in Hlf as [Hx2 Hlf].
    destruct (Ascii.eqb_spec x c) as [->|_]; [done|].
    destruct (Ascii.eqb_spec x CR) as [->|_]; [done|].
    destruct (Ascii.eqb_spec x LF) as [->|_]; [done|].
    simpl. by apply IH.
Qed.

Section WithAntoi.
Variable antoi : bytes → option Z.

(** [remainingBody_] after [handleHeader] has seen the lines [hs], if
    [ML::antoi] throws on none. *)
Fixpoint afterHeaders (rem : N) (hs : list bytes) : option N :=
  match hs with
  | [] => Some rem
  | h :: hs' =>
      let r := handleHeader antoi (mkParser HEADERS [] rem) h in
      match exit r with
      | Returned => afterHeaders (remainingBody_ (parser r)) hs'
      | _ => None
      end
  end.

Lemma handleHeader_returned (p : HttpResponseParser) (line : bytes) :
  exit (handleHeader antoi p line) = Returned →
  callbacks (handleHeader antoi p line) = [OnHeader line].
Proof.
  unfold handleHeader. destruct (matchString _ _ _); [|done].
  cbv zeta. by destruct (antoi _).
Qed.

(** The run over one header line and its line break. *)
Lemma runTail_line (h rest : bytes) (rem : N) :
  headerLine h →
  exit (handleHeader antoi (mkParser HEADERS [] rem) h) = Returned →
  runTail antoi HEADERS rem (h ++ CR :: LF :: rest)
  = temit [OnHeader h]
      (runTail antoi HEADERS
         (remainingBody_ (parser (handleHeader antoi (mkParser HEADERS [] rem) h)))
         rest).
Proof.
  intros (name & value & -> & Hn1 & Hn2 & Hn3 & Hv) Hexit.
  set (h := name ++ ":"%char :: value) in *.
  set (d := h ++ CR :: LF :: rest).
  assert (Hd : ∃ x d0, d = x :: d0 ∧ x ≠ CR).
  { unfold d, h. destruct name as [|a name]; simpl.
    - by eexists _, _.
    - apply not_elem_of_cons in Hn2 as [Ha _]. by eexists _, _. }
  destruct Hd as (x & d0 & Hd & Hx).
  pose proof (runTail_header antoi rem x d0 Hx) as R. cbv zeta in R.
  rewrite <- Hd in R. rewrite R. clear R.
  assert (Hlen : length h = length name + length (":"%char :: value)).
  { unfold h. by rewrite length_app. }
  assert (D1 : d = name ++ ":"%char :: (value ++ CR :: LF :: rest)).
  { unfold d, h. by rewrite <- app_assoc. }
  assert (E1 : skipToChar_from ":" true d 0 = inr (true, 0 + length name)).
  { rewrite D1. by apply skipToChar_from_found. }
  rewrite E1. simpl plus.
  assert (D2 : drop (length name) d = (":"%char :: value) ++ CR :: LF :: rest).
  { rewrite D1. by rewrite drop_app_length. }
  assert (E2 : skipToChar_from CR false (drop (length name) d) (length name)
               = inr (true, length name + length (":"%char :: value))).
  { rewrite D2. apply skipToChar_from_found; [|done].
    apply not_elem_of_cons. by split. }
  rewrite E2, <- Hlen.
  assert (Hdl : length d = length h + S (S (length rest))).
  { unfold d. rewrite length_app. done. }
  destruct (Nat.eqb_spec (S (length h)) (length d)) as [|_]; [lia|].
  assert (Hlf : at_ d (S (length h)) = LF).
  { unfold d. replace (h ++ CR :: LF :: rest) with ((h ++ [CR]) ++ LF :: rest)
      by (by rewrite <- app_assoc).
    replace (S (length h)) with (length (h ++ [CR]))
      by (rewrite length_app; simpl; lia).
    apply at_app_length. }
  rewrite Hlf. simpl negb. cbv iota zeta.
  assert (Htake : take (length h) d = h) by (unfold d; by rewrite take_app_length).
  assert (Hdrop : drop (S (S (length h))) d = rest).
  { unfold d. replace (h ++ CR :: LF :: rest) with ((h ++ [CR; LF]) ++ rest)
      by (by rewrite <- app_assoc).
    replace (S (S (length h))) with (length (h ++ [CR; LF]))
      by (rewrite length_app; simpl; lia).
    by rewrite drop_app_length. }
  rewrite Htake, Hdrop, Hexit, (handleHeader_returned _ _ Hexit). done.
Qed.

Lemma runTail_headerBlock (hs : list bytes) (rest : bytes) (rem rem' : N) :
  Forall headerLine hs → afterHeaders rem hs = Some rem' →
  runTail antoi HEADERS rem (headerBlock hs ++ rest)
  = temit (map OnHeader hs) (runTail antoi HEADERS rem' rest).
Proof.
  intros Hhs. revert rem. induction Hhs as [|h hs Hh _ IH]; intros rem Hafter.
  - simpl in *. injection Hafter as ->. by rewrite temit_nil.
  - simpl in Hafter.
    destruct (exit (handleHeader antoi (mkParser HEADERS [] rem) h)) eqn:Hexit;
      [|done|done].
    unfold headerBlock. simpl. rewrite <- !app_assoc. simpl.
    fold (headerBlock hs). rewrite (runTail_line h _ rem Hh Hexit), (IH _ Hafter).
    by rewrite temit_temit.
Qed.

(** The run from the header lines to the end of the body. *)
Lemma runTail_response (hs : list bytes) (body : bytes) (rem : N) :
  Forall headerLine hs →
  afterHeaders rem hs = Some (N.of_nat (length body)) →
  runTail antoi HEADERS rem (headerBlock hs ++ CRLF ++ body)
  = mkTrace
      (map OnHeader hs ++ (if length body =? 0 then [OnDone] else [OnData body; OnDone]))
      STATUS_LINE 0 (Pending []).
Proof.
  intros Hhs Hafter. rewrite (runTail_headerBlock hs _ rem _ Hhs Hafter).
  change (CRLF ++ body) with (CR :: LF :: body). rewrite runTail_blank.
  simpl negb. cbv iota.
  destruct body as [|x body].
  - simpl. rewrite runTail_nil. done.
  - destruct (N.eqb_spec (N.of_nat (length (x :: body))) 0) as [H|_];
      [simpl in H; lia|].
    rewrite runTail_body by done. cbv zeta.
    replace (N.min (N.of_nat (length (x :: body))) (N.of_nat (length (x :: body))))
      with (N.of_nat (length (x :: body))) by lia.
    rewrite Nat2N.id, N.sub_diag, N.eqb_refl, firstn_all, drop_all, runTail_nil.
    done.
Qed.

(** The status line of a response, whole at the front of the data. *)
Lemma statusLine_parsed (p : HttpResponseParser) (version code reason rest : bytes)
    (n : Z) :
  (SP ∉ version) ∧ (CR ∉ version) ∧ (LF ∉ version) →
  (SP ∉ code) ∧ (CR ∉ code) ∧ (LF ∉ code) →
  CR ∉ reason → antoi code = Some n →
  let line := str "HTTP/" ++ version ++ [SP] ++ code ++ [SP] ++ reason ++ CRLF in
  16 ≤ length (line ++ rest) →
  statusLine antoi false (line ++ rest) p 0
  = let cb := OnResponseStart (str "HTTP/" ++ version) n in
    if length line =? length (line ++ rest)
    then Leave (emit [cb] (ret (set_buffer (set_state p HEADERS) [])))
    else Again (set_state p HEADERS) (length line) [cb].
Proof.
  intros (Hv1 & Hv2 & Hv3) (Hc1 & Hc2 & Hc3) Hreason Hcode line Hlen.
  set (data := line ++ rest) in *.
  unfold statusLine. rewrite Nat.sub_0_r.
  destruct (Nat.ltb_spec (length data) 16); [lia|].
  assert (Hhttp : range data 0 (0 + 5) = str "HTTP/") by reflexivity.
  rewrite Hhttp. unfold bytes_eqb. rewrite bool_decide_eq_true_2 by done.
  cbv zeta. simpl negb. cbv iota.
  assert (D1 : data = str "HTTP/" ++ version
                      ++ SP :: code ++ [SP] ++ reason ++ CRLF ++ rest).
  { unfold data, line. by rewrite <- ?app_assoc. }
  assert (E1 : skipToChar SP true data (0 + 5) = inr (true, 5 + length version)).
  { rewrite D1. apply (skipToChar_found SP true (str "HTTP/") version); done. }
  rewrite E1.
  set (b2 := str "HTTP/" ++ version ++ [SP]).
  assert (Hb2 : length b2 = S (5 + length version)).
  { unfold b2. rewrite !length_app. simpl. lia. }
  assert (D2 : data = b2 ++ code ++ SP :: reason ++ CRLF ++ rest).
  { rewrite D1. unfold b2. by rewrite <- ?app_assoc. }
  assert (E2 : skipToChar SP true data (S (5 + length version))
               = inr (true, S (5 + length version) + length code)).
  { rewrite <- Hb2, D2. apply skipToChar_found; done. }
  rewrite E2.
  assert (R : range data (S (5 + length version))
                (S (5 + length version) + length code) = code).
  { rewrite <- Hb2, D2. apply range_app. }
  rewrite R, Hcode.
  set (b3 := b2 ++ code).
  assert (Hb3 : length b3 = S (5 + length version) + length code).
  { unfold b3. rewrite length_app. lia. }
  assert (D3 : data = b3 ++ (SP :: reason) ++ CR :: LF :: rest).
  { rewrite D2. unfold b3. by rewrite <- ?app_assoc. }
  assert (E3 : skipToChar CR false data (S (5 + length version) + length code)
               = inr (true, S (5 + length version) + length code
                            + length (SP :: reason))).
  { rewrite <- Hb3, D3. apply skipToChar_found; [|done].
    apply not_elem_of_cons. split; [done|done]. }
  rewrite E3.
  set (b4 := b3 ++ (SP :: reason) ++ [CR]).
  assert (Hb4 : length b4
                = S (S (5 + length version) + length code + length (SP :: reason))).
  { unfold b4. rewrite !length_app, Hb3. simpl. lia. }
  assert (D4 : data = b4 ++ LF :: rest).
  { rewrite D3. unfold b4. by rewrite <- ?app_assoc. }
  rewrite <- Hb4.
  destruct (Nat.eqb_spec (length b4) (length data)) as [Heq|_].
  { rewrite D4, length_app in Heq. simpl in Heq. lia. }
  rewrite D4 at 1. rewrite at_app_length. simpl negb. cbv iota.
  assert (Hline : length line = S (length b4)).
  { assert (line = b4 ++ [LF]) as ->.
    { unfold line, b4, b3, b2. by rewrite <- ?app_assoc. }
    rewrite length_app. simpl. lia. }
  rewrite <- Hline.
  assert (Htake : take (5 + length version) data = str "HTTP/" ++ version).
  { rewrite D1, app_assoc.
    replace (5 + length version) with (length (str "HTTP/" ++ version))
      by (by rewrite length_app).
    by rewrite take_app_length. }
  rewrite Htake. done.
Qed.

(** [feed] on a status line and what follows it: the version and the code
    are reported, and the rest is read as from the header stage. *)
Lemma feed_statusLine (p : HttpResponseParser) (version code reason rest : bytes)
    (n : Z) :
  state_ p = STATUS_LINE → buffer_ p = [] →
  (SP ∉ version) ∧ (CR ∉ version) ∧ (LF ∉ version) →
  (SP ∉ code) ∧ (CR ∉ code) ∧ (LF ∉ code) →
  CR ∉ reason → antoi code = Some n →
  let line := str "HTTP/" ++ version ++ [SP] ++ code ++ [SP] ++ reason ++ CRLF in
  16 ≤ length (line ++ rest) →
  ∃ r, feed antoi p (line ++ rest)
       = emit [OnResponseStart (str "HTTP/" ++ version) n] r
     ∧ refines r (runTail antoi HEADERS (remainingBody_ p) rest).
Proof.
  intros Hst Hbuf Hversion Hcode Hreason Hn line Hlen.
  set (data := line ++ rest) in *.
  rewrite feed_fresh by done. unfold feedFuel.
  replace (2 * length data + 2) with (S (2 * length data + 1)) by lia.
  rewrite feedLoop_unfold, Hst.
  destruct (Nat.eqb_spec 0 (length data)) as [|_]; [lia|].
  pose proof (statusLine_parsed p version code reason rest n Hversion Hcode Hreason
                Hn Hlen) as Hsl.
  change (statusLine antoi false data p 0
          = (if length line =? length data
             then Leave (emit [OnResponseStart (str "HTTP/" ++ version) n]
                           (ret (set_buffer (set_state p HEADERS) [])))
             else Again (set_state p HEADERS) (length line)
                    [OnResponseStart (str "HTTP/" ++ version) n])) in Hsl.
  rewrite Hsl. clear Hsl.
  destruct (Nat.eqb_spec (length line) (length data)) as [Heq|Hne].
  - eexists. split; [reflexivity|].
    assert (rest = []) as ->.
    { unfold data in Heq. rewrite length_app in Heq. apply nil_length_inv. lia. }
    rewrite runTail_nil. unfold refines. simpl. by destruct p.
  - eexists. split; [reflexivity|].
    pose proof (feedLoop_refines antoi (2 * length data + 1) false data
                  (set_state p HEADERS) (length line)) as Href.
    assert (Hdrop : drop (length line) data = rest)
      by (unfold data; apply drop_app_length).
    rewrite Hdrop in Href. apply Href.
    + done.
    + unfold data. rewrite length_app. lia.
    + destruct (decide _); [done|]. lia.
Qed.

(** X11. A whole response in one call. When the data starts with a status
    line [HTTP/<version> <code> <reason>], goes on with header lines and a
    blank line, and ends with a body of as many bytes as the headers make
    [remainingBody_], [feed] reports in this order the version and the code,
    each header line without its line break, the body in one range when
    there is one, and [onDone]; it returns with the parser at the next
    status line and nothing kept in the buffer. *)
Theorem feed_whole_response (p : HttpResponseParser)
    (version code reason : bytes) (n : Z) (hs : list bytes) (body : bytes) :
  state_ p = STATUS_LINE → buffer_ p = [] →
  (SP ∉ version) ∧ (CR ∉ version) ∧ (LF ∉ version) →
  (SP ∉ code) ∧ (CR ∉ code) ∧ (LF ∉ code) →
  CR ∉ reason → antoi code = Some n →
  Forall headerLine hs →
  afterHeaders (remainingBody_ p) hs = Some (N.of_nat (length body)) →
  let line := str "HTTP/" ++ version ++ [SP] ++ code ++ [SP] ++ reason ++ CRLF in
  16 ≤ length (line ++ headerBlock hs ++ CRLF ++ body) →
  feed antoi p (line ++ headerBlock hs ++ CRLF ++ body)
  = mkResult (mkParser STATUS_LINE [] 0)
      (OnResponseStart (str "HTTP/" ++ version) n
       :: map OnHeader hs
       ++ (if length body =? 0 then [OnDone] else [OnData body; OnDone]))
      Returned.
Proof.
  intros Hst Hbuf Hversion Hcode Hreason Hn Hhs Hafter line Hlen.
  destruct (feed_statusLine p version code reason (headerBlock hs ++ CRLF ++ body) n
              Hst Hbuf Hversion Hcode Hreason Hn Hlen) as (r & Hfeed & Href).
  fold line in Hfeed. rewrite Hfeed.
  rewrite (runTail_response hs body _ Hhs Hafter) in Href.
  unfold refines in Href. cbn [t_stop t_cbs t_state t_rem] in Href.
  by rewrite Href.
Qed.

End WithAntoi.

(** *** Violations *)

Section Violations.
Variable antoi : bytes → option Z.

(** The run stops at a violation. *)
Lemma runTail_violation (bad : bytes) (e : Exception) (rem : N) :
  headerViolation bad e →
  runTail antoi HEADERS rem bad = mkTrace [] HEADERS rem (Failed e).
Proof.
  intros [name value x rest (Hn1 & Hn2 & Hn3) Hvalue Hx
         |x name y rest Hx1 Hx2 Hx3 (Hn1 & Hn2 & Hn3) Hy
         |x rest Hx].
  - set (d := name ++ [":"%char] ++ value ++ [CR; x] ++ rest).
    assert (Hd : ∃ x0 d0, d = x0 :: d0 ∧ x0 ≠ CR).
    { unfold d. destruct name as [|a name]; simpl; [by eexists _, _|].
      apply not_elem_of_cons in Hn2 as [Ha _]. eexists _, _. split; [done|].
      congruence. }
    destruct Hd as (x0 & d0 & Hd & Hx0).
    rewrite Hd, (runTail_header antoi rem x0 d0 Hx0). cbv zeta. rewrite <- Hd.
    assert (E1 : skipToChar_from ":" true d 0 = inr (true, length name)).
    { unfold d. apply (skipToChar_from_found ":" true name _ 0 Hn1). done. }
    rewrite E1.
    assert (Hdrop : drop (length name) d = (":"%char :: value) ++ CR :: x :: rest).
    { unfold d. by rewrite drop_app_length. }
    assert (E2 : skipToChar_from CR false (drop (length name) d) (length name)
                 = inr (true, length name + length (":"%char :: value))).
    { rewrite Hdrop. apply skipToChar_from_found; [|done].
      apply not_elem_of_cons. split; [done|done]. }
    rewrite E2.
    set (b4 := name ++ (":"%char :: value) ++ [CR]).
    assert (Hb4 : length b4 = S (length name + length (":"%char :: value))).
    { unfold b4. rewrite !length_app. simpl. lia. }
    assert (D4 : d = b4 ++ x :: rest).
    { unfold d, b4. by rewrite <- ?app_assoc. }
    rewrite <- Hb4.
    destruct (Nat.eqb_spec (length b4) (length d)) as [Heq|_].
    { rewrite D4, length_app in Heq. simpl in Heq. lia. }
    rewrite D4 at 1. rewrite at_app_length.
    by destruct (Ascii.eqb_spec x LF).
  - rewrite (runTail_header antoi rem x (name ++ [y] ++ rest) Hx1). cbv zeta.
    assert (E1 : skipToChar_from ":" true (x :: name ++ [y] ++ rest) 0
                 = inl (MLException "unexpected end of line")).
    { apply (skipToChar_from_eol ":" (x :: name) y rest 0).
      - apply not_elem_of_cons. split; [congruence|done].
      - apply not_elem_of_cons. split; [congruence|done].
      - apply not_elem_of_cons. split; [congruence|done].
      - done.
      - by destruct Hy as [-> | ->]. }
    by rewrite E1.
  - change ([CR; x] ++ rest) with (CR :: x :: rest). rewrite runTail_blank.
    by destruct (Ascii.eqb_spec x LF).
Qed.


End Violations.

(** *** A response with a [Content-Length] header, in chunks *)

Lemma skipToChar_from_missing (c : ascii) (l : bytes) (ptr : nat) :
  c ∉ l → skipToChar_from c false l ptr = inr (false, ptr + length l).
Proof.
  revert ptr. induction l as [|x l IH]; intros ptr Hc; simpl.
  - f_equal. f_equal. lia.
  - apply not_elem_of_cons in Hc as [Hx Hc].
    destruct (Ascii.eqb_spec x c) as [->|_]; [done|].
    rewrite IH by done. f_equal. f_equal. lia.
Qed.

Lemma bodyBytes_events (cbs : list callback) : bodyBytes (events cbs) = bodyBytes cbs.
Proof.
  unfold bodyBytes, events. induction cbs as [|cb cbs IH]; [done|].
  simpl. rewrite flat_map_app, IH. f_equal.
  destruct cb; simpl; try done.
  induction data as [|x data IHd]; [done|]. simpl. by rewrite IHd.
Qed.

Lemma count_done_events (cbs : list callback) :
  count_occ callback_eq_dec (events cbs) OnDone = count_occ callback_eq_dec cbs OnDone.
Proof.
  unfold events. induction cbs as [|cb cbs IH]; [done|].
  simpl flat_map. rewrite count_occ_app, IH.
  assert (Hdata : ∀ d, count_occ callback_eq_dec (map (λ x, OnData [x]) d) OnDone = 0).
  { intros d. apply count_occ_not_In. intros Hin.
    apply in_map_iff in Hin as (x & Hx & _). done. }
  destruct cb as [v c|h|d|]; rewrite ?Hdata; simpl;
    try (destruct (callback_eq_dec _ _)); try done; lia.
Qed.

Section Sized.
Variable antoi : bytes → option Z.

(** The status line of a response. *)
Definition statusLineOf (version code reason : bytes) : bytes :=
  str "HTTP/" ++ version ++ [SP] ++ code ++ [SP] ++ reason ++ CRLF.

(** The status line is not whole yet in the buffer, which holds its two
    spaces: the call returns and the buffer is left as it is. *)
Lemma statusLine_kept (q : HttpResponseParser) (version code w : bytes) (n : Z) :
  (SP ∉ version) ∧ (CR ∉ version) ∧ (LF ∉ version) →
  (SP ∉ code) ∧ (CR ∉ code) ∧ (LF ∉ code) →
  antoi code = Some n →
  (CR ∉ w ∨ ∃ w', w = w' ++ [CR] ∧ CR ∉ w') →
  let data := str "HTTP/" ++ version ++ [SP] ++ code ++ [SP] ++ w in
  16 ≤ length data →
  statusLine antoi true data q 0 = Leave (ret q).
Proof.
  intros (Hv1 & Hv2 & Hv3) (Hc1 & Hc2 & Hc3) Hcode Hw data Hlen.
  unfold statusLine. rewrite Nat.sub_0_r.
  destruct (Nat.ltb_spec (length data) 16); [lia|].
  assert (Hhttp : range data 0 (0 + 5) = str "HTTP/") by reflexivity.
  rewrite Hhttp. unfold bytes_eqb. rewrite bool_decide_eq_true_2 by done.
  cbv zeta. simpl negb. cbv iota.
  assert (E1 : skipToChar SP true data (0 + 5) = inr (true, 5 + length version)).
  { apply (skipToChar_found SP true (str "HTTP/") version); done. }
  rewrite E1.
  set (b2 := str "HTTP/" ++ version ++ [SP]).
  assert (Hb2 : length b2 = S (5 + length version)).
  { unfold b2. rewrite !length_app. simpl. lia. }
  assert (D2 : data = b2 ++ code ++ SP :: w).
  { unfold data, b2. by rewrite <- ?app_assoc. }
  assert (E2 : skipToChar SP true data (S (5 + length version))
               = inr (true, S (5 + length version) + length code)).
  { rewrite <- Hb2, D2. apply skipToChar_found; done. }
  rewrite E2.
  assert (R : range data (S (5 + length version))
                (S (5 + length version) + length code) = code).
  { rewrite <- Hb2, D2. apply range_app. }
  rewrite R, Hcode.
  set (b3 := b2 ++ code).
  assert (Hb3 : length b3 = S (5 + length version) + length code).
  { unfold b3. rewrite length_app. lia. }
  assert (D3 : data = b3 ++ SP :: w).
  { rewrite D2. unfold b3. by rewrite <- ?app_assoc. }
  rewrite <- Hb3.
  destruct Hw as [Hw|(w' & -> & Hw')].
  - assert (E3 : skipToChar CR false data (length b3)
                 = inr (false, length b3 + length (SP :: w))).
    { unfold skipToChar. rewrite D3, drop_app_length.
      apply skipToChar_from_missing. apply not_elem_of_cons. by split. }
    rewrite E3. done.
  - assert (D4 : data = b3 ++ (SP :: w') ++ CR :: []).
    { rewrite D3. by rewrite <- ?app_assoc. }
    assert (E3 : skipToChar CR false data (length b3)
                 = inr (true, length b3 + length (SP :: w'))).
    { rewrite D4. apply skipToChar_found; [|done].
      apply not_elem_of_cons. by split. }
    rewrite E3.
    assert (Hend : S (length b3 + length (SP :: w')) = length data).
    { rewrite D4, !length_app. simpl. lia. }
    rewrite Hend, Nat.eqb_refl. done.
Qed.


Section Arrival.
Variables version code reason : bytes.
Variable status : Z.
Hypothesis Hversion : (SP ∉ version) ∧ (CR ∉ version) ∧ (LF ∉ version).
Hypothesis Hcode : (SP ∉ code) ∧ (CR ∉ code) ∧ (LF ∉ code).
Hypothesis Hreason : CR ∉ reason.
Hypothesis Hstatus : antoi code = Some status.

Let line := statusLineOf version code reason.

Lemma statusLineOf_length :
  length line = 9 + length version + length code + length reason.
Proof. unfold line, statusLineOf. rewrite !length_app. simpl. lia. Qed.

(** A part of the status line that holds its two spaces. *)
Lemma statusLine_part (A rest' rest : bytes) :
  A ++ rest' = line ++ rest → length A < length line →
  7 + length version + length code ≤ length A →
  ∃ w, A = str "HTTP/" ++ version ++ [SP] ++ code ++ [SP] ++ w
     ∧ (CR ∉ w ∨ ∃ w', w = w' ++ [CR] ∧ CR ∉ w').
Proof.
  intros Heq Hlt Hge. pose proof statusLineOf_length as Hline.
  set (b := str "HTTP/" ++ version ++ [SP] ++ code ++ [SP]).
  assert (Hb : length b = 7 + length version + length code).
  { unfold b. rewrite !length_app. simpl. lia. }
  assert (HA : A = take (length A) line).
  { apply (f_equal (take (length A))) in Heq.
    rewrite take_app_length in Heq. etrans; [exact Heq|]. apply take_app_le. lia. }
  assert (Hl : line = b ++ reason ++ CRLF).
  { unfold line, statusLineOf, b. by rewrite <- ?app_assoc. }
  rewrite Hl, take_app_ge in HA by lia.
  exists (take (length A - length b) (reason ++ CRLF)). split.
  { rewrite HA at 1. unfold b. by rewrite <- ?app_assoc. }
  destruct (decide (length A - length b ≤ length reason)) as [Hm|Hm].
  - left. rewrite take_app_le by done. intros Hin. apply Hreason.
    by apply (subseteq_take (length A - length b) reason).
  - right. exists reason. split; [|done].
    replace (length A - length b) with (length reason + 1) by lia.
    rewrite take_app_add'; done.
Qed.

(** A call that does not get to the end of the status line, with fewer than
    16 bytes in all or from a buffer that holds the two spaces, reads nothing
    and keeps every byte. *)
Lemma feed_waits (q : HttpResponseParser) (c rest' rest : bytes) :
  state_ q = STATUS_LINE →
  (buffer_ q ++ c) ++ rest' = line ++ rest →
  (length (buffer_ q ++ c) < 16
   ∨ (buffer_ q ≠ [] ∧ length (buffer_ q ++ c) < length line
      ∧ length version + length code ≤ 9)) →
  feed antoi q c = ret (set_buffer q (buffer_ q ++ c)).
Proof.
  intros Hst Heq Hcase. set (A := buffer_ q ++ c) in *.
  unfold feed. destruct (Nat.ltb_spec 0 (length (buffer_ q))) as [Hbuf|Hbuf].
  - cbv zeta. simpl buffer_. fold A.
    assert (HlenA : 0 < length A) by (unfold A; rewrite length_app; lia).
    unfold feedFuel. replace (2 * length A + 2) with (S (2 * length A + 1)) by lia.
    rewrite feedLoop_unfold. simpl state_. rewrite Hst.
    destruct (Nat.eqb_spec 0 (length A)) as [|_]; [lia|].
    destruct (decide (length A < 16)) as [Hshort|Hlong].
    + unfold statusLine. rewrite Nat.sub_0_r.
      destruct (Nat.ltb_spec (length A) 16); [done|lia].
    + destruct Hcase as [|(_ & Hlt & Hsp)]; [lia|].
      destruct (statusLine_part A rest' rest Heq Hlt ltac:(lia)) as (w & HA & Hw).
      rewrite HA.
      rewrite (statusLine_kept _ version code w status Hversion Hcode Hstatus Hw);
        [done|]. rewrite <- HA. lia.
  - assert (Hnil : buffer_ q = []) by (apply length_zero_iff_nil; lia).
    assert (HA : A = c) by (unfold A; by rewrite Hnil). rewrite HA in *.
    destruct Hcase as [Hshort|(Hne & _)]; [|done].
    unfold feedFuel. replace (2 * length c + 2) with (S (2 * length c + 1)) by lia.
    rewrite feedLoop_unfold, Hst.
    destruct (Nat.eqb_spec 0 (length c)) as [Hc0|_].
    + assert (c = []) as -> by (apply length_zero_iff_nil; lia).
      destruct q. simpl in *. by subst.
    + unfold statusLine. rewrite Nat.sub_0_r.
      destruct (Nat.ltb_spec (length c) 16); [done|lia].
Qed.

Lemma waiting_app (a b : list bytes) (p : HttpResponseParser) :
  waiting antoi p (a ++ b)
  ↔ waiting antoi p a ∧ waiting antoi (set_buffer p (buffer_ p ++ concat a)) b.
Proof.
  revert p. induction a as [|c a IH]; intros p; simpl.
  - rewrite app_nil_r. destruct p. simpl. tauto.
  - rewrite IH. unfold set_buffer. simpl. rewrite app_assoc. tauto.
Qed.

Lemma waiting_empties (empties : list bytes) (p : HttpResponseParser) :
  buffer_ p = [] → concat empties = [] → waiting antoi p empties.
Proof.
  intros Hbuf. induction empties as [|c l IH]; intros Hcat; [done|].
  simpl in Hcat. apply app_eq_nil in Hcat as [-> Hcat]. simpl.
  assert (Hp : set_buffer p (buffer_ p ++ []) = p).
  { destruct p. simpl in *. by rewrite app_nil_r. }
  rewrite Hp, feed_nil by done. split; [done|]. by apply IH.
Qed.

(** With bytes in the buffer, the calls wait up to the one after which the
    whole status line and at least 16 bytes are there. *)
Lemma arrives_buffered (rest : bytes) (chunks : list bytes) :
  ∀ q, state_ q = STATUS_LINE → buffer_ q ≠ [] →
    length (buffer_ q) < 16 `max` length line →
    length version + length code ≤ 9 →
    buffer_ q ++ concat chunks = line ++ rest →
    16 ≤ length (line ++ rest) →
    ∃ pre c post,
      chunks = pre ++ c :: post ∧ waiting antoi q pre
      ∧ length (buffer_ q ++ concat pre) < 16 `max` length line
      ∧ 16 `max` length line ≤ length (buffer_ q ++ concat pre ++ c).
Proof.
  induction chunks as [|c chunks IH]; intros q Hst Hne Hlt Hsp Heq H16.
  - change (concat []) with (@nil ascii) in Heq.
    rewrite app_nil_r in Heq. rewrite Heq in Hlt.
    rewrite length_app in Hlt, H16. lia.
  - destruct (decide (16 `max` length line ≤ length (buffer_ q ++ c))) as [Hge|Hless].
    + exists [], c, chunks. simpl. rewrite app_nil_r. done.
    + change (concat (c :: chunks)) with (c ++ concat chunks) in Heq.
      rewrite app_assoc in Heq.
      assert (Hw : feed antoi q c = ret (set_buffer q (buffer_ q ++ c))).
      { apply (feed_waits q c (concat chunks) rest Hst Heq).
        destruct (decide (length (buffer_ q ++ c) < 16)); [by left|right].
        split; [done|]. split; [lia|done]. }
      destruct (IH (set_buffer q (buffer_ q ++ c))) as (pre & c' & post & -> & Hpre & H1 & H2);
        try done.
      { cbn [buffer_ set_buffer]. intros Hnil.
        apply app_eq_nil in Hnil as [Hnil _]. done. }
      { cbn [buffer_ set_buffer]. lia. }
      exists (c :: pre), c', post. split; [done|]. split; [by split|].
      cbn [buffer_ set_buffer concat] in *. rewrite <- !app_assoc in H1, H2.
      rewrite <- !app_assoc. done.
Qed.

(** The calls wait up to the one after which the whole status line and at
    least 16 bytes are there, when the first chunk that is not empty holds
    the whole status line, or is shorter than 16 bytes while the two spaces
    of the status line are among its first 16 bytes. *)
Lemma arrives (p : HttpResponseParser) (rest : bytes) (empties : list bytes)
    (c0 : bytes) (others : list bytes) :
  state_ p = STATUS_LINE → buffer_ p = [] →
  concat (empties ++ c0 :: others) = line ++ rest →
  16 ≤ length (line ++ rest) →
  concat empties = [] → c0 ≠ [] →
  (length line ≤ length c0
   ∨ (length c0 < 16 ∧ length version + length code ≤ 9)) →
  ∃ pre c post,
    empties ++ c0 :: others = pre ++ c :: post ∧ waiting antoi p pre
    ∧ length (concat pre) < 16 `max` length line
    ∧ 16 `max` length line ≤ length (concat pre ++ c).
Proof.
  intros Hst Hbuf Heq H16 Hempty Hc0 Hfirst.
  pose proof statusLineOf_length as Hline.
  pose proof (waiting_empties empties p Hbuf Hempty) as Hwe.
  rewrite concat_app, Hempty in Heq. simpl in Heq.
  destruct (decide (16 `max` length line ≤ length c0)) as [Hge|Hless].
  - exists empties, c0, others. rewrite Hempty. simpl. split; [done|].
    split; [done|]. split; [lia|done].
  - assert (Hshort : length c0 < 16 ∧ length version + length code ≤ 9) by lia.
    destruct Hshort as [Hshort Hsp].
    assert (Hw : feed antoi p c0 = ret (set_buffer p (buffer_ p ++ c0))).
    { apply (feed_waits p c0 (concat others) rest Hst); rewrite Hbuf; [done|by left]. }
    rewrite Hbuf in Hw. simpl in Hw.
    destruct (arrives_buffered rest others (set_buffer p c0))
      as (pre & c & post & -> & Hpre & H1 & H2); try done.
    { cbn [buffer_ set_buffer]. lia. }
    exists (empties ++ c0 :: pre), c, post. split.
    { by rewrite <- app_assoc. }
    split.
    { apply waiting_app. split; [done|].
      assert (Hp : set_buffer p (buffer_ p ++ concat empties) = p).
      { rewrite Hempty, Hbuf. destruct p. simpl in *. by subst. }
      rewrite Hp. split; rewrite Hbuf; [exact Hw|exact Hpre]. }
    rewrite concat_app, Hempty. cbn [buffer_ set_buffer concat app] in *.
    rewrite <- ?app_assoc. done.
Qed.

(** A call after which the whole status line and at least 16 bytes are there
    reports the response start first. *)
Lemma feed_settles (q : HttpResponseParser) (c rest0 : bytes) :
  state_ q = STATUS_LINE →
  buffer_ q ++ c = line ++ rest0 → 16 ≤ length (line ++ rest0) →
  head (callbacks (feed antoi q c))
  = Some (OnResponseStart (str "HTTP/" ++ version) status).
Proof.
  intros Hst Heq H16.
  set (p0 := mkParser STATUS_LINE [] (remainingBody_ q)).
  destruct (feed_statusLine antoi p0 version code reason rest0 status eq_refl eq_refl
              Hversion Hcode Hreason Hstatus H16) as (r0 & Hfeed0 & _).
  fold (statusLineOf version code reason) in Hfeed0. fold line in Hfeed0.
  assert (Hhead0 : head (callbacks (feed antoi p0 (line ++ rest0)))
                   = Some (OnResponseStart (str "HTTP/" ++ version) status)).
  { by rewrite Hfeed0. }
  rewrite feed_fresh in Hhead0 by done. unfold feedFuel in Hhead0.
  replace (2 * length (line ++ rest0) + 2)
    with (S (2 * length (line ++ rest0) + 1)) in Hhead0 by lia.
  destruct (feedLoop_start antoi _ false _ p0 _ _ eq_refl Hhead0)
    as (k & Hk & _ & Hends).
  destruct (feed_as_loop antoi q c) as (fb & q' & Hfeed & Hok & Hst' & Hrem').
  rewrite Heq in Hfeed, Hok.
  pose proof (Hends fb q' (drop k (line ++ rest0))) as Hturn.
  rewrite take_drop in Hturn.
  destruct (feedLoop_status antoi fb (line ++ rest0) q' k _ ltac:(by rewrite Hst')
              Hok Hk ltac:(lia) (Hturn H16)) as (r1 & E1 & _).
  by rewrite Hfeed, E1.
Qed.

(** Where the status line ends. *)
Lemma statusEnds_at (rest0 : bytes) (k : nat) (cb : callback) :
  16 ≤ length (line ++ rest0) → k ≤ length (line ++ rest0) →
  statusEnds antoi (line ++ rest0) k cb → k = length line.
Proof.
  intros H16 Hk Hends.
  pose proof (Hends false clear (drop k (line ++ rest0))) as Hturn.
  rewrite take_drop in Hturn. specialize (Hturn H16).
  pose proof (statusLine_parsed antoi clear version code reason rest0 status
                Hversion Hcode Hreason Hstatus H16) as Hparsed.
  fold (statusLineOf version code reason) in Hparsed. fold line in Hparsed.
  cbv zeta in Hparsed. rewrite Hparsed in Hturn.
  destruct (Nat.eqb_spec (length line) (length (line ++ rest0))) as [Heq|_];
    destruct (Nat.eqb_spec k (length (line ++ rest0))) as [Hkeq|_];
    try done; [lia|by injection Hturn].
Qed.

End Arrival.


Lemma afterHeaders_app (rem : N) (hs1 hs2 : list bytes) :
  afterHeaders antoi rem (hs1 ++ hs2)
  = match afterHeaders antoi rem hs1 with
    | Some rem1 => afterHeaders antoi rem1 hs2
    | None => None
    end.
Proof.
  revert rem. induction hs1 as [|h hs1 IH]; intros rem; [done|].
  simpl. destruct (exit (handleHeader antoi _ h)); [apply IH|done|done].
Qed.

Lemma afterHeaders_other (rem : N) (hs : list bytes) :
  Forall (λ h, matchString h 0 (str "Content-Length") = false) hs →
  afterHeaders antoi rem hs = Some rem.
Proof.
  induction 1 as [|h hs Hh _ IH]; [done|].
  simpl. unfold handleHeader. rewrite Hh. simpl. exact IH.
Qed.

Lemma headerBlock_app (hs1 hs2 : list bytes) :
  headerBlock (hs1 ++ hs2) = headerBlock hs1 ++ headerBlock hs2.
Proof. unfold headerBlock. by rewrite map_app, concat_app. Qed.

Lemma events_headers (hs : list bytes) : events (map OnHeader hs) = map OnHeader hs.
Proof. unfold events. induction hs as [|h hs IH]; [done|]. simpl. by rewrite IH. Qed.

Lemma bodyBytes_app (c1 c2 : list callback) :
  bodyBytes (c1 ++ c2) = bodyBytes c1 ++ bodyBytes c2.
Proof. apply flat_map_app. Qed.

Lemma bodyBytes_headers (hs : list bytes) : bodyBytes (map OnHeader hs) = [].
Proof. unfold bodyBytes. induction hs as [|h hs IH]; [done|]. exact IH. Qed.

Lemma bodyBytes_bytes (body : bytes) :
  bodyBytes (map (λ x, OnData [x]) body) = body.
Proof.
  unfold bodyBytes. induction body as [|x body IH]; [done|]. simpl. by rewrite IH.
Qed.

(** A name that reads [Content-Length] in some letter case has no colon and
    no line break. *)
Lemma length_name_clean (name : bytes) :
  map tolower name = map tolower (str "Content-Length") →
  (":"%char ∉ name) ∧ (CR ∉ name) ∧ (LF ∉ name).
Proof.
  intros Hname.
  assert (H : ∀ x, tolower x = x → x ∉ map tolower (str "Content-Length") → x ∉ name).
  { intros x Hx Hnot Hin. apply Hnot. rewrite <- Hname, <- Hx.
    by apply list_elem_of_fmap_2. }
  repeat split; apply H; try reflexivity;
    apply (bool_decide_unpack _); vm_compute; exact I.
Qed.


End Sized.



(** [HTTP/1.1 200 OK] with a length of five and the body [hello]. *)
Lemma feed_whole_response_sample :
  feed antoi_decimal clear
    (str "HTTP/1.1 200 OK" ++ CRLF
     ++ str "Host: a" ++ CRLF ++ str "Content-Length: 5" ++ CRLF ++ CRLF
     ++ str "hello")
  = mkResult (mkParser STATUS_LINE [] 0)
      [OnResponseStart (str "HTTP/1.1") 200; OnHeader (str "Host: a");
       OnHeader (str "Content-Length: 5"); OnData (str "hello"); OnDone]
      Returned.
Proof.
  apply (feed_whole_response antoi_decimal clear (str "1.1") (str "200") (str "OK")
           200 [str "Host: a"; str "Content-Length: 5"] (str "hello")).
  - reflexivity.
  - reflexivity.
  - repeat split; apply (bool_decide_unpack _); vm_compute; exact I.
  - repeat split; apply (bool_decide_unpack _); vm_compute; exact I.
  - apply (bool_decide_unpack _). vm_compute. exact I.
  - reflexivity.
  - constructor; [|constructor; [|constructor]].
    + exists (str "Host"), (str " a").
      repeat split; try reflexivity; apply (bool_decide_unpack _); vm_compute; exact I.
    + exists (str "Content-Length"), (str " 5").
      repeat split; try reflexivity; apply (bool_decide_unpack _); vm_compute; exact I.
  - reflexivity.
  - simpl. lia.
Defined.


End ParserResponseSpec.

(** ** Responses handed to HttpClientSimpleCallbacks *)

Module SimpleCallbacksSpec.
Import Parser ParserSpec ParserResponseSpec SimpleCallbacks.

Lemma deliver_app (s : HttpClientSimpleCallbacks) (c1 c2 : list callback) :
  deliver s (c1 ++ c2)
  = let '(s1, out1) := deliver s c1 in
    let '(s2, out2) := deliver s1 c2 in
    (s2, out1 ++ out2).
Proof.
  revert s. induction c1 as [|cb c1 IH]; intros s; simpl.
  - by destruct (deliver s c2).
  - destruct (onParser s cb) as [s' out]. rewrite IH.
    destruct (deliver s' c1) as [s1 out1]. destruct (deliver s1 c2) as [s2 out2].
    by rewrite app_assoc.
Qed.

Lemma deliver_bytes (s : HttpClientSimpleCallbacks) (d : bytes) :
  deliver s (map (λ x, OnData [x]) d) = (onData s d, []).
Proof.
  revert s. induction d as [|x d IH]; intros s; simpl.
  - unfold onData. rewrite app_nil_r. by destruct s.
  - rewrite IH. unfold onData. simpl. by rewrite <- app_assoc.
Qed.

Lemma deliver_events (s : HttpClientSimpleCallbacks) (cbs : list callback) :
  deliver s (events cbs) = deliver s cbs.
Proof.
  revert s. induction cbs as [|cb cbs IH]; intros s; [done|].
  replace (events (cb :: cbs)) with (events [cb] ++ events cbs)
    by (unfold events; simpl; by rewrite app_nil_r).
  rewrite deliver_app.
  assert (H1 : deliver s (events [cb]) = onParser s cb).
  { destruct cb; simpl; try (by destruct s).
    rewrite app_nil_r. apply deliver_bytes. }
  rewrite H1. cbn [deliver]. destruct (onParser s cb) as [s' out].
  by rewrite IH.
Qed.

Lemma deliver_headers (s : HttpClientSimpleCallbacks) (hs : list bytes) :
  deliver s (map OnHeader hs)
  = (mkSimple (statusCode_ s) (headers_ s ++ concat hs) (body_ s), []).
Proof.
  revert s. induction hs as [|h hs IH]; intros s; simpl.
  - rewrite app_nil_r. by destruct s.
  - rewrite IH. simpl. by rewrite <- app_assoc.
Qed.

Lemma deliver_data (s : HttpClientSimpleCallbacks) (ds : list bytes) :
  deliver s (map OnData ds)
  = (mkSimple (statusCode_ s) (headers_ s) (body_ s ++ concat ds), []).
Proof.
  revert s. induction ds as [|d ds IH]; intros s; simpl.
  - rewrite app_nil_r. by destruct s.
  - rewrite IH. simpl. by rewrite <- app_assoc.
Qed.

Lemma deliver_response (s : HttpClientSimpleCallbacks) (httpVersion : bytes)
    (code : Z) (hs ds : list bytes) :
  deliver s (OnResponseStart httpVersion code
             :: map OnHeader hs ++ map OnData ds ++ [OnDone])
  = (newSimple,
     [mkResponse 0 code (headers_ s ++ concat hs) (body_ s ++ concat ds)]).
Proof.
  simpl. rewrite deliver_app, deliver_headers. simpl.
  by rewrite deliver_app, deliver_data.
Qed.

(** X12. [HttpClientSimpleCallbacks] hands to [onResponse_], at [onDone],
    the last status code, the header lines put end to end (without the line
    breaks, which the parser takes off) and the body ranges put end to end,
    and starts afresh. What it hands over does not depend on how the body was
    cut into [onData] ranges. *)
Theorem simple_callbacks_collect (s : HttpClientSimpleCallbacks) :
  (∀ httpVersion code hs ds,
     deliver s (OnResponseStart httpVersion code
                :: map OnHeader hs ++ map OnData ds ++ [OnDone])
     = (newSimple,
        [mkResponse 0 code (headers_ s ++ concat hs) (body_ s ++ concat ds)]))
  ∧ (∀ cbs1 cbs2, events cbs1 = events cbs2 → deliver s cbs1 = deliver s cbs2).
Proof.
  split.
  - intros v code hs ds. apply deliver_response.
  - intros cbs1 cbs2 H. by rewrite <- (deliver_events s cbs1), H, deliver_events.
Qed.

Section WithAntoi.
Variable antoi : bytes → option Z.

(** The calls chunk by chunk and the one call, started at a status line
    that is whole in the first chunk. *)
Lemma feed_first_chunk_events (p : HttpResponseParser) (first : bytes)
    (chunks : list bytes) :
  buffer_ p = [] →
  (state_ p = BODY → remainingBody_ p ≠ 0%N) →
  (state_ p = STATUS_LINE →
   ∃ v code, head (callbacks (feed antoi p (removelast first)))
             = Some (OnResponseStart v code)) →
  OnDone ∉ callbacks (feed antoi p (removelast (concat (first :: chunks)))) →
  events (callbacks (feedAll antoi p (first :: chunks)))
  = events (callbacks (feed antoi p (concat (first :: chunks)))).
Proof.
  intros Hbuf Hrem Hstart Hno.
  destruct (decide (state_ p = STATUS_LINE)) as [Hst|Hst];
    [|by apply feed_chunks].
  destruct (Hstart Hst) as (v & code & Hhead). clear Hstart.
  destruct (decide (first = [])) as [->|Hne].
  { simpl in Hhead. by rewrite feed_nil_callbacks in Hhead. }
  pose proof (app_removelast_last "000"%char Hne) as Hfirst.
  set (a := removelast first) in *. set (x := List.last first "000"%char) in *.
  clearbody a x. subst first.
  destruct (feed_status antoi a p v code Hst Hbuf Hhead) as (k & Hk & Hall).
  set (rest := concat chunks) in *.
  assert (Hwhole : concat ((a ++ [x]) :: chunks) = a ++ x :: rest).
  { simpl. by rewrite <- app_assoc. }
  rewrite Hwhole in *.
  rewrite removelast_app in Hno by done.
  destruct (Hall (x :: rest)) as (rw & Ew & Rw).
  destruct (Hall [x]) as (r1 & E1 & R1).
  destruct (Hall (removelast (x :: rest))) as (rl & El & Rl).
  rewrite <- removelast_app in Rl by done.
  change (feedAll antoi p ((a ++ [x]) :: chunks))
    with (andThen antoi (feed antoi p (a ++ [x])) chunks).
  rewrite E1, Ew, andThen_emit.
  pose proof (andThen_follows antoi chunks r1 HEADERS (remainingBody_ p)
                (drop k a ++ [x]) (feedAll_follows antoi chunks) R1) as Hparts.
  fold rest in Hparts. rewrite <- app_assoc in Hparts.
  change ([x] ++ rest) with (x :: rest) in Hparts.
  assert (Hesc : ∀ left, t_stop (runTail antoi HEADERS (remainingBody_ p)
                                   (drop k a ++ x :: rest)) ≠ Completed left).
  { intros left. apply no_escape; [done|done|].
    intros Hin. apply Hno. rewrite El. unfold emit. simpl.
    apply elem_of_cons. right. by eapply refines_callbacks. }
  destruct (follows_refines _ _ _ Hparts Rw Hesc) as (H1 & _).
  unfold emit. cbn [callbacks]. by rewrite !events_app, H1.
Qed.

(** X13. A response read through [HttpConnection] into
    [HttpClientSimpleCallbacks] comes out the same however the bytes were cut
    into chunks: with an empty carry-over buffer, the status line whole in the
    first chunk (and one byte more) and no response ending before the last
    byte, the calls chunk by chunk hand to [onResponse_] what the single call
    on all the bytes hands to it, and leave the callbacks object the same. *)
Theorem response_independent_of_chunks (s : HttpClientSimpleCallbacks)
    (p : HttpResponseParser) (first : bytes) (chunks : list bytes) :
  buffer_ p = [] →
  (state_ p = BODY → remainingBody_ p ≠ 0%N) →
  (state_ p = STATUS_LINE →
   ∃ v code, head (callbacks (feed antoi p (removelast first)))
             = Some (OnResponseStart v code)) →
  OnDone ∉ callbacks (feed antoi p (removelast (concat (first :: chunks)))) →
  deliver s (callbacks (feedAll antoi p (first :: chunks)))
  = deliver s (callbacks (feed antoi p (concat (first :: chunks)))).
Proof.
  intros Hbuf Hrem Hstart Hno.
  rewrite <- (deliver_events s (callbacks (feedAll _ _ _))).
  rewrite (feed_first_chunk_events p first chunks Hbuf Hrem Hstart Hno).
  apply deliver_events.
Qed.

(** X14. A well-formed response is handed over once and whole, however its
    bytes come in. When the first chunk holds the status line
    [HTTP/<version> <code> <reason>] and is at least 16 bytes long, and the
    chunks after the status line make up header lines, a blank line and a
    body of as many bytes as the headers announce, the calls of [feed] chunk
    by chunk return, leave the parser at the next status line with an empty
    buffer, and make [HttpClientSimpleCallbacks] call [onResponse_] exactly
    once: with error 0, the code of the status line, the header lines put
    end to end and the body. *)
Theorem response_delivered_once (s : HttpClientSimpleCallbacks)
    (p : HttpResponseParser) (version code reason : bytes) (n : Z)
    (hs : list bytes) (body c0 : bytes) (cs : list bytes) :
  state_ p = STATUS_LINE → buffer_ p = [] →
  (SP ∉ version) ∧ (CR ∉ version) ∧ (LF ∉ version) →
  (SP ∉ code) ∧ (CR ∉ code) ∧ (LF ∉ code) →
  CR ∉ reason → antoi code = Some n →
  Forall headerLine hs →
  afterHeaders antoi (remainingBody_ p) hs = Some (N.of_nat (length body)) →
  let line := str "HTTP/" ++ version ++ [SP] ++ code ++ [SP] ++ reason ++ CRLF in
  16 ≤ length (line ++ c0) →
  concat (c0 :: cs) = headerBlock hs ++ CRLF ++ body →
  let r := feedAll antoi p ((line ++ c0) :: cs) in
  exit r = Returned
  ∧ parser r = mkParser STATUS_LINE [] 0
  ∧ deliver s (callbacks r)
    = (newSimple, [mkResponse 0 n (headers_ s ++ concat hs) (body_ s ++ body)]).
Proof.
  intros Hst Hbuf Hversion Hcode Hreason Hn Hhs Hafter line Hlen Hcat r.
  destruct (feed_statusLine antoi p version code reason c0 n
              Hst Hbuf Hversion Hcode Hreason Hn Hlen) as (r1 & Hfeed & Href).
  fold line in Hfeed.
  assert (Hr : r = emit [OnResponseStart (str "HTTP/" ++ version) n]
                 (andThen antoi r1 cs)).
  { unfold r.
    change (feedAll antoi p ((line ++ c0) :: cs))
      with (andThen antoi (feed antoi p (line ++ c0)) cs).
    by rewrite Hfeed, andThen_emit. }
  pose proof (andThen_follows antoi cs r1 HEADERS (remainingBody_ p) c0
                (feedAll_follows antoi cs) Href) as Hparts.
  change (concat (c0 :: cs)) with (c0 ++ concat cs) in Hcat.
  rewrite Hcat, (runTail_response antoi hs body _ Hhs Hafter) in Hparts.
  unfold follows in Hparts. cbn [t_stop t_cbs t_state t_rem] in Hparts.
  destruct Hparts as (Hev & Hexit & Hparser).
  rewrite Hr. unfold emit. cbn [exit parser callbacks].
  split; [done|]. split; [done|].
  rewrite <- deliver_events.
  change (OnResponseStart (str "HTTP/" ++ version) n :: callbacks (andThen antoi r1 cs))
    with ([OnResponseStart (str "HTTP/" ++ version) n] ++ callbacks (andThen antoi r1 cs)).
  rewrite events_app, Hev, <- events_app, deliver_events.
  destruct body as [|x body]; cbn [length Nat.eqb].
  - exact (deliver_response s (str "HTTP/" ++ version) n hs []).
  - pose proof (deliver_response s (str "HTTP/" ++ version) n hs [x :: body]) as H.
    cbn [concat] in H. rewrite (app_nil_r (x :: body)) in H. exact H.
Qed.

End WithAntoi.

(** A response with a body of five bytes, in four chunks, into callbacks
    that hold nothing yet. *)
Lemma response_independent_of_chunks_sample :
  let first := okLine ++ lengthLine ++ CRLF ++ str "he" in
  let chunks := [str "l"; []; str "lo"] in
  deliver newSimple (callbacks (feedAll antoi_decimal clear (first :: chunks)))
  = deliver newSimple (callbacks (feed antoi_decimal clear (concat (first :: chunks)))).
Proof.
  intros first chunks.
  apply (response_independent_of_chunks antoi_decimal newSimple clear first chunks).
  - reflexivity.
  - discriminate.
  - intros _. exists (str "HTTP/1.1"), 200%Z. vm_compute. reflexivity.
  - apply (bool_decide_unpack _). vm_compute. exact I.
Defined.

(** [HTTP/1.1 200 OK] with two header lines and the body [hello], cut inside
    a header line, inside the blank line and inside the body. *)
Lemma response_delivered_once_sample :
  let r := feedAll antoi_decimal clear
             [str "HTTP/1.1 200 OK" ++ CRLF ++ str "Host"; str ": a" ++ CRLF;
              str "Content-Length: 5" ++ CRLF ++ [CR]; [LF] ++ str "he"; [];
              str "llo"] in
  exit r = Returned
  ∧ parser r = mkParser STATUS_LINE [] 0
  ∧ deliver newSimple (callbacks r)
    = (newSimple,
       [mkResponse 0 200 (str "Host: aContent-Length: 5") (str "hello")]).
Proof.
  apply (response_delivered_once antoi_decimal newSimple clear
           (str "1.1") (str "200") (str "OK") 200
           [str "Host: a"; str "Content-Length: 5"] (str "hello") (str "Host")
           [str ": a" ++ CRLF; str "Content-Length: 5" ++ CRLF ++ [CR];
            [LF] ++ str "he"; []; str "llo"]).
  - reflexivity.
  - reflexivity.
  - repeat split; apply (bool_decide_unpack _); vm_compute; exact I.
  - repeat split; apply (bool_decide_unpack _); vm_compute; exact I.
  - apply (bool_decide_unpack _). vm_compute. exact I.
  - reflexivity.
  - constructor; [|constructor; [|constructor]].
    + exists (str "Host"), (str " a").
      repeat split; try reflexivity; apply (bool_decide_unpack _); vm_compute; exact I.
    + exists (str "Content-Length"), (str " 5").
      repeat split; try reflexivity; apply (bool_decide_unpack _); vm_compute; exact I.
  - reflexivity.
  - simpl. lia.
  - reflexivity.
Defined.

End SimpleCallbacksSpec.

(** ** The requests of the pool *)

Module HttpClientRequests.
Import TcpSocket HttpClient HttpClientSpec.

(** The requests that the pool holds: those of its connections, then the
    overflow list. *)
Definition held (stash : list HttpConnection) : list HttpRequest :=
  omap request_ stash.

Definition pending (c : HttpClient) : list HttpRequest :=
  held (connectionStash_ c) ++ inThreadQueue_ c.

Lemma held_insert (l : list HttpConnection) (i : nat) (x y : HttpConnection) :
  l !! i = Some x →
  option_list (request_ x) ++ held (<[i := y]> l)
  ≡ₚ option_list (request_ y) ++ held l.
Proof.
  unfold held. revert i. induction l as [|a l IH]; intros [|i] H; simplify_eq/=.
  - destruct (request_ x), (request_ y); simpl; try done. apply Permutation_swap.
  - specialize (IH i H). destruct (request_ a) as [ra|]; simpl; [|done].
    rewrite <- Permutation_middle, IH. by rewrite Permutation_middle.
Qed.

Lemma held_insert_same (l : list HttpConnection) (i : nat) (x y : HttpConnection) :
  l !! i = Some x → request_ y = request_ x → held (<[i := y]> l) = held l.
Proof.
  unfold held. revert i. induction l as [|a l IH]; intros [|i] H E; simplify_eq/=.
  - by rewrite E.
  - by rewrite (IH i H E).
Qed.

Lemma all_busy (l : list HttpConnection) :
  length (filter (λ conn, busy conn = true) l) = length l →
  Forall (λ conn, busy conn = true) l.
Proof.
  induction l as [|a l IH]; intros H; [done|].
  rewrite filter_cons in H. destruct (decide (busy a = true)) as [Ha|Ha].
  - simpl in H. constructor; [done|]. apply IH. lia.
  - pose proof (length_filter (λ conn, busy conn = true) l). simpl in H. lia.
Qed.

Lemma idle_no_request (conn : HttpConnection) : busy conn = false → request_ conn = None.
Proof.
  unfold busy. intros Hb. apply bool_decide_eq_false in Hb.
  destruct (request_ conn); [|done]. by destruct Hb.
Qed.

Section WithMove.
Variable movedFrom : HttpRequest → HttpRequest.


(** X16. The pool makes no request wait while a connection is idle, while
    every call of [connect()] gets under way. In every state reached from
    the construction: when the overflow list is not empty, the idle stack is
    empty and every connection holds a request; a queue event with a
    connection on the idle stack starts the request on the top one, which
    leaves the stack, and the overflow list stays as it is; with an empty
    idle stack the request goes to the end of the overflow list. *)
Theorem pool_queues_only_when_full (N : nat) (c : HttpClient) :
  reachable movedFrom N c →
  (inThreadQueue_ c ≠ [] →
   idleStack c = [] ∧ Forall (λ conn, busy conn = true) (connectionStash_ c))
  ∧ (∀ rq a i rest, underWay a → idleStack c = i :: rest →
       ∃ c' conn s,
         handleQueueEvent movedFrom [a] c rq = mkRun c' [] Returns
         ∧ connectionStash_ c !! i = Some conn
         ∧ connectionStash_ c'
           = <[i := mkConn s (address_ conn) HEADERS (Some rq)]> (connectionStash_ c)
         ∧ idleStack c' = rest
         ∧ inThreadQueue_ c' = inThreadQueue_ c)
  ∧ (∀ rq a, underWay a → idleStack c = [] →
       handleQueueEvent movedFrom [a] c rq
       = mkRun (mkClient (connectionStash_ c) (avlConnections_ c) (nextAvail_ c)
                  (inThreadQueue_ c ++ [rq])) [] Returns).
Proof.
  intros Hreach. pose proof (reachable_inv movedFrom N c Hreach) as Hinv.
  pose proof Hinv as [Hs Ha Hn Hc Hd Hi Hst Had Hq].
  split; [|split].
  - intros Hne. specialize (Hq Hne). split.
    + unfold idleStack. apply drop_ge. lia.
    + apply all_busy. unfold busyConnections in Hc. lia.
  - intros rq a i rest Hanswer Hidle.
    pose proof (handleQueueEvent_result movedFrom N c rq a Hinv Hanswer) as Hres.
    rewrite Hidle in Hres. destruct Hres as (conn & s & Hconn & Hb & Hres & Hrest).
    eexists _, conn, s. split; [exact Hres|]. by repeat split.
  - intros rq a Hanswer Hidle.
    pose proof (handleQueueEvent_result movedFrom N c rq a Hinv Hanswer) as Hres.
    by rewrite Hidle in Hres.
Qed.

End WithMove.

(** Two connections, both busy, and one request waiting: the first
    connection ends its request. *)
Definition sample_a : HttpRequest := mkRequest "GET" "http://h/a" "GET /a HTTP/1.1".
Definition sample_b : HttpRequest := mkRequest "GET" "http://h/b" "GET /b HTTP/1.1".
Definition sample_w : HttpRequest := mkRequest "PUT" "http://h/c" "PUT /c HTTP/1.1".

Definition sample_pool : HttpClient :=
  let c1 := pool (handleQueueEvent id [InProgress None] (newClient 2 "h" 8) sample_a) in
  let c2 := pool (handleQueueEvent id [InProgress None] c1 sample_b) in
  pool (handleQueueEvent id [] c2 sample_w).

Lemma sample_pool_reachable : reachable id 2 sample_pool.
Proof.
  eapply reachable_step; [eapply reachable_step; [eapply reachable_step|]|].
  - by apply (reachable_new id 2 "h" 8).
  - apply (step_queue id _ sample_a [InProgress None] _ []); [|reflexivity].
    constructor; [by left|constructor].
  - apply (step_queue id _ sample_b [InProgress None] _ []); [|reflexivity].
    constructor; [by left|constructor].
  - by apply (step_queue id _ sample_w [] _ []).
Defined.


Lemma pool_queues_only_when_full_sample :
  idleStack sample_pool = []
  ∧ Forall (λ conn, busy conn = true) (connectionStash_ sample_pool).
Proof.
  destruct (pool_queues_only_when_full id 2 sample_pool sample_pool_reachable)
    as (Hfull & _).
  apply Hfull. discriminate.
Defined.

End HttpClientRequests.

(** ** The upload of a request's content *)

Module HttpUploadSpec.
Import TcpSocket HttpUpload.
Import HttpClient(HttpResponseState, IDLE, HEADERS, BODY).

Lemma substring_length (s : string) (o k : nat) :
  o + k ≤ String.length s → String.length (substring o k s) = k.
Proof.
  revert o k. induction s as [|a s IH]; intros [|o] [|k] H; simpl in *; try lia; try done.
  - f_equal. apply (IH 0). lia.
  - apply (IH o 0). lia.
  - apply IH. lia.
Qed.

Lemma substring_app (s : string) (o k r : nat) :
  substring o k s +:+ substring (o + k) r s = substring o (k + r) s.
Proof.
  revert o k. induction s as [|a s IH]; intros [|o] [|k]; simpl; try done.
  rewrite RouterSpec.app_String. f_equal. apply (IH 0).
Qed.

Lemma concat_cons (m : string) (ms : list string) :
  String.concat "" (m :: ms) = m +:+ String.concat "" ms.
Proof.
  destruct ms as [|m' ms]; simpl.
  - revert m. fix IH 1. intros [|a m]; [done|]. rewrite RouterSpec.app_String.
    f_equal. apply IH.
  - done.
Qed.

Section WithSendSize.
Variable sendSize : Z.
Variable offset_t : Z → Z.

(** The upload from the report of a chunk on. *)
Lemma sendAll_body (cont : string) (fuel : nat) (c : HttpConnection) (o : nat)
    (msg : string) :
  (0 < sendSize < 2 ^ 64)%Z →
  (Z.of_nat (String.length cont) < 2 ^ 64)%Z →
  (∀ n, (0 ≤ n ≤ Z.of_nat (String.length cont))%Z → offset_t n = n) →
  content c = cont →
  canSendMessages (socket c) = true →
  0 < capacity (threadBuffer_ (socket c)) →
  responseState_ c = BODY →
  uploadOffset_ c = Z.of_nat o →
  items (threadBuffer_ (socket c)) = [msg] →
  o + String.length msg ≤ String.length cont →
  String.length cont - (o + String.length msg) + 1 < fuel →
  ∃ sent c',
    sendAll sendSize offset_t fuel c = (msg :: sent, Some c')
    ∧ String.concat "" sent
      = substring (o + String.length msg)
          (String.length cont - (o + String.length msg)) cont
    ∧ Forall (λ m, 0 < String.length m ∧ (Z.of_nat (String.length m) ≤ sendSize)%Z) sent
    ∧ responseState_ c' = IDLE
    ∧ items (threadBuffer_ (socket c')) = []
    ∧ content c' = cont.
Proof.
  intros Hsend Hsize Hfit. revert c o msg.
  induction fuel as [|fuel IH];
    intros c o msg Hcont Hcan Hcap Hst Hoff Hitems Hle Hfuel; [lia|].
  destruct c as [s st off cont']. simpl in *. subst st off cont'.

  unfold flushed. simpl. rewrite Hitems. unfold onWriteResult. simpl.
  set (size := Z.of_nat (String.length cont)) in *.
  set (w := String.length msg) in *.
  rewrite (Hfit (Z.of_nat o + Z.of_nat w)%Z) by lia.
  assert (Hrem : ((size - (Z.of_nat o + Z.of_nat w)) mod 2 ^ 64
                  = size - (Z.of_nat o + Z.of_nat w))%Z)
    by (apply Z.mod_small; lia).
  rewrite Hrem.
  set (chunk := Z.min (size - (Z.of_nat o + Z.of_nat w)) sendSize).
  destruct (Z.eqb_spec chunk 0) as [H0|Hpos].
  - (* nothing is left *)
    assert (o + w = String.length cont) by lia.
    destruct fuel as [|fuel]; simpl.
    + lia.
    + exists [], (mkUpload
                    (mkSocket (state_ s) (mkRing (capacity (threadBuffer_ s)) [])
                       (remainingMsgs_ s - 1) (wakeupSignals s))
                    IDLE (Z.of_nat o + Z.of_nat w) cont).
      simpl. split; [done|]. split.
      { replace (String.length cont - (o + w)) with 0 by lia.
        by destruct (substring _ 0 cont) eqn:E;
          [|pose proof (substring_length cont (o + w) 0 ltac:(lia)) as L;
            rewrite E in L]. }
      done.
  - assert (Hchunk : (0 < chunk ≤ sendSize)%Z) by lia.
    assert (Hin : (Z.of_nat o + Z.of_nat w + chunk ≤ size)%Z) by lia.
    rewrite (proj2 (Z.leb_le 0 _)) by lia.
    rewrite (proj2 (Z.leb_le _ _) Hin). simpl.
    replace (Z.to_nat (Z.of_nat o + Z.of_nat w)) with (o + w) by lia.
    set (k := Z.to_nat chunk).
    unfold write, canSendMessages in *. simpl. rewrite Hcan. unfold tryPush, full. simpl.
    destruct (Nat.leb_spec (capacity (threadBuffer_ s)) 0) as [|_]; [lia|].
    simpl.
    assert (Hk : o + w + k ≤ String.length cont) by lia.
    pose proof (substring_length cont (o + w) k Hk) as Hlen.
    destruct (IH (mkUpload
                    (mkSocket (state_ s)
                       (mkRing (capacity (threadBuffer_ s)) [substring (o + w) k cont])
                       (S (remainingMsgs_ s - 1)) (S (wakeupSignals s)))
                    BODY (Z.of_nat o + Z.of_nat w) cont)
                (o + w) (substring (o + w) k cont))
      as (sent & c' & Hrun & Hcat & Hall & Hidle & Hempty & Hcont'); simpl.
    + done.
    + done.
    + done.
    + done.
    + lia.
    + done.
    + rewrite Hlen. lia.
    + lia.
    + simpl in Hrun. rewrite Hrun.
      exists (substring (o + w) k cont :: sent), c'.
      split; [done|]. split.
      { rewrite concat_cons, Hcat, Hlen.
        rewrite substring_app. f_equal. lia. }
      split; [|done].
      constructor; [|done]. rewrite Hlen. lia.
Qed.

(** X17. The content of a request is uploaded whole. After [perform] has
    queued the request string on a socket that can send, with room in the
    queue for one message, a chunk size between 1 and 2^64 - 1 and a content
    whose size fits [uploadOffset_]: when every message is sent whole and
    reported, the messages after the request string are non-empty chunks of
    at most [sendSize] bytes that put end to end are the content, and the
    connection ends in state [IDLE] with an empty queue. *)
Theorem upload_sends_content (c : HttpConnection) (requestStr : string) :
  (0 < sendSize < 2 ^ 64)%Z →
  (Z.of_nat (String.length (content c)) < 2 ^ 64)%Z →
  (∀ n, (0 ≤ n ≤ Z.of_nat (String.length (content c)))%Z → offset_t n = n) →
  canSendMessages (socket c) = true →
  0 < capacity (threadBuffer_ (socket c)) →
  responseState_ c = HEADERS →
  items (threadBuffer_ (socket c)) = [requestStr] → requestStr ≠ ""%string →
  ∃ sent c',
    sendAll sendSize offset_t (String.length (content c) + 3) c
    = (requestStr :: sent, Some c')
    ∧ String.concat "" sent = content c
    ∧ Forall (λ m, 0 < String.length m ∧ (Z.of_nat (String.length m) ≤ sendSize)%Z) sent
    ∧ responseState_ c' = IDLE
    ∧ items (threadBuffer_ (socket c')) = []
    ∧ content c' = content c.
Proof.
  intros Hsend Hsize Hfit Hcan Hcap Hst Hitems _.
  destruct c as [s st off cont]. simpl in *. subst st.
  replace (String.length cont + 3) with (S (String.length cont + 2)) by lia.
  simpl. unfold flushed. simpl. rewrite Hitems. unfold onWriteResult. simpl.
  set (size := Z.of_nat (String.length cont)) in *.
  destruct (Z.ltb_spec 0 size) as [Hpos|Hzero]; simpl.
  - rewrite Z.sub_0_r, Z.mod_small by lia.
    set (chunk := Z.min size sendSize).
    destruct (Z.eqb_spec chunk 0) as [|_]; [lia|].
    rewrite (proj2 (Z.leb_le (0 + chunk) size)) by lia.
    change (Z.to_nat 0) with 0.
    set (k := Z.to_nat chunk).
    unfold write, canSendMessages in *. simpl. rewrite Hcan.
    unfold tryPush, full. simpl.
    destruct (Nat.leb_spec (capacity (threadBuffer_ s)) 0) as [|_]; [lia|].
    simpl.
    assert (Hk : 0 + k ≤ String.length cont) by lia.
    pose proof (substring_length cont 0 k Hk) as Hlen.
    destruct (sendAll_body cont (String.length cont + 2)
                (mkUpload
                   (mkSocket (state_ s)
                      (mkRing (capacity (threadBuffer_ s)) [substring 0 k cont])
                      (S (remainingMsgs_ s - 1)) (S (wakeupSignals s)))
                   BODY 0 cont)
                0 (substring 0 k cont) Hsend Hsize Hfit)
      as (sent & c' & Hrun & Hcat & Hall & Hidle & Hempty & Hcont'); simpl;
      try done; try lia.
    simpl in Hrun. rewrite Hrun.
    exists (substring 0 k cont :: sent), c'.
    split; [done|]. split.
    { rewrite concat_cons, Hcat, Hlen. rewrite (substring_app cont 0 k).
      replace (k + (String.length cont - (0 + k))) with (String.length cont) by lia.
      apply RouterSpec.substring_all. }
    split; [|done].
    constructor; [|done]. rewrite Hlen. lia.
  - assert (String.length cont = 0) as H0 by lia.
    rewrite H0. simpl.
    eexists [], _. split; [reflexivity|]. simpl.
    split; [by destruct cont|]. done.
Qed.

End WithSendSize.

(** Eleven bytes in chunks of four. *)
Lemma upload_sends_content_sample :
  let c := mkUpload (mkSocket CONNECTED (mkRing 1 ["PUT /a HTTP/1.1"]) 1 1)
             HEADERS 0 "hello world" in
  ∃ sent c',
    sendAll 4 (λ n, n mod 2 ^ 64)%Z 14 c = ("PUT /a HTTP/1.1" :: sent, Some c')
    ∧ String.concat "" sent = "hello world"
    ∧ Forall (λ m, 0 < String.length m ∧ (Z.of_nat (String.length m) ≤ 4)%Z) sent
    ∧ responseState_ c' = IDLE
    ∧ items (threadBuffer_ (socket c')) = []
    ∧ content c' = "hello world".
Proof.
  intros c.
  apply (upload_sends_content 4 (λ n, n mod 2 ^ 64)%Z c "PUT /a HTTP/1.1").
  - lia.
  - simpl. lia.
  - intros n Hn. simpl in Hn. apply Z.mod_small. lia.
  - reflexivity.
  - simpl. lia.
  - reflexivity.
  - reflexivity.
  - discriminate.
Defined.

End HttpUploadSpec.

(** ** Closing the socket, failed connections *)

Module TcpSocketCloseSpec.
Import TcpSocket TcpSocketClose.

(** X18. After [requestClose] the socket takes no message: whatever state
    the socket was in, [write] throws "cannot write while not connected" and
    changes nothing, while the messages queued before stay in the queue. A
    second [requestClose] does nothing. *)
Theorem requestClose_stops_writes (s : ClientTcpSocket) (data : string) :
  write (requestClose s) data
  = (requestClose s, WriteThrows "cannot write while not connected")
  ∧ threadBuffer_ (requestClose s) = threadBuffer_ s
  ∧ remainingMsgs_ (requestClose s) = remainingMsgs_ s
  ∧ requestClose (requestClose s) = requestClose s
  ∧ (state_ s = CONNECTED ∨ state_ s = CONNECTING →
     state_ (requestClose s) = DISCONNECTING).
Proof.
  destruct s as [[] b n k]; unfold requestClose, write, canSendMessages; simpl;
    repeat split; try done; by intros [|].
Qed.

Lemma popAll_all (fuel : nat) (b : RingBuffer) (acc : list string) :
  length (items b) < fuel →
  popAll fuel b acc = (mkRing (capacity b) [], acc ++ items b).
Proof.
  revert b acc. induction fuel as [|fuel IH]; intros [cap its] acc H; [lia|].
  simpl in *. unfold tryPop. simpl. destruct its as [|msg rest]; simpl.
  - by rewrite app_nil_r.
  - rewrite IH by (simpl in *; lia). simpl. by rewrite <- app_assoc.
Qed.

Lemma writeAll_queue (s : ClientTcpSocket) (msgs : list string) :
  canSendMessages s = true →
  ∃ s' accepted,
    writeAll s msgs = (s', accepted, None)
    ∧ state_ s' = state_ s
    ∧ capacity (threadBuffer_ s') = capacity (threadBuffer_ s)
    ∧ items (threadBuffer_ s') = items (threadBuffer_ s) ++ accepted
    ∧ remainingMsgs_ s' = remainingMsgs_ s + length accepted
    ∧ accepted = take (capacity (threadBuffer_ s) - length (items (threadBuffer_ s))) msgs.
Proof.
  revert s. induction msgs as [|msg msgs IH]; intros s Hcan.
  - exists s, []. simpl. rewrite app_nil_r, take_nil. repeat split; try done; lia.
  - simpl. unfold write. rewrite Hcan. unfold tryPush, full.
    destruct (Nat.leb_spec (capacity (threadBuffer_ s)) (length (items (threadBuffer_ s))))
      as [Hfull|Hroom].
    + destruct (IH s Hcan) as (s' & accepted & Hrun & Hst & Hcap & Hitems & Hrem & Hacc).
      rewrite Hrun. exists s', accepted. simpl.
      repeat split; try done.
      rewrite Hacc.
      replace (capacity (threadBuffer_ s) - length (items (threadBuffer_ s))) with 0
        by lia.
      done.
    + set (s1 := mkSocket (state_ s)
                   (mkRing (capacity (threadBuffer_ s)) (items (threadBuffer_ s) ++ [msg]))
                   (S (remainingMsgs_ s)) (S (wakeupSignals s))).
      destruct (IH s1) as (s' & accepted & Hrun & Hst & Hcap & Hitems & Hrem & Hacc);
        [done|].
      rewrite Hrun. exists s', (msg :: accepted). simpl in *.
      rewrite length_app in Hacc. simpl in Hacc.
      repeat split; try done.
      * rewrite Hitems, <- app_assoc. done.
      * lia.
      * rewrite Hacc.
        replace (capacity (threadBuffer_ s) - length (items (threadBuffer_ s)))
          with (S (capacity (threadBuffer_ s)
                   - (length (items (threadBuffer_ s)) + 1))) by lia.
        done.
Qed.

Section WithErrno.
Variable ENETUNREACH : Z.
Variable to_string : Z → string.

(** X19. Messages written while the connection is being made are not lost
    without notice. On a socket in state [CONNECTING], [write] accepts the
    messages for which the queue has room, in order, and throws for none;
    when the connection then fails with [ENETUNREACH],
    [onConnectionResult] gets [HOST_UNKNOWN] with the messages queued before
    and those accepted, oldest first, and the socket is left [DISCONNECTED]
    with an empty queue and no message to send; when it succeeds, the report
    names no lost message, the socket is [CONNECTED] and the queue is
    kept. *)
Theorem failed_connection_returns_messages (s : ClientTcpSocket)
    (msgs : list string) (errnoText : string) :
  state_ s = CONNECTING → ENETUNREACH ≠ 0%Z →
  ∃ s1 accepted,
    writeAll s msgs = (s1, accepted, None)
    ∧ accepted
      = take (capacity (threadBuffer_ s) - length (items (threadBuffer_ s))) msgs
    ∧ handleConnectionResult ENETUNREACH to_string s1 0 ENETUNREACH errnoText None
      = Reports HOST_UNKNOWN (items (threadBuffer_ s) ++ accepted)
          (mkSocket DISCONNECTED (mkRing (capacity (threadBuffer_ s)) []) 0
             (wakeupSignals s1))
    ∧ handleConnectionResult ENETUNREACH to_string s1 0 0 errnoText None
      = Reports SUCCESS []
          (mkSocket CONNECTED
             (mkRing (capacity (threadBuffer_ s)) (items (threadBuffer_ s) ++ accepted))
             (remainingMsgs_ s + length accepted) (wakeupSignals s1)).
Proof.
  intros Hst Hne0.
  destruct (writeAll_queue s msgs) as (s1 & accepted & Hrun & Hst1 & Hcap & Hitems & Hrem & Hacc).
  { unfold canSendMessages. rewrite Hst. done. }
  exists s1, accepted. split; [done|]. split; [done|].
  unfold handleConnectionResult.
  change (0 =? -1)%Z with false. cbv iota.
  destruct (Z.eqb_spec ENETUNREACH 0) as [|_]; [done|].
  rewrite Z.eqb_refl. change (0 =? 0)%Z with true. cbv iota.
  rewrite popAll_all by lia.
  rewrite Hcap, Hitems, Hrem. split; [done|].
  destruct (threadBuffer_ s1) as [cap its] eqn:Hb. simpl in *. by subst.
Qed.

End WithErrno.

(** A queue for three messages that holds one, and three more messages. *)
Lemma failed_connection_returns_messages_sample :
  let s := mkSocket CONNECTING (mkRing 3 ["a"]) 1 1 in
  ∃ s1 accepted,
    writeAll s ["b"; "c"; "d"] = (s1, accepted, None)
    ∧ accepted = ["b"; "c"]
    ∧ handleConnectionResult 101 (λ _, "") s1 0 101 "" None
      = Reports HOST_UNKNOWN ["a"; "b"; "c"]
          (mkSocket DISCONNECTED (mkRing 3 []) 0 (wakeupSignals s1))
    ∧ handleConnectionResult 101 (λ _, "") s1 0 0 "" None
      = Reports SUCCESS []
          (mkSocket CONNECTED (mkRing 3 ["a"; "b"; "c"]) 3 (wakeupSignals s1)).
Proof.
  intros s.
  destruct (failed_connection_returns_messages 101 (λ _, ""%string) s
              ["b"; "c"; "d"] ""%string)
    as (s1 & accepted & Hrun & Hacc & Hfail & Hok); [reflexivity|lia|].
  exists s1, accepted. simpl in Hacc. subst accepted.
  split; [exact Hrun|]. split; [reflexivity|]. split; [exact Hfail|exact Hok].
Defined.

End TcpSocketCloseSpec.
